(** * kafka-kit: partition maps, the rebuilder and the rebalancer

    A shallow embedding of [kafkazk]'s partition map (type [PartitionMap],
    [Rebuild], [placeByPosition], [placeByPartition], [shuffle],
    [SetReplication], [equal], [PartitionMapFromString]) and of topicmappr's
    rebalance steps ([planRelocationsForBroker], [applyRelocationPlan]).

    Go values are modelled as follows: [int] is [Z] (64 bit, wrap-around
    written where the code does arithmetic), [float64] is an IEEE-754
    binary64 value of [SpecFloat], a slice is a [list], a Go map is a
    [gmap], a pointer that may be nil is an [option], a run-time panic is
    the [Panic] outcome. *)

From Stdlib Require Import ZArith String Ascii.
From Stdlib Require Import Floats.SpecFloat.
From stdpp Require Import base gmap strings list sorting pretty.

Local Open Scope Z_scope.

(** ** The Go run time *)

(** What a call does: it returns, it panics (nil dereference, index or
    slice bounds out of range), or the model's loop budget ran out. *)
Inductive outcome (A : Type) : Type :=
  | Ret (a : A)
  | Panic (msg : string)
  | OutOfFuel.
Arguments Ret {A} a.
Arguments Panic {A} msg.
Arguments OutOfFuel {A}.

#[global] Instance outcome_ret : MRet outcome := λ A a, Ret a.
#[global] Instance outcome_bind : MBind outcome := λ A B f m,
  match m with
  | Ret a => f a
  | Panic msg => Panic msg
  | OutOfFuel => OutOfFuel
  end.

(** What a caller sees of a call that returned. *)
Definition observe {A B} (f : A → B) (m : outcome A) : option B :=
  match m with
  | Ret a => Some (f a)
  | _ => None
  end.

(** Two calls end the same way, with results related by [R]. *)
Definition orel {A B} (R : A → B → Prop) (m1 : outcome A) (m2 : outcome B) : Prop :=
  match m1, m2 with
  | Ret a, Ret b => R a b
  | Panic x, Panic y => x = y
  | OutOfFuel, OutOfFuel => True
  | _, _ => False
  end.

Definition returns {A} (m : outcome A) : Prop := ∃ a, m = Ret a.
Definition finishes {A} (m : outcome A) : Prop := m ≠ OutOfFuel.
Definition panics {A} (m : outcome A) : Prop := ∃ msg, m = Panic msg.

Definition nil_deref : string := "invalid memory address or nil pointer dereference".
Definition index_range : string := "index out of range".
Definition slice_bounds : string := "slice bounds out of range".

(** [int] and [int64] arithmetic wraps around at 64 bits. *)
Definition wrap64 (z : Z) : Z := (z + 2 ^ 63) `mod` 2 ^ 64 - 2 ^ 63.

(** [len] of a slice, as an [int]. *)
Definition len {A} (l : list A) : Z := Z.of_nat (length l).

(** [float64]. *)
Abbreviation float64 := spec_float.
Definition fadd : float64 → float64 → float64 := SFadd 53 1024.
Definition fsub : float64 → float64 → float64 := SFsub 53 1024.
Definition fmul : float64 → float64 → float64 := SFmul 53 1024.
Definition fdiv : float64 → float64 → float64 := SFdiv 53 1024.
Definition flt : float64 → float64 → bool := SFltb.
Definition fgt (x y : float64) : bool := SFltb y x.
Definition fge (x y : float64) : bool := SFleb y x.
Definition fzero : float64 := S754_zero false.
(** The float64 nearest to the integer [z] (exact below 2^53), and to
    [m * 2^e]. *)
Definition float_of_Z (z : Z) : float64 := binary_normalize 53 1024 z 0 false.
Definition float_of_scaled (m e : Z) : float64 := binary_normalize 53 1024 m e false.
Definition fone : float64 := float_of_Z 1.

(** [fmt.Sprintf]'s [%d] verb. *)
Definition fmt_d (z : Z) : string := pretty z.

(** String order of Go's [<] on strings: bytewise lexicographic. *)
Definition string_lt (a b : string) : bool := String.ltb a b.

(** ** Partition maps (kafkazk) *)

Record Partition : Type := mkPartition {
  Topic : string;
  PartitionN : Z;          (* the field [Partition] *)
  Replicas : list Z
}.

Abbreviation partitionList := (list Partition).

Record PartitionMap : Type := mkPartitionMap {
  Version : Z;
  Partitions : partitionList
}.

#[global] Instance Partition_eq_dec : EqDecision Partition.
Proof. solve_decision. Defined.
#[global] Instance PartitionMap_eq_dec : EqDecision PartitionMap.
Proof. solve_decision. Defined.

Definition NewPartitionMap : PartitionMap :=
  {| Version := 1; Partitions := [] |}.

(** [partitionList.Less], on the two elements rather than their indices. *)
Definition partitionList_Less (pi pj : Partition) : bool :=
  if string_lt (Topic pi) (Topic pj) then true
  else if string_lt (Topic pj) (Topic pi) then false
  else PartitionN pi <? PartitionN pj.

(** *** SetReplication *)

(** [p.Replicas[:r]] for a slice of length [l > r]: a negative bound
    panics. *)
Definition slice_to (rs : list Z) (r : Z) : outcome (list Z) :=
  if r <? 0 then Panic slice_bounds else Ret (take (Z.to_nat r) rs).

(** [make([]int, n)]: [n] zeroes. *)
Definition make_ints (n : Z) : list Z := replicate (Z.to_nat n) 0.

Definition setReplication1 (r : Z) (p : Partition) : outcome Partition :=
  let l := len (Replicas p) in
  if l >? r then
    rs ← slice_to (Replicas p) r;
    Ret {| Topic := Topic p; PartitionN := PartitionN p; Replicas := rs |}
  else if l <? r then
    Ret {| Topic := Topic p; PartitionN := PartitionN p;
            Replicas := Replicas p ++ make_ints (r - l) |}
  else Ret p.

Fixpoint setReplicationLoop (r : Z) (ps : partitionList) : outcome partitionList :=
  match ps with
  | [] => Ret []
  | p :: rest =>
      p' ← setReplication1 r p;
      rest' ← setReplicationLoop r rest;
      Ret (p' :: rest')
  end.

Definition SetReplication (pm : PartitionMap) (r : Z) : outcome PartitionMap :=
  if r =? 0 then Ret pm
  else
    ps ← setReplicationLoop r (Partitions pm);
    Ret {| Version := Version pm; Partitions := ps |}.

(** *** equal *)

(** The inner loop [for n := range p1.Replicas], from index [n] on; [rs]
    is what is left of [p1.Replicas]. *)
Fixpoint equalReplicasFrom (n : nat) (rs : list Z) (rs2 : list Z) : outcome bool :=
  match rs with
  | [] => Ret true
  | r1 :: rest =>
      match rs2 !! n with
      | None => Panic index_range
      | Some r2 =>
          if bool_decide (r1 ≠ r2) then Ret false
          else equalReplicasFrom (S n) rest rs2
      end
  end.

(** The outer loop [for i, p1 := range pm.Partitions], from index [i] on. *)
Fixpoint equalPartitionsFrom (i : nat) (ps : partitionList) (ps2 : partitionList)
  : outcome (bool * option string) :=
  match ps with
  | [] => Ret (true, None)
  | p1 :: rest =>
      match ps2 !! i with
      | None => Panic index_range
      | Some p2 =>
          if bool_decide (Topic p1 ≠ Topic p2) then Ret (false, Some "topic order"%string)
          else if bool_decide (PartitionN p1 ≠ PartitionN p2) then
            Ret (false, Some "partition order"%string)
          else if bool_decide (len (Replicas p1) ≠ len (Replicas p2)) then
            Ret (false, Some "replica list"%string)
          else
            same ← equalReplicasFrom 0 (Replicas p1) (Replicas p2);
            match same with
            | true => equalPartitionsFrom (S i) rest ps2
            | false => Ret (false, Some "replica"%string)
            end
      end
  end.

Definition equal (pm pm2 : PartitionMap) : outcome (bool * option string) :=
  if bool_decide (len (Partitions pm) ≠ len (Partitions pm2)) then
    Ret (false, Some "partitions len"%string)
  else if bool_decide (Version pm ≠ Version pm2) then
    Ret (false, Some "version"%string)
  else equalPartitionsFrom 0 (Partitions pm) (Partitions pm2).

(** *** Partition metadata *)

Record PartitionMeta : Type := mkPartitionMeta {
  Size_ : float64          (* the field [Size], in bytes *)
}.

(** [map[string]map[int]*PartitionMeta]; the stored pointers are not nil. *)
Abbreviation PartitionMetaMap := (gmap string (gmap Z PartitionMeta)).

(** [PartitionMetaMap.Size]: the size and the error. *)
Definition Size (pmm : PartitionMetaMap) (p : Partition) : float64 * option string :=
  match pmm !! Topic p with
  | None => (fzero, Some ("Topic " +:+ Topic p +:+ " not found in partition metadata"))
  | Some t =>
      match t !! PartitionN p with
      | None => (fzero, Some ("Partition " +:+ fmt_d (PartitionN p)
                              +:+ " not found in partition metadata"))
      | Some partn => (Size_ partn, None)
      end
  end.

(** [partitionsBySize.Less], on the two elements. *)
Definition partitionsBySize_Less (pm : PartitionMetaMap) (pi pj : Partition) : bool :=
  let s1 := (Size pm pi).1 in
  let s2 := (Size pm pj).1 in
  if fgt s1 s2 then true
  else if flt s1 s2 then false
  else PartitionN pi <? PartitionN pj.

(** ** What the Go standard library provides

    [sort.Sort], the global generator of [math/rand] and [encoding/json]
    are not part of the repository. They are taken with their contracts:
    [sort.Sort] permutes its argument and, for a strict weak order, leaves
    no inversion; [rand.Seed] puts the global generator in a state fixed by
    the seed; [rand.Shuffle(n, swap)] calls [swap] on a sequence of index
    pairs below [n] fixed by the generator state; [json.Unmarshal], called
    with the address of the pointer to a map, fails, or fills the map, or,
    for the JSON text [null], sets the pointer to nil without an error. *)

Record strict_weak_order {A} (less : A → A → bool) : Prop := {
  swo_irrefl : ∀ x, less x x = false;
  swo_trans : ∀ x y z, less x y = true → less y z = true → less x z = true;
  swo_incomp : ∀ x y z, less x z = true → less x y = true ∨ less y z = true
}.

Class GoRuntime : Type := {
  sort_Sort : ∀ A : Type, (A → A → bool) → list A → list A;
  sort_Sort_Permutation : ∀ A (less : A → A → bool) l, sort_Sort A less l ≡ₚ l;
  sort_Sort_Sorted : ∀ A (less : A → A → bool) l,
    strict_weak_order less → Sorted (λ a b, less b a = false) (sort_Sort A less l);
  rng : Type;
  rand_Seed : Z → rng;
  rand_Shuffle : rng → nat → list (nat * nat) * rng;
  rand_Shuffle_range : ∀ g n i j,
    (i, j) ∈ (rand_Shuffle g n).1 → (i < n)%nat ∧ (j < n)%nat;
  json_Unmarshal : string → PartitionMap → string + option PartitionMap;
  json_Unmarshal_null : ∀ pm, json_Unmarshal "null" pm = inr None
}.
Arguments sort_Sort {_ A} less l.

(** The callback every [rand.Shuffle] of the repository passes:
    [s[i], s[j] = s[j], s[i]]. The indices [rand.Shuffle] passes are below
    the length; others would panic and change nothing here. *)
Definition swap {A} (l : list A) (ij : nat * nat) : list A :=
  match l !! ij.1, l !! ij.2 with
  | Some x, Some y => <[ij.2 := x]> (<[ij.1 := y]> l)
  | _, _ => l
  end.

Definition apply_swaps {A} (swaps : list (nat * nat)) (l : list A) : list A :=
  foldl swap l swaps.

(** ** Brokers (kafkazk) *)

(** Modelled from the spec: the [Broker] struct, [BrokerMap], [brokerList],
    [filteredList], the two ranking orders, [SortPseudoShuffle],
    [constraints], [mergeConstraints] and [bestCandidate] are declared in
    files of kafkazk that are not translated here (their tests and their
    callers are). A [BrokerMap] holds exactly one broker per ID: the map is
    keyed by the ID, which stands for the field [ID] and for the pointer to
    the broker; the other fields are the record. *)
Record Broker : Type := mkBroker {
  Locality : string;
  Tags : gmap string string;
  Used : Z;
  StorageFree : float64;
  Replace : bool;
  New : bool;
  Missing : bool;
  OldMissing : bool
}.

Abbreviation BrokerMap := (gmap Z Broker).

Definition StubBrokerID : Z := 0.

(** A [*Broker]: nil, or the broker of that ID in the broker map. *)
Abbreviation ptr := (option Z).
Abbreviation brokerList := (list ptr).

(** [bm[bid]]: nil for an absent key. *)
Definition at_key (bm : BrokerMap) (bid : Z) : ptr :=
  match bm !! bid with
  | Some _ => Some bid
  | None => None
  end.

(** Reading a field through a pointer. *)
Definition deref (bm : BrokerMap) (p : ptr) : outcome Broker :=
  match p with
  | None => Panic nil_deref
  | Some id =>
      match bm !! id with
      | Some b => Ret b
      | None => Panic nil_deref
      end
  end.

(** The field [ID] through a pointer. *)
Definition deref_ID (p : ptr) : outcome Z :=
  match p with
  | None => Panic nil_deref
  | Some id => Ret id
  end.

Definition set_Used (u : Z) (b : Broker) : Broker :=
  {| Locality := Locality b; Tags := Tags b; Used := u;
     StorageFree := StorageFree b; Replace := Replace b; New := New b;
     Missing := Missing b; OldMissing := OldMissing b |}.

Definition set_StorageFree (f : float64) (b : Broker) : Broker :=
  {| Locality := Locality b; Tags := Tags b; Used := Used b;
     StorageFree := f; Replace := Replace b; New := New b;
     Missing := Missing b; OldMissing := OldMissing b |}.

(** Modelled from the spec: [List], the brokers of the map, here by their
    IDs in ascending order. *)
Definition broker_ids (bm : BrokerMap) : list Z :=
  merge_sort Z.le (map_to_list bm).*1.

(** Modelled from the spec: not the stub and not marked for replacement. *)
Definition is_candidate (bm : BrokerMap) (id : Z) : bool :=
  match bm !! id with
  | Some b => negb (id =? StubBrokerID) && negb (Replace b)
  | None => false
  end.

(** Modelled from the spec: [filteredList], the ordered list without the
    stub and without brokers marked for replacement. *)
Definition filteredList (bm : BrokerMap) : brokerList :=
  Some <$> List.filter (is_candidate bm) (broker_ids bm).

Definition used_of (bm : BrokerMap) (id : Z) : Z :=
  from_option Used 0 (bm !! id).
Definition free_of (bm : BrokerMap) (id : Z) : float64 :=
  from_option StorageFree fzero (bm !! id).

(** Modelled from the spec: ByCount, ascending [used], ties by ascending
    ID. *)
Definition brokersByCount_Less (bm : BrokerMap) (i j : Z) : bool :=
  if used_of bm i <? used_of bm j then true
  else if used_of bm j <? used_of bm i then false
  else i <? j.

(** Modelled from the spec: ByStorage, descending [storage_free], ties by
    ascending ID. *)
Definition brokersByStorage_Less (bm : BrokerMap) (i j : Z) : bool :=
  if fgt (free_of bm i) (free_of bm j) then true
  else if flt (free_of bm i) (free_of bm j) then false
  else i <? j.

(** Modelled from the spec: ranking and selection read every broker of the
    list; a nil pointer panics. *)
Fixpoint resolve (bm : BrokerMap) (bl : brokerList) : outcome (list Z) :=
  match bl with
  | [] => Ret []
  | p :: rest =>
      _ ← deref bm p;
      id ← deref_ID p;
      ids ← resolve bm rest;
      Ret (id :: ids)
  end.

(** Modelled from the spec: the groups of [SortPseudoShuffle], the maximal
    runs of brokers with equal [used]. *)
Fixpoint group_by_used (bm : BrokerMap) (ids : list Z) : list (list Z) :=
  match ids with
  | [] => []
  | id :: rest =>
      match group_by_used bm rest with
      | [] => [[id]]
      | [] :: grps => [id] :: grps
      | (id' :: grp) :: grps =>
          if used_of bm id =? used_of bm id' then (id :: id' :: grp) :: grps
          else [id] :: (id' :: grp) :: grps
      end
  end.

(** Modelled from the spec: [constraints], the localities and the tag
    bindings of a replica set, and the size of the partition to place
    (zero when not set). *)
Record constraints : Type := mkConstraints {
  localities : gset string;
  tag_bindings : gset (string * string);
  requestSize : float64
}.

(** [constraints.requestSize = s] *)
Definition set_requestSize (s : float64) (c : constraints) : constraints :=
  {| localities := localities c; tag_bindings := tag_bindings c; requestSize := s |}.

(** Modelled from the spec: the localities and tags of one more broker. *)
Definition constraints_add (b : Broker) (c : constraints) : constraints :=
  {| localities := {[ Locality b ]} ∪ localities c;
     tag_bindings := list_to_set (map_to_list (Tags b)) ∪ tag_bindings c;
     requestSize := requestSize c |}.

(** Modelled from the spec: [mergeConstraints] unions the localities and
    tags of the brokers of a replica set and skips the stub. It reads every
    broker of the list, so a nil entry panics. *)
Fixpoint mergeConstraints (bm : BrokerMap) (replicaSet : brokerList) : outcome constraints :=
  match replicaSet with
  | [] => Ret {| localities := ∅; tag_bindings := ∅; requestSize := fzero |}
  | p :: rest =>
      b ← deref bm p;
      id ← deref_ID p;
      c ← mergeConstraints bm rest;
      if id =? StubBrokerID then Ret c else Ret (constraints_add b c)
  end.

(** Modelled from the spec: a tag the broker has must have the value of
    the binding. *)
Definition tag_ok (b : Broker) (kv : string * string) : bool :=
  match Tags b !! kv.1 with
  | Some v => bool_decide (v = kv.2)
  | None => true
  end.

(** Modelled from the spec: the admissibility of a candidate. *)
Definition passes (bm : BrokerMap) (c : constraints) (id : Z) : bool :=
  match bm !! id with
  | None => false
  | Some b =>
      bool_decide (Locality b ∉ localities c)
      && forallb (tag_ok b) (elements (tag_bindings c))
      && (if fgt (requestSize c) fzero then fge (StorageFree b) (requestSize c) else true)
  end.

(** Modelled from the spec: the text of the error [NO_SUITABLE_BROKER]. *)
Definition errNoBrokers : string := "NO_SUITABLE_BROKER".

Section Placement.
Context `{RT : GoRuntime}.

(** The broker map, the filtered list that shares its brokers, and the
    global generator of [math/rand]. *)
Record bstate : Type := mkBState {
  st_bm : BrokerMap;
  st_bl : brokerList;
  st_rng : rng
}.

(** Modelled from the spec: one group shuffled, with the generator as the
    groups before it left it. *)
Definition shuffle_group (acc : list Z * rng) (grp : list Z) : list Z * rng :=
  let sw := rand_Shuffle acc.2 (length grp) in
  (acc.1 ++ apply_swaps sw.1 grp, sw.2).

(** Modelled from the spec: [SortPseudoShuffle], brokers grouped by
    [used], each group shuffled with the generator seeded by [seed]. *)
Definition SortPseudoShuffle (bm : BrokerMap) (ids : list Z) (seed : Z) : list Z * rng :=
  foldl shuffle_group ([], rand_Seed seed)
        (group_by_used bm (sort_Sort (brokersByCount_Less bm) ids)).

(** Modelled from the spec: the chosen candidate takes the partition, one
    more hosted and its size off the free storage. *)
Definition take_candidate (c : constraints) (b : Broker) : Broker :=
  set_StorageFree (fsub (StorageFree b) (requestSize c))
    (set_Used (wrap64 (Used b + 1)) b).

(** Modelled from the spec: the list ranked for the strategy, with the
    state the ranking leaves the generator in. *)
Definition ranked_list (st : bstate) (by_ : string) (seed : Z) (ids : list Z) : list Z * rng :=
  if bool_decide (by_ = "count"%string) then SortPseudoShuffle (st_bm st) ids seed
  else if bool_decide (by_ = "storage"%string) then
    (sort_Sort (brokersByStorage_Less (st_bm st)) ids, st_rng st)
  else (ids, st_rng st).

(** Modelled from the spec: [bestCandidate], the first broker of the
    list, ranked for the strategy, that passes the constraints. *)
Definition bestCandidate (st : bstate) (c : constraints) (by_ : string) (seed : Z)
  : outcome (bstate * (ptr * option string)) :=
  ids ← resolve (st_bm st) (st_bl st);
  let ranked := ranked_list st by_ seed ids in
  match List.find (passes (st_bm st) c) ranked.1 with
  | Some id =>
      Ret ({| st_bm := alter (take_candidate c) id (st_bm st);
              st_bl := Some <$> ranked.1; st_rng := ranked.2 |},
           (Some id, None))
  | None =>
      Ret ({| st_bm := st_bm st; st_bl := Some <$> ranked.1; st_rng := ranked.2 |},
           (None, Some errNoBrokers))
  end.

(** *** The rebuilder *)

Definition softError (partn : Partition) (err : string) : string :=
  Topic partn +:+ " p" +:+ fmt_d (PartitionN partn) +:+ ": " +:+ err.

(** The branch "we need to find a replacement", the same text in
    [placeByPosition] and [placeByPartition]: [newRs] is the new replica
    set so far; the result is the error string of a [continue] or the ID
    to append. *)
Definition findReplacement (strategy : string) (pmm : PartitionMetaMap)
    (partn : Partition) (newRs : list Z) (seed : Z) (st : bstate)
  : outcome (bstate * (string + Z)) :=
  let replicaSet := (at_key (st_bm st) <$> Replicas partn)
                    ++ (at_key (st_bm st) <$> newRs) in
  c ← mergeConstraints (st_bm st) replicaSet;
  let sized : string + constraints :=
    if bool_decide (strategy = "storage"%string) then
      match Size pmm partn with
      | (_, Some err) => inl (softError partn err)
      | (s, None) => inr (set_requestSize s c)
      end
    else inr c in
  match sized with
  | inl e => Ret (st, inl e)
  | inr c' =>
      r ← bestCandidate st c' strategy seed;
      match r.2.2 with
      | Some err => Ret (r.1, inl (softError partn err))
      | None => id ← deref_ID r.2.1; Ret (r.1, inr id)
      end
  end.

(** [newMap.Partitions[n].Replicas = append(newMap.Partitions[n].Replicas, id)] *)
Definition appendReplica (n : nat) (id : Z) (parts : partitionList) : outcome partitionList :=
  match parts !! n with
  | None => Panic index_range
  | Some p =>
      Ret (<[n := {| Topic := Topic p; PartitionN := PartitionN p;
                     Replicas := Replicas p ++ [id] |}]> parts)
  end.

(** The state of [placeByPosition]'s loops. *)
Record posState : Type := mkPosState {
  ps_parts : partitionList;      (* newMap.Partitions *)
  ps_errs : list string;
  ps_st : bstate;
  ps_skipped : Z
}.

(** The body of the inner loop, for partition [partn] at index [n]. *)
Definition placeAt (pmm : PartitionMetaMap) (strategy : string) (pass : Z)
    (n : nat) (partn : Partition) (s : posState) : outcome posState :=
  let parts :=
    if pass =? 0 then
      ps_parts s ++ [{| Topic := Topic partn; PartitionN := PartitionN partn; Replicas := [] |}]
    else ps_parts s in
  if pass >? len (Replicas partn) - 1 then
    Ret {| ps_parts := parts; ps_errs := ps_errs s; ps_st := ps_st s;
           ps_skipped := wrap64 (ps_skipped s + 1) |}
  else if pass <? 0 then Panic index_range
  else
    match Replicas partn !! Z.to_nat pass with
    | None => Panic index_range
    | Some bid =>
        b ← deref (st_bm (ps_st s)) (at_key (st_bm (ps_st s)) bid);
        if negb (Replace b) then
          parts' ← appendReplica n bid parts;
          Ret {| ps_parts := parts'; ps_errs := ps_errs s; ps_st := ps_st s;
                 ps_skipped := ps_skipped s |}
        else
          match parts !! n with
          | None => Panic index_range
          | Some newPartn =>
              r ← findReplacement strategy pmm partn (Replicas newPartn)
                    (wrap64 (pass * Z.of_nat n + 1)) (ps_st s);
              match r.2 with
              | inl e =>
                  Ret {| ps_parts := parts; ps_errs := ps_errs s ++ [e]; ps_st := r.1;
                         ps_skipped := ps_skipped s |}
              | inr id =>
                  parts' ← appendReplica n id parts;
                  Ret {| ps_parts := parts'; ps_errs := ps_errs s; ps_st := r.1;
                         ps_skipped := ps_skipped s |}
              end
          end
    end.

(** [for n, partn := range pm.Partitions], from index [n] on. *)
Fixpoint placePass (pmm : PartitionMetaMap) (strategy : string) (pass : Z)
    (n : nat) (rest : partitionList) (s : posState) : outcome posState :=
  match rest with
  | [] => Ret s
  | partn :: rest' =>
      s' ← placeAt pmm strategy pass n partn s;
      placePass pmm strategy pass (S n) rest' s'
  end.

(** [for skipped := 0; skipped < len(pm.Partitions); { ...; pass++ }] *)
Fixpoint placePasses (fuel : nat) (pmm : PartitionMetaMap) (strategy : string)
    (pm : PartitionMap) (pass : Z) (s : posState) : outcome posState :=
  if ps_skipped s <? len (Partitions pm) then
    match fuel with
    | O => OutOfFuel
    | S fuel' =>
        s' ← placePass pmm strategy pass 0 (Partitions pm) s;
        placePasses fuel' pmm strategy pm (wrap64 (pass + 1)) s'
    end
  else Ret s.

(** The final check of both placements. *)
Definition zeroReplicaErrors (parts : partitionList) : list string :=
  (λ partn, softError partn "configured to zero replicas")
    <$> List.filter (λ partn, len (Replicas partn) =? 0) parts.

(** One more pass than the longest replica set is enough for the outer
    loop ([placePasses_fuel] below). *)
Definition pass_budget (pm : PartitionMap) : nat :=
  S (max_list (length ∘ Replicas <$> Partitions pm)).

Definition placeByPosition (pm : PartitionMap) (st : bstate) (pmm : PartitionMetaMap)
    (strategy : string) : outcome (PartitionMap * list string * bstate) :=
  let st0 := {| st_bm := st_bm st; st_bl := filteredList (st_bm st); st_rng := st_rng st |} in
  s ← placePasses (pass_budget pm) pmm strategy pm 0
        {| ps_parts := Partitions NewPartitionMap; ps_errs := []; ps_st := st0;
           ps_skipped := 0 |};
  Ret ({| Version := Version NewPartitionMap; Partitions := ps_parts s |},
       ps_errs s ++ zeroReplicaErrors (ps_parts s), ps_st s).

(** The state of [placeByPartition]'s inner loop. *)
Record partState : Type := mkPartState {
  pt_replicas : list Z;          (* newPartn.Replicas *)
  pt_errs : list string;
  pt_st : bstate
}.

(** The body of [for _, bid := range partn.Replicas]. *)
Definition placeReplica (pmm : PartitionMetaMap) (strategy : string)
    (partn : Partition) (bid : Z) (s : partState) : outcome partState :=
  b ← deref (st_bm (pt_st s)) (at_key (st_bm (pt_st s)) bid);
  if negb (Replace b) then
    Ret {| pt_replicas := pt_replicas s ++ [bid]; pt_errs := pt_errs s; pt_st := pt_st s |}
  else
    r ← findReplacement strategy pmm partn (pt_replicas s) 1 (pt_st s);
    match r.2 with
    | inl e => Ret {| pt_replicas := pt_replicas s; pt_errs := pt_errs s ++ [e]; pt_st := r.1 |}
    | inr id => Ret {| pt_replicas := pt_replicas s ++ [id]; pt_errs := pt_errs s; pt_st := r.1 |}
    end.

Fixpoint placeReplicas (pmm : PartitionMetaMap) (strategy : string)
    (partn : Partition) (bids : list Z) (s : partState) : outcome partState :=
  match bids with
  | [] => Ret s
  | bid :: rest =>
      s' ← placeReplica pmm strategy partn bid s;
      placeReplicas pmm strategy partn rest s'
  end.

(** [for _, partn := range pm.Partitions] of [placeByPartition]; [acc] is
    [newMap.Partitions]. *)
Fixpoint placePartitions (pmm : PartitionMetaMap) (strategy : string)
    (rest : partitionList) (acc : partitionList) (errs : list string) (st : bstate)
  : outcome (partitionList * list string * bstate) :=
  match rest with
  | [] => Ret (acc, errs, st)
  | partn :: rest' =>
      s ← placeReplicas pmm strategy partn (Replicas partn)
            {| pt_replicas := []; pt_errs := errs; pt_st := st |};
      placePartitions pmm strategy rest'
        (acc ++ [{| Topic := Topic partn; PartitionN := PartitionN partn;
                    Replicas := pt_replicas s |}])
        (pt_errs s) (pt_st s)
  end.

Definition placeByPartition (pm : PartitionMap) (st : bstate) (pmm : PartitionMetaMap)
    (strategy : string) : outcome (PartitionMap * list string * bstate) :=
  let st0 := {| st_bm := st_bm st; st_bl := filteredList (st_bm st); st_rng := st_rng st |} in
  r ← placePartitions pmm strategy (Partitions pm) (Partitions NewPartitionMap) [] st0;
  Ret ({| Version := Version NewPartitionMap; Partitions := r.1.1 |},
       r.1.2 ++ zeroReplicaErrors r.1.1, r.2).

(** [shuffle]: the body for the partition at index [n], and the loop. *)
Definition shuffleAt (n : nat) (p : Partition) : Partition * rng :=
  let sw := rand_Shuffle (rand_Seed (wrap64 (Z.shiftl (Z.of_nat n) 2)))
                         (length (Replicas p)) in
  ({| Topic := Topic p; PartitionN := PartitionN p;
      Replicas := apply_swaps sw.1 (Replicas p) |}, sw.2).

Fixpoint shuffleFrom (n : nat) (ps : partitionList) (g : rng) : partitionList * rng :=
  match ps with
  | [] => ([], g)
  | p :: rest =>
      let r := shuffleAt n p in
      let r' := shuffleFrom (S n) rest r.2 in
      (r.1 :: r'.1, r'.2)
  end.

Definition shuffle (pm : PartitionMap) (g : rng) : PartitionMap * rng :=
  let r := shuffleFrom 0 (Partitions pm) g in
  ({| Version := Version pm; Partitions := r.1 |}, r.2).

(** What a call of [Rebuild] leaves: the returned map (nil on a hard
    error) and errors, and the receiver, the broker map and the generator
    as the call left them. *)
Record rebuilt : Type := mkRebuilt {
  newMap : option PartitionMap;
  errs : list string;
  pm_after : PartitionMap;
  bm_after : BrokerMap;
  rng_after : rng
}.

Definition Rebuild (pm : PartitionMap) (bm : BrokerMap) (pmm : PartitionMetaMap)
    (strategy : string) (g : rng) : outcome rebuilt :=
  let st := {| st_bm := bm; st_bl := []; st_rng := g |} in
  if bool_decide (strategy = "count"%string) then
    let pm1 := {| Version := Version pm;
                  Partitions := sort_Sort partitionList_Less (Partitions pm) |} in
    r ← placeByPosition pm1 st pmm strategy;
    Ret {| newMap := Some {| Version := Version r.1.1;
                             Partitions := sort_Sort partitionList_Less (Partitions r.1.1) |};
           errs := r.1.2; pm_after := pm1;
           bm_after := st_bm r.2; rng_after := st_rng r.2 |}
  else if bool_decide (strategy = "storage"%string) then
    let pm1 := {| Version := Version pm;
                  Partitions := sort_Sort (partitionsBySize_Less pmm) (Partitions pm) |} in
    r ← placeByPartition pm1 st pmm strategy;
    let sh := shuffle r.1.1 (st_rng r.2) in
    Ret {| newMap := Some {| Version := Version sh.1;
                             Partitions := sort_Sort partitionList_Less (Partitions sh.1) |};
           errs := r.1.2; pm_after := pm1;
           bm_after := st_bm r.2; rng_after := sh.2 |}
  else
    Ret {| newMap := None;
           errs := ["Invalid rebuild strategy '" +:+ strategy +:+ "'"];
           pm_after := pm; bm_after := bm; rng_after := g |}.

(** *** PartitionMapFromString

    [pm] is a [*PartitionMap] and [json.Unmarshal] gets [&pm]: when it
    leaves [pm] nil, [pm.Partitions] in the call of [sort.Sort] is a nil
    dereference. *)

Definition PartitionMapFromString (s : string)
  : outcome (option PartitionMap * option string) :=
  match json_Unmarshal s NewPartitionMap with
  | inl err => Ret (None, Some ("Error parsing topic map: " +:+ err))
  | inr None => Panic nil_deref
  | inr (Some pm) =>
      Ret (Some {| Version := Version pm;
                   Partitions := sort_Sort partitionList_Less (Partitions pm) |}, None)
  end.

End Placement.

(** ** The rebalancer (topicmappr) *)

(** Modelled from the spec: [Mean], the arithmetic mean of [storage_free]
    over the filtered list. *)
Definition Mean (bm : BrokerMap) : float64 :=
  let ids := List.filter (is_candidate bm) (broker_ids bm) in
  fdiv (foldl (λ acc id, fadd acc (free_of bm id)) fzero ids) (float_of_Z (len ids)).

(** Modelled from the spec: [Mappings], broker ID to the partitions that
    hold a replica on it, with [LargestPartitions] (up to [k] partitions,
    largest first; its error result is dropped by the only caller) and
    [Remove]. *)
Abbreviation Mappings := (gmap Z partitionList).

Definition same_partition (p q : Partition) : bool :=
  bool_decide (Topic p = Topic q) && (PartitionN p =? PartitionN q).

(** Modelled from the spec: [Remove]. *)
Definition Mappings_Remove (m : Mappings) (id : Z) (p : Partition) : Mappings :=
  alter (List.filter (λ q, negb (same_partition p q))) id m.

Record relocation : Type := mkRelocation {
  partition : Partition;
  destination : Z
}.

(** [map[string]map[int][2]int] *)
Abbreviation relocationPlan := (gmap string (gmap Z (Z * Z))).

Definition relocationPlan_add (r : relocationPlan) (p : Partition) (ids : Z * Z) : relocationPlan :=
  <[Topic p := <[PartitionN p := ids]> (default ∅ (r !! Topic p))]> r.

Definition isPlanned (r : relocationPlan) (p : Partition) : bool * (Z * Z) :=
  match r !! Topic p with
  | None => (false, (0, 0))
  | Some t =>
      match t !! PartitionN p with
      | None => (false, (0, 0))
      | Some ids => (true, ids)
      end
  end.

(** The flags [planRelocationsForBroker] reads from the command. *)
Record rebalanceFlags : Type := mkFlags {
  verbose : bool;
  tolerance : float64;
  localityScoped : bool
}.

Record planRelocationsForBrokerParams : Type := mkParams {
  sourceID : Z;
  relos : gmap Z (list relocation);
  mappings : Mappings;
  brokers : BrokerMap;
  partitionMeta : PartitionMetaMap;
  plan : relocationPlan;
  pass : Z;
  topPartitionsLimit : Z
}.

Section Rebalance.
Context `{RT : GoRuntime}.

(** Modelled from the spec: [LargestPartitions]. *)
Definition LargestPartitions (m : Mappings) (id : Z) (k : Z) (pmm : PartitionMetaMap)
  : partitionList :=
  take (Z.to_nat k) (sort_Sort (partitionsBySize_Less pmm) (default [] (m !! id))).

(** The maps the planner mutates, and the generator [BestCandidate] may
    use. *)
Record planState : Type := mkPlanState {
  pl_relos : gmap Z (list relocation);
  pl_mappings : Mappings;
  pl_brokers : BrokerMap;
  pl_plan : relocationPlan;
  pl_rng : rng
}.

(** The destination for partition [p]: nil when there is none. *)
Definition selectDest (scoped : bool) (src : Z) (targetLocality : string)
    (p : Partition) (s : planState) : outcome (planState * ptr) :=
  let brokerList := sort_Sort (brokersByStorage_Less (pl_brokers s)) (broker_ids (pl_brokers s)) in
  if scoped then
    Ret (s, List.find (λ id, match pl_brokers s !! id with
                             | Some b => bool_decide (Locality b = targetLocality)
                                         && bool_decide (id ≠ src)
                             | None => false
                             end) brokerList)
  else
    let replicaSet := at_key (pl_brokers s) <$> List.filter (λ id, bool_decide (id ≠ src)) (Replicas p) in
    c ← mergeConstraints (pl_brokers s) replicaSet;
    r ← bestCandidate {| st_bm := pl_brokers s; st_bl := Some <$> brokerList;
                         st_rng := pl_rng s |} c "storage" 0;
    Ret ({| pl_relos := pl_relos s; pl_mappings := pl_mappings s;
            pl_brokers := st_bm r.1; pl_plan := pl_plan s; pl_rng := st_rng r.1 |},
         r.2.1).

(** The moves the loop body can make. *)
Inductive planStep : Type :=
  | StepReturn (s : planState)         (* [dest == nil]: return *)
  | StepContinue (s : planState)       (* a limit is exceeded: next partition *)
  | StepCommit (s : planState).        (* the move is planned: break *)

(** The body of [for _, p := range topPartn]. *)
Definition planMove (fl : rebalanceFlags) (src : Z) (pmm : PartitionMetaMap)
    (meanStorageFree : float64) (targetLocality : string)
    (p : Partition) (s : planState) : outcome planStep :=
  let pSize := (Size pmm p).1 in
  r ← selectDest (localityScoped fl) src targetLocality p s;
  let s1 := r.1 in
  match r.2 with
  | None => Ret (StepReturn s1)
  | Some dest =>
      sb ← deref (pl_brokers s1) (at_key (pl_brokers s1) src);
      db ← deref (pl_brokers s1) (Some dest);
      let sourceFree := fadd (StorageFree sb) pSize in
      let destFree := fsub (StorageFree db) pSize in
      let sLim := fmul meanStorageFree (fadd fone (tolerance fl)) in
      if fgt sourceFree sLim then Ret (StepContinue s1)
      else
        let dLim := fmul meanStorageFree (fsub fone (tolerance fl)) in
        if flt destFree dLim then Ret (StepContinue s1)
        else
          let relos' := <[src := default [] (pl_relos s1 !! src)
                                 ++ [{| partition := p; destination := dest |}]]> (pl_relos s1) in
          let plan' := relocationPlan_add (pl_plan s1) p (src, dest) in
          let brokers1 := alter (set_StorageFree sourceFree) src (pl_brokers s1) in
          let brokers2 := alter (set_StorageFree destFree) dest brokers1 in
          Ret (StepCommit {| pl_relos := relos'; pl_mappings := Mappings_Remove (pl_mappings s1) src p;
                             pl_brokers := brokers2; pl_plan := plan'; pl_rng := pl_rng s1 |})
  end.

Fixpoint planLoop (fl : rebalanceFlags) (src : Z) (pmm : PartitionMetaMap)
    (meanStorageFree : float64) (targetLocality : string)
    (topPartn : partitionList) (s : planState) : outcome (Z * planState) :=
  match topPartn with
  | [] => Ret (0, s)
  | p :: rest =>
      r ← planMove fl src pmm meanStorageFree targetLocality p s;
      match r with
      | StepReturn s' => Ret (0, s')
      | StepContinue s' => planLoop fl src pmm meanStorageFree targetLocality rest s'
      | StepCommit s' => Ret (1, s')
      end
  end.

Definition planRelocationsForBroker (fl : rebalanceFlags)
    (params : planRelocationsForBrokerParams) (g : rng) : outcome (Z * planState) :=
  let meanStorageFree := Mean (brokers params) in
  let topPartn := LargestPartitions (mappings params) (sourceID params)
                    (topPartitionsLimit params) (partitionMeta params) in
  sb ← deref (brokers params) (at_key (brokers params) (sourceID params));
  let targetLocality := Locality sb in
  planLoop fl (sourceID params) (partitionMeta params) meanStorageFree targetLocality topPartn
    {| pl_relos := relos params; pl_mappings := mappings params;
       pl_brokers := brokers params; pl_plan := plan params; pl_rng := g |}.

(** [SimpleLeaderOptimization] belongs to kafkazk and is not translated
    here; it is a parameter of [applyRelocationPlan]. *)
Variable SimpleLeaderOptimization : PartitionMap → PartitionMap.

(** [for i, r := range partn.Replicas { if r == p[0] { partn.Replicas[i] = p[1] } }],
    from index [i] on, for [k] more elements; the slice is updated in
    place. *)
Fixpoint replaceFrom (k : nat) (i : nat) (p : Z * Z) (rs : list Z) : list Z :=
  match k with
  | O => rs
  | S k' =>
      match rs !! i with
      | Some r =>
          if r =? p.1 then replaceFrom k' (S i) p (<[i := p.2]> rs)
          else replaceFrom k' (S i) p rs
      | None => rs
      end
  end.

Definition applyTo (plan : relocationPlan) (partn : Partition) : Partition :=
  let pl := isPlanned plan partn in
  if pl.1 then
    {| Topic := Topic partn; PartitionN := PartitionN partn;
       Replicas := replaceFrom (length (Replicas partn)) 0 pl.2 (Replicas partn) |}
  else partn.

(** [optimize] is the flag [optimize-leaders]. *)
Definition applyRelocationPlan (optimize : bool) (pm : PartitionMap) (plan : relocationPlan)
  : PartitionMap :=
  let pm' := {| Version := Version pm; Partitions := applyTo plan <$> Partitions pm |} in
  if optimize then SimpleLeaderOptimization pm' else pm'.

End Rebalance.

(** ** A run time to execute the model

    A stable merge sort for [sort.Sort], Fisher-Yates over a linear
    congruential generator for [math/rand], and for [encoding/json] a
    decoder of the JSON texts that have no escape sequence in a string and
    no fraction or exponent in a number. On lists whose keys are distinct
    every implementation of [sort.Sort] gives the same result. *)

Definition lcg (g : Z) : Z :=
  (g * 6364136223846793005 + 1442695040888963407) `mod` 2 ^ 64.

(** The swaps for indices [i], [i-1], ..., [1]. *)
Fixpoint fisher_yates (i : nat) (g : Z) : list (nat * nat) * Z :=
  match i with
  | O => ([], g)
  | S i' =>
      let g' := lcg g in
      let r := fisher_yates i' g' in
      ((i, Z.to_nat (g' `mod` Z.of_nat (S i))) :: r.1, r.2)
  end.

(** JSON values. *)
#[local] Unset Elimination Schemes.
Inductive json : Type :=
  | JNull
  | JBool (b : bool)
  | JNum (z : Z)
  | JStr (s : string)
  | JArr (l : list json)
  | JObj (l : list (string * json)).
#[local] Set Elimination Schemes.

Definition dquote : ascii := "034"%char.

Definition is_ws (c : ascii) : bool :=
  bool_decide (c = " "%char) || bool_decide (c = "009"%char)
  || bool_decide (c = "010"%char) || bool_decide (c = "013"%char).

Fixpoint skip_ws (s : list ascii) : list ascii :=
  match s with
  | c :: r => if is_ws c then skip_ws r else s
  | [] => []
  end.

Definition digit_of (c : ascii) : option Z :=
  let n := Z.of_N (N_of_ascii c) in
  if (48 <=? n) && (n <=? 57) then Some (n - 48) else None.

Fixpoint read_digits (acc : Z) (s : list ascii) : Z * list ascii :=
  match s with
  | c :: r =>
      match digit_of c with
      | Some d => read_digits (acc * 10 + d) r
      | None => (acc, s)
      end
  | [] => (acc, [])
  end.

(** The characters up to the closing quote; a backslash is refused. *)
Fixpoint read_string (s : list ascii) : option (string * list ascii) :=
  match s with
  | [] => None
  | c :: r =>
      if bool_decide (c = dquote) then Some (EmptyString, r)
      else if bool_decide (c = "\"%char) then None
      else match read_string r with
           | Some (t, r') => Some (String c t, r')
           | None => None
           end
  end.

Fixpoint strip_prefix (p s : list ascii) : option (list ascii) :=
  match p, s with
  | [], _ => Some s
  | a :: p', b :: s' => if bool_decide (a = b) then strip_prefix p' s' else None
  | _ :: _, [] => None
  end.

Definition read_number (s : list ascii) : option (json * list ascii) :=
  match s with
  | c :: r =>
      if bool_decide (c = "-"%char) then
        match r with
        | d :: r' =>
            match digit_of d with
            | Some n => let nr := read_digits n r' in Some (JNum (- nr.1), nr.2)
            | None => None
            end
        | [] => None
        end
      else
        match digit_of c with
        | Some n => let nr := read_digits n r in Some (JNum nr.1, nr.2)
        | None => None
        end
  | [] => None
  end.

(** A value, the elements of an array after its bracket, the members of
    an object after its brace. *)
Fixpoint parse_value (fuel : nat) (s : list ascii) : option (json * list ascii) :=
  match fuel with
  | O => None
  | S fuel' =>
      match skip_ws s with
      | [] => None
      | c :: r =>
          if bool_decide (c = dquote) then
            match read_string r with
            | Some (t, r') => Some (JStr t, r')
            | None => None
            end
          else if bool_decide (c = "["%char) then
            match skip_ws r with
            | c' :: r' =>
                if bool_decide (c' = "]"%char) then Some (JArr [], r')
                else match parse_elems fuel' r with
                     | Some (l, r'') => Some (JArr l, r'')
                     | None => None
                     end
            | [] => None
            end
          else if bool_decide (c = "{"%char) then
            match skip_ws r with
            | c' :: r' =>
                if bool_decide (c' = "}"%char) then Some (JObj [], r')
                else match parse_members fuel' r with
                     | Some (l, r'') => Some (JObj l, r'')
                     | None => None
                     end
            | [] => None
            end
          else
            match strip_prefix (list_ascii_of_string "null") (c :: r) with
            | Some r' => Some (JNull, r')
            | None =>
                match strip_prefix (list_ascii_of_string "true") (c :: r) with
                | Some r' => Some (JBool true, r')
                | None =>
                    match strip_prefix (list_ascii_of_string "false") (c :: r) with
                    | Some r' => Some (JBool false, r')
                    | None => read_number (c :: r)
                    end
                end
            end
      end
  end
with parse_elems (fuel : nat) (s : list ascii) : option (list json * list ascii) :=
  match fuel with
  | O => None
  | S fuel' =>
      match parse_value fuel' s with
      | Some (v, r) =>
          match skip_ws r with
          | c :: r' =>
              if bool_decide (c = ","%char) then
                match parse_elems fuel' r' with
                | Some (l, r'') => Some (v :: l, r'')
                | None => None
                end
              else if bool_decide (c = "]"%char) then Some ([v], r')
              else None
          | [] => None
          end
      | None => None
      end
  end
with parse_members (fuel : nat) (s : list ascii)
  : option (list (string * json) * list ascii) :=
  match fuel with
  | O => None
  | S fuel' =>
      match skip_ws s with
      | q :: r0 =>
          if bool_decide (q = dquote) then
            match read_string r0 with
            | Some (k, r1) =>
                match skip_ws r1 with
                | c1 :: r2 =>
                    if bool_decide (c1 = ":"%char) then
                      match parse_value fuel' r2 with
                      | Some (v, r3) =>
                          match skip_ws r3 with
                          | c :: r' =>
                              if bool_decide (c = ","%char) then
                                match parse_members fuel' r' with
                                | Some (l, r'') => Some ((k, v) :: l, r'')
                                | None => None
                                end
                              else if bool_decide (c = "}"%char) then Some ([(k, v)], r')
                              else None
                          | [] => None
                          end
                      | None => None
                      end
                    else None
                | [] => None
                end
            | None => None
            end
          else None
      | [] => None
      end
  end.

Definition parse_json (s : string) : option json :=
  match parse_value (2 * String.length s + 2) (list_ascii_of_string s) with
  | Some (v, r) => match skip_ws r with [] => Some v | _ => None end
  | None => None
  end.

(** The fields of the structs, by their [json] tags; other members are
    skipped, [null] leaves a field as it is. *)
Fixpoint decode_ints (l : list json) : option (list Z) :=
  match l with
  | [] => Some []
  | JNum z :: l' =>
      match decode_ints l' with
      | Some zs => Some (z :: zs)
      | None => None
      end
  | _ :: _ => None
  end.

Definition decode_partition_member (p : option Partition) (kv : string * json)
  : option Partition :=
  match p with
  | None => None
  | Some p =>
      if bool_decide (kv.1 = "topic"%string) then
        match kv.2 with
        | JStr t => Some {| Topic := t; PartitionN := PartitionN p; Replicas := Replicas p |}
        | JNull => Some p
        | _ => None
        end
      else if bool_decide (kv.1 = "partition"%string) then
        match kv.2 with
        | JNum n => Some {| Topic := Topic p; PartitionN := n; Replicas := Replicas p |}
        | JNull => Some p
        | _ => None
        end
      else if bool_decide (kv.1 = "replicas"%string) then
        match kv.2 with
        | JArr l =>
            match decode_ints l with
            | Some rs => Some {| Topic := Topic p; PartitionN := PartitionN p; Replicas := rs |}
            | None => None
            end
        | JNull => Some {| Topic := Topic p; PartitionN := PartitionN p; Replicas := [] |}
        | _ => None
        end
      else Some p
  end.

Definition decode_partition (v : json) : option Partition :=
  let zero := {| Topic := ""; PartitionN := 0; Replicas := [] |} in
  match v with
  | JObj members => foldl decode_partition_member (Some zero) members
  | JNull => Some zero
  | _ => None
  end.

Fixpoint decode_partitions (l : list json) : option partitionList :=
  match l with
  | [] => Some []
  | v :: l' =>
      match decode_partition v, decode_partitions l' with
      | Some p, Some ps => Some (p :: ps)
      | _, _ => None
      end
  end.

Definition decode_map_member (pm : option PartitionMap) (kv : string * json)
  : option PartitionMap :=
  match pm with
  | None => None
  | Some pm =>
      if bool_decide (kv.1 = "version"%string) then
        match kv.2 with
        | JNum v => Some {| Version := v; Partitions := Partitions pm |}
        | JNull => Some pm
        | _ => None
        end
      else if bool_decide (kv.1 = "partitions"%string) then
        match kv.2 with
        | JArr l =>
            match decode_partitions l with
            | Some ps => Some {| Version := Version pm; Partitions := ps |}
            | None => None
            end
        | JNull => Some {| Version := Version pm; Partitions := [] |}
        | _ => None
        end
      else Some pm
  end.

(** [json.Unmarshal([]byte(s), &pm)] for [pm] pointing to the map [pm0]. *)
Definition decode_json (s : string) (pm0 : PartitionMap) : string + option PartitionMap :=
  match parse_json s with
  | None => inl "invalid character"%string
  | Some JNull => inr None
  | Some (JObj members) =>
      match foldl decode_map_member (Some pm0) members with
      | Some pm => inr (Some pm)
      | None => inl "json: cannot unmarshal into Go struct field"%string
      end
  | Some _ => inl "json: cannot unmarshal into Go value of type kafkazk.PartitionMap"%string
  end.

(** A string in double quotes. *)
Definition qt (s : string) : string := String dquote (s +:+ String dquote EmptyString).

Definition doc_partition (topic : string) (n replicas : string) : string :=
  "{" +:+ qt "topic" +:+ ":" +:+ qt topic +:+ "," +:+ qt "partition" +:+ ":" +:+ n
  +:+ "," +:+ qt "replicas" +:+ ":[" +:+ replicas +:+ "]}".

(** A map of three partitions, not in canonical order. *)
Definition doc_two_topics : string :=
  "{" +:+ qt "version" +:+ ":1, " +:+ qt "partitions" +:+ ": ["
  +:+ doc_partition "b" "1" "1,2" +:+ ","
  +:+ doc_partition "b" "0" "2,3" +:+ ", "
  +:+ doc_partition "a" "7" "3,1" +:+ "]}".

Definition pm_two_topics : PartitionMap :=
  {| Version := 1;
     Partitions := [ {| Topic := "b"; PartitionN := 1; Replicas := [1; 2] |};
                     {| Topic := "b"; PartitionN := 0; Replicas := [2; 3] |};
                     {| Topic := "a"; PartitionN := 7; Replicas := [3; 1] |} ] |}.

Definition stable_sort {A} (less : A → A → bool) (l : list A) : list A :=
  @merge_sort A (λ a b, less b a = false) (λ a b, decide (less b a = false)) l.

Definition ref_runtime : GoRuntime.
Proof.
  refine {| sort_Sort := @stable_sort;
            rng := Z;
            rand_Seed := λ seed, seed;
            rand_Shuffle := λ g n, fisher_yates (n - 1) g;
            json_Unmarshal := decode_json |}.
  - intros A less l. apply merge_sort_Permutation.
  - intros A less l Hswo. apply Sorted_merge_sort.
    intros x y. destruct (less y x) eqn:Hyx; [right|by left].
    destruct (less x y) eqn:Hxy; [|done].
    rewrite <- (swo_irrefl less Hswo x). symmetry. eapply swo_trans; eauto.
  - intros g n i j Hin.
    assert (Hfy : ∀ k g0 a b, (a, b) ∈ (fisher_yates k g0).1 → (1 ≤ a ≤ k)%nat ∧ (b ≤ a)%nat).
    { clear. induction k as [|k IH]; intros g0 a b; simpl.
      - intros H. by apply elem_of_nil in H.
      - intros [H|H]%elem_of_cons.
        + inversion H; subst. split; [lia|].
          assert (0 ≤ lcg g0 `mod` Z.of_nat (S (S k)) < Z.of_nat (S (S k)))
            by (apply Z.mod_pos_bound; lia).
          lia.
        + apply IH in H. lia. }
    apply Hfy in Hin. lia.
  - intros pm. reflexivity.
Defined.

(** ** Reference statements, from the specification's words *)

(** "Same length, same version, identical partition order with identical
    replica sequences": the dimension in which two partitions at the same
    position first disagree. *)
Inductive partition_mismatch (p1 p2 : Partition) : string → Prop :=
  | mismatch_topic :
      Topic p1 ≠ Topic p2 → partition_mismatch p1 p2 "topic order"
  | mismatch_partition :
      Topic p1 = Topic p2 → PartitionN p1 ≠ PartitionN p2 →
      partition_mismatch p1 p2 "partition order"
  | mismatch_replica_list :
      Topic p1 = Topic p2 → PartitionN p1 = PartitionN p2 →
      length (Replicas p1) ≠ length (Replicas p2) →
      partition_mismatch p1 p2 "replica list"
  | mismatch_replica :
      Topic p1 = Topic p2 → PartitionN p1 = PartitionN p2 →
      length (Replicas p1) = length (Replicas p2) →
      Replicas p1 ≠ Replicas p2 →
      partition_mismatch p1 p2 "replica".

(** The dimension in which two maps first disagree; [i] is the first
    position at which the partitions differ. *)
Inductive mismatch (pm pm2 : PartitionMap) : string → Prop :=
  | mismatch_len :
      length (Partitions pm) ≠ length (Partitions pm2) →
      mismatch pm pm2 "partitions len"
  | mismatch_version :
      length (Partitions pm) = length (Partitions pm2) →
      Version pm ≠ Version pm2 →
      mismatch pm pm2 "version"
  | mismatch_at (i : nat) (p1 p2 : Partition) (reason : string) :
      length (Partitions pm) = length (Partitions pm2) →
      Version pm = Version pm2 →
      take i (Partitions pm) = take i (Partitions pm2) →
      Partitions pm !! i = Some p1 →
      Partitions pm2 !! i = Some p2 →
      partition_mismatch p1 p2 reason →
      mismatch pm pm2 reason.

Definition mismatch_reasons : list string :=
  ["partitions len"; "version"; "topic order"; "partition order"; "replica list"; "replica"].

(** "Truncate or pad each replica set to length r, padding with stub ID 0". *)
Definition truncate_or_pad (r : nat) (p : Partition) : Partition :=
  {| Topic := Topic p; PartitionN := PartitionN p;
     Replicas := take r (Replicas p) ++ replicate (r - length (Replicas p)) StubBrokerID |}.

(** "Replace the first occurrence of source in its replica list with dest". *)
Fixpoint replace_first (src dst : Z) (rs : list Z) : list Z :=
  match rs with
  | [] => []
  | r :: rest => if r =? src then dst :: rest else r :: replace_first src dst rest
  end.

(** Every occurrence replaced. *)
Definition replace_all (src dst : Z) (rs : list Z) : list Z :=
  (λ r, if r =? src then dst else r) <$> rs.

Definition relocate_with (f : Z → Z → list Z → list Z) (plan : relocationPlan)
    (partn : Partition) : Partition :=
  match plan !! Topic partn ≫= (.!! PartitionN partn) with
  | Some ids => {| Topic := Topic partn; PartitionN := PartitionN partn;
                   Replicas := f ids.1 ids.2 (Replicas partn) |}
  | None => partn
  end.

(** The canonical order: topic ascending, then partition index ascending. *)
Definition canonical_le (p q : Partition) : Prop :=
  string_lt (Topic p) (Topic q) = true
  ∨ (Topic p = Topic q ∧ PartitionN p ≤ PartitionN q).

(** ** Inputs of the examples *)

(** A replica list that names broker 1001 twice, and a plan that moves the
    partition from 1001 to 1003. *)
Definition pm_dup : PartitionMap :=
  {| Version := 1;
     Partitions := [ {| Topic := "t"; PartitionN := 0; Replicas := [1001; 1002; 1001] |} ] |}.

Definition plan_dup : relocationPlan :=
  relocationPlan_add ∅ {| Topic := "t"; PartitionN := 0; Replicas := [] |} (1001, 1003).

Definition is_kept (bm0 : BrokerMap) (id : Z) : bool :=
  match bm0 !! id with
  | Some b => negb (Replace b)
  | None => false
  end.

(** ** Invariants of a placement *)

(** [bm] has the brokers of [bm0] with the same [replace] flags. *)
Definition same_brokers (bm0 bm : BrokerMap) : Prop :=
  ∀ id, Replace <$> bm !! id = Replace <$> bm0 !! id.

(** [id] is a broker of [bm0] that is not marked for replacement. *)
Definition kept (bm0 : BrokerMap) (id : Z) : Prop :=
  ∃ b, bm0 !! id = Some b ∧ Replace b = false.

Definition replicas_kept (bm0 : BrokerMap) (parts : partitionList) : Prop :=
  Forall (λ p, Forall (kept bm0) (Replicas p)) parts.

Section Invariants.
Context `{RT : GoRuntime}.

Definition bstate_ok (bm0 : BrokerMap) (st : bstate) : Prop :=
  same_brokers bm0 (st_bm st)
  ∧ Forall (λ p, ∃ id, p = Some id ∧ is_candidate bm0 id = true) (st_bl st).

End Invariants.

(** ** The seeds of a rebuild

    Two run times with the same [sort.Sort] and any two generators: the
    generators agree on a set of seeds when, seeded with a seed of the
    set, they give the same shuffles from then on. *)

(** The seeds of [placeByPosition]: [pass*n+1] for the replica at index
    [pass] of the partition at index [n]. *)
Definition position_seeds (ps : partitionList) (s : Z) : Prop :=
  ∃ (n : nat) (partn : Partition) (pass : Z),
    ps !! n = Some partn ∧ 0 ≤ pass < len (Replicas partn)
    ∧ s = wrap64 (pass * Z.of_nat n + 1).

(** The seed of [placeByPartition]. *)
Definition partition_seeds (s : Z) : Prop := s = 1.

(** The seeds of [shuffle]: [n<<2] for the partition at index [n]. *)
Definition shuffle_seeds (ps : partitionList) (s : Z) : Prop :=
  ∃ n : nat, (n < length ps)%nat ∧ s = wrap64 (Z.shiftl (Z.of_nat n) 2).

(** The seeds of [Rebuild], whatever order the receiver is in:
    [pass*n+1] for a count rebuild, with [n] below the number of
    partitions and [pass] below the length of a replica list; 1 and
    [n<<2] for a storage rebuild. *)
Definition rebuild_seeds (strategy : string) (pm : PartitionMap) (s : Z) : Prop :=
  (strategy = "count"%string
   ∧ ∃ (n : nat) (partn : Partition) (pass : Z),
       (n < length (Partitions pm))%nat ∧ partn ∈ Partitions pm
       ∧ 0 ≤ pass < len (Replicas partn) ∧ s = wrap64 (pass * Z.of_nat n + 1))
  ∨ (strategy = "storage"%string
     ∧ (partition_seeds s ∨ shuffle_seeds (Partitions pm) s)).

Section Two_generators.
Variables RT1 RT2 : GoRuntime.

Definition same_sort : Prop :=
  ∀ (A : Type) (less : A → A → bool) (l : list A),
    @sort_Sort RT1 A less l = @sort_Sort RT2 A less l.

(** [R] relates the states in which the two generators give the same
    shuffles; a seeding with a seed of [seeds] puts them in such states. *)
Record same_shuffles (seeds : Z → Prop) (R : @rng RT1 → @rng RT2 → Prop) : Prop := {
  ss_seed : ∀ s, seeds s → R (@rand_Seed RT1 s) (@rand_Seed RT2 s);
  ss_shuffle : ∀ g1 g2 n, R g1 g2 →
    (@rand_Shuffle RT1 g1 n).1 = (@rand_Shuffle RT2 g2 n).1
    ∧ R (@rand_Shuffle RT1 g1 n).2 (@rand_Shuffle RT2 g2 n).2
}.

Definition agree_on (seeds : Z → Prop) : Prop := ∃ R, same_shuffles seeds R.

(** Equal but for the state of the generator. *)
Definition bstate_sim (s1 : @bstate RT1) (s2 : @bstate RT2) : Prop :=
  st_bm s1 = st_bm s2 ∧ st_bl s1 = st_bl s2.

Definition posState_sim (s1 : @posState RT1) (s2 : @posState RT2) : Prop :=
  ps_parts s1 = ps_parts s2 ∧ ps_errs s1 = ps_errs s2
  ∧ bstate_sim (ps_st s1) (ps_st s2) ∧ ps_skipped s1 = ps_skipped s2.

Definition partState_sim (s1 : @partState RT1) (s2 : @partState RT2) : Prop :=
  pt_replicas s1 = pt_replicas s2 ∧ pt_errs s1 = pt_errs s2
  ∧ bstate_sim (pt_st s1) (pt_st s2).

Definition placed_sim (r1 : PartitionMap * list string * @bstate RT1)
    (r2 : PartitionMap * list string * @bstate RT2) : Prop :=
  r1.1 = r2.1 ∧ bstate_sim r1.2 r2.2.

(** What [Rebuild] hands back and leaves behind, the generator apart. *)
Definition rebuilt_sim (r1 : @rebuilt RT1) (r2 : @rebuilt RT2) : Prop :=
  newMap r1 = newMap r2 ∧ errs r1 = errs r2
  ∧ pm_after r1 = pm_after r2 ∧ bm_after r1 = bm_after r2.

End Two_generators.

(** A second run time for the examples: the generator of [ref_runtime]
    behind a gate. Seeded with a seed that [allowed] refuses, or never
    seeded, it shuffles nothing. *)
Definition gated_runtime (allowed : Z → bool) : GoRuntime.
Proof.
  refine {| sort_Sort := @sort_Sort ref_runtime;
            sort_Sort_Permutation := @sort_Sort_Permutation ref_runtime;
            sort_Sort_Sorted := @sort_Sort_Sorted ref_runtime;
            rng := bool * Z;
            rand_Seed := λ seed, (allowed seed, seed);
            rand_Shuffle := λ g n,
              if g.1 then ((fisher_yates (n - 1) g.2).1, (true, (fisher_yates (n - 1) g.2).2))
              else ([], g);
            json_Unmarshal := @json_Unmarshal ref_runtime;
            json_Unmarshal_null := @json_Unmarshal_null ref_runtime |}.
  intros [[|] g] n i j; simpl.
  - apply (@rand_Shuffle_range ref_runtime g n i j).
  - intros H. by apply elem_of_nil in H.
Defined.


(** The broker map of the repository's tests ([newMockBrokerMap]). *)
Definition mock_broker (loc : string) (used free : Z) (replace : bool) : Broker :=
  {| Locality := loc; Tags := ∅; Used := used; StorageFree := float_of_Z free;
     Replace := replace; New := false; Missing := false; OldMissing := false |}.

Definition bm_mock : BrokerMap :=
  list_to_map [ (0, mock_broker "" 0 0 true);
                (1001, mock_broker "a" 3 100 false);
                (1002, mock_broker "b" 3 200 false);
                (1003, mock_broker "c" 2 300 false);
                (1004, mock_broker "a" 2 400 false) ].

(** The same with broker 1003 marked for replacement and a broker 1005 in
    a locality of its own. *)
Definition bm_replace_1003 : BrokerMap :=
  <[1005 := mock_broker "d" 0 500 false]>
    (<[1003 := mock_broker "c" 2 300 true]> bm_mock).

Definition pm_t : PartitionMap :=
  {| Version := 1;
     Partitions := [ {| Topic := "t"; PartitionN := 0; Replicas := [1001; 1002; 1003] |};
                     {| Topic := "t"; PartitionN := 1; Replicas := [1002; 1003; 1004] |} ] |}.

(** The move of partition t/0 from broker 1003 to broker 1005. *)
Definition plan_move_1003 : relocationPlan :=
  relocationPlan_add ∅ {| Topic := "t"; PartitionN := 0; Replicas := [] |} (1003, 1005).

Definition pmm_t : PartitionMetaMap :=
  {[ "t"%string := {[ 0 := {| Size_ := float_of_Z 30 |}; 1 := {| Size_ := float_of_Z 35 |} ]} ]}.

(** A replica set padded with the stub, and a broker map without the
    stub. *)
Definition pm_padded : PartitionMap :=
  {| Version := 1;
     Partitions := [ {| Topic := "t"; PartitionN := 0; Replicas := [1001; 0] |} ] |}.

Definition bm_no_stub : BrokerMap := delete 0 bm_mock.

(** Two partitions with one replica and one with four. *)
Definition pm_uneven : PartitionMap :=
  {| Version := 1;
     Partitions := [ {| Topic := "t"; PartitionN := 0; Replicas := [1001] |};
                     {| Topic := "t"; PartitionN := 1; Replicas := [1002] |};
                     {| Topic := "t"; PartitionN := 2; Replicas := [1001; 1002; 1003; 1004] |} ] |}.

(** [bm] has the brokers of [bm0] with the same free storage. *)
Definition same_free (bm0 bm : BrokerMap) : Prop :=
  ∀ id, StorageFree <$> bm !! id = StorageFree <$> bm0 !! id.

Section Rebalance_invariants.
Context `{RT : GoRuntime}.

(** What a committed move leaves, relative to the state [bm0] of the broker
    map at the start of the call and to the plan [plan0] before the move. *)
Definition committed (bm0 : BrokerMap) (fl : rebalanceFlags) (src : Z) (pmm : PartitionMetaMap)
    (meanStorageFree : float64) (plan0 : relocationPlan) (p : Partition) (dest : Z)
    (s' : planState) : Prop :=
  let pSize := (Size pmm p).1 in
  pl_plan s' = relocationPlan_add plan0 p (src, dest)
  ∧ is_Some (bm0 !! dest)
  ∧ (localityScoped fl = true → dest ≠ src)
  ∧ free_of (pl_brokers s') dest = fsub (free_of bm0 dest) pSize
  ∧ flt (free_of (pl_brokers s') dest)
        (fmul meanStorageFree (fsub fone (tolerance fl))) = false
  ∧ (dest ≠ src →
       free_of (pl_brokers s') src = fadd (free_of bm0 src) pSize
       ∧ fgt (free_of (pl_brokers s') src)
             (fmul meanStorageFree (fadd fone (tolerance fl))) = false)
  ∧ ∀ id, id ≠ src → id ≠ dest → free_of (pl_brokers s') id = free_of bm0 id.

End Rebalance_invariants.

(** Two brokers of one locality, 100 and 400 bytes free (mean 250), and
    partition t/0 on broker 1001; a tolerance of one half. *)
Definition bm_pair : BrokerMap :=
  list_to_map [ (1001, mock_broker "a" 1 100 false);
                (1002, mock_broker "a" 0 400 false) ].

Definition p_t0 : Partition := {| Topic := "t"; PartitionN := 0; Replicas := [1001] |}.

Definition pmm_size (size : Z) : PartitionMetaMap :=
  {[ "t"%string := {[ 0 := {| Size_ := float_of_Z size |} ]} ]}.

Definition flags_scoped : rebalanceFlags :=
  {| verbose := false; tolerance := float_of_scaled 1 (-1); localityScoped := true |}.

Definition params_pair (size : Z) : planRelocationsForBrokerParams :=
  {| sourceID := 1001; relos := ∅; mappings := {[ 1001 := [p_t0] ]};
     brokers := bm_pair; partitionMeta := pmm_size size; plan := ∅;
     pass := 0; topPartitionsLimit := 5 |}.

(** One partition on a broker marked for replacement, and four brokers
    with no partition, each in a locality of its own: the ranking by
    count is decided by the shuffle. The only seed of a count rebuild of
    this map is 1. *)
Definition bm_ties : BrokerMap :=
  list_to_map [ (1001, mock_broker "a" 1 100 true);
                (1002, mock_broker "b" 0 100 false);
                (1003, mock_broker "c" 0 100 false);
                (1004, mock_broker "d" 0 100 false);
                (1005, mock_broker "e" 0 100 false) ].

Definition pm_single : PartitionMap :=
  {| Version := 1;
     Partitions := [ {| Topic := "t"; PartitionN := 0; Replicas := [1001] |} ] |}.

Definition only_seed_1 (s : Z) : bool := s =? 1.

(** The replica lists of the returned map and the errors. *)
Definition rebuilt_lists `{RT : GoRuntime} (r : rebuilt) : list (list Z) * list string :=
  (Replicas <$> from_option Partitions [] (newMap r), errs r).

(** ** More of the partition map (kafkazk) *)

(** The builtin [copy(dst, src)]: as many elements as the shorter of the
    two has. *)
Definition copy_ints (dst src : list Z) : list Z :=
  take (length dst) src ++ drop (length src) dst.

(** [Copy]: the body of the loop, and the method. *)
Definition copyPartition (p : Partition) : Partition :=
  {| Topic := Topic p; PartitionN := PartitionN p;
     Replicas := copy_ints (make_ints (len (Replicas p))) (Replicas p) |}.

Definition Copy (pm : PartitionMap) : PartitionMap :=
  {| Version := Version NewPartitionMap;
     Partitions := Partitions NewPartitionMap ++ (copyPartition <$> Partitions pm) |}.

(** [Strip]: the body of the loop, and the method. *)
Definition stripPartition (p : Partition) : Partition :=
  {| Topic := Topic p; PartitionN := PartitionN p;
     Replicas := make_ints (len (Replicas p)) |}.

Definition Strip (pm : PartitionMap) : PartitionMap :=
  {| Version := Version NewPartitionMap;
     Partitions := Partitions NewPartitionMap ++ (stripPartition <$> Partitions pm) |}.

(** [BrokerUseStats], as [UseStats] uses it: two counters. *)
Record BrokerUseStats : Type := mkBrokerUseStats {
  Leader : Z;
  Follower : Z
}.

(** The body of [for i, b := range p.Replicas] in [UseStats]. *)
Definition useStatsAt (i : nat) (b : Z) (stats : gmap Z BrokerUseStats)
  : gmap Z BrokerUseStats :=
  let stats1 :=
    match stats !! b with
    | Some _ => stats
    | None => <[b := {| Leader := 0; Follower := 0 |}]> stats
    end in
  alter (λ s, if bool_decide (i = 0%nat)
              then {| Leader := wrap64 (Leader s + 1); Follower := Follower s |}
              else {| Leader := Leader s; Follower := wrap64 (Follower s + 1) |})
        b stats1.

Fixpoint useStatsFrom (i : nat) (rs : list Z) (stats : gmap Z BrokerUseStats)
  : gmap Z BrokerUseStats :=
  match rs with
  | [] => stats
  | b :: rest => useStatsFrom (S i) rest (useStatsAt i b stats)
  end.

Definition UseStats (pm : PartitionMap) : gmap Z BrokerUseStats :=
  foldl (λ stats p, useStatsFrom 0 (Replicas p) stats) ∅ (Partitions pm).

(** ** Slice comparison (registry server) *)

(** [intsEqual] and [stringsEqual] are the same text on [[]uint32] (its
    values are only compared, and are [Z] here) and [[]string]: the loop
    [for i := range s1], from index [i] on. *)
Fixpoint slicesEqualFrom {A} `{EqDecision A} (i : nat) (rest : list A) (s2 : list A)
  : outcome bool :=
  match rest with
  | [] => Ret true
  | x :: rest' =>
      match s2 !! i with
      | None => Panic index_range
      | Some y =>
          if bool_decide (x ≠ y) then Ret false
          else slicesEqualFrom (S i) rest' s2
      end
  end.

Definition intsEqual (s1 s2 : list Z) : outcome bool :=
  if bool_decide (len s1 ≠ len s2) then Ret false
  else slicesEqualFrom 0 s1 s2.

Definition stringsEqual (s1 s2 : list string) : outcome bool :=
  if bool_decide (len s1 ≠ len s2) then Ret false
  else slicesEqualFrom 0 s1 s2.

(** ** More of the rebalance steps (topicmappr) *)

(** [absDistance]: [math.Abs(t-x) / t]. *)
Definition absDistance (x t : float64) : float64 :=
  fdiv (SFabs (fsub t x)) t.

(** The counters of a broker in a [UseStats] result, zero when it has no
    entry. *)
Definition lead_of (stats : gmap Z BrokerUseStats) (b : Z) : Z :=
  from_option Leader 0 (stats !! b).
Definition follow_of (stats : gmap Z BrokerUseStats) (b : Z) : Z :=
  from_option Follower 0 (stats !! b).

(** The partitions led by broker [b] (it is at index 0), the replica slots
    at which it follows (any later index), and the number of slots. *)
Definition leader_count (ps : partitionList) (b : Z) : nat :=
  length (List.filter (λ p, bool_decide (head (Replicas p) = Some b)) ps).
Definition follower_count (ps : partitionList) (b : Z) : nat :=
  sum_list ((λ p, count_occ Z.eq_dec (tail (Replicas p)) b) <$> ps).
Definition replica_slots (ps : partitionList) : nat :=
  sum_list (length ∘ Replicas <$> ps).
Definition stats_below (k : Z) (stats : gmap Z BrokerUseStats) : Prop :=
  ∀ b, 0 ≤ lead_of stats b ≤ k ∧ 0 ≤ follow_of stats b ≤ k.

(** The key of a partition: topic and partition index. *)
Definition partition_key (p : Partition) : string * Z := (Topic p, PartitionN p).

(** The replica lists with no entry. *)
Definition empty_sets (ps : partitionList) : list Partition :=
  List.filter (λ partn, len (Replicas partn) =? 0) ps.

(** ** Topic metadata (topicmappr) and the ZooKeeper handler *)

(** Package [regexp], by contract: compiled patterns, [MatchString],
    [MustCompile] (no pattern for a text that does not compile: the call
    panics) and the text [%s] prints for a slice of patterns. *)
Class GoRegexp : Type := {
  Regexp : Type;
  MatchString : Regexp → string → bool;
  MustCompile : string → option Regexp;
  fmt_patterns : list (option Regexp) → string
}.

(** [for t := range removed]: every key once, in an order the language
    leaves open. *)
Class GoMapRange : Type := {
  map_range : gset string → list string;
  map_range_Permutation : ∀ X, map_range X ≡ₚ elements X
}.

Definition regexp_compile : string := "regexp: Compile: error parsing regexp".

(** The part of [kafkazk.Handler] the functions below call; an error is
    [Some] text. *)
Record Handler `{RX : GoRegexp} : Type := mkHandler {
  GetTopics : list (option Regexp) → list string * option string;
  GetPartitionMap : string → option PartitionMap * option string;
  GetPendingDeletion : list string * option string
}.

Section Metadata.
Context `{RT : GoRuntime} `{RX : GoRegexp} `{MR : GoMapRange}.

(** [newPL] and [removed] of [removeTopics]. *)
Record removal : Type := mkRemoval {
  rm_newPL : partitionList;
  rm_removed : gset string
}.

(** [for i, re := range r], from index [i] on, for the partition [p];
    [lenr] is [len(r)]. A nil pattern panics when it is asked. *)
Fixpoint matchFrom (lenr i : Z) (rest : list (option Regexp)) (p : Partition)
    (s : removal) : outcome removal :=
  match rest with
  | [] => Ret s
  | None :: _ => Panic nil_deref
  | Some re :: rest' =>
      if MatchString re (Topic p) then
        Ret {| rm_newPL := rm_newPL s; rm_removed := {[ Topic p ]} ∪ rm_removed s |}
      else
        let s' := if i =? lenr - 1
                  then {| rm_newPL := rm_newPL s ++ [p]; rm_removed := rm_removed s |}
                  else s in
        matchFrom lenr (i + 1) rest' p s'
  end.

(** [for _, p := range pm.Partitions] *)
Fixpoint removeLoop (r : list (option Regexp)) (ps : partitionList) (s : removal)
  : outcome removal :=
  match ps with
  | [] => Ret s
  | p :: ps' =>
      s' ← matchFrom (len r) 0 r p s;
      removeLoop r ps' s'
  end.

(** [removeTopics]: the names returned and the map as the call leaves
    it. *)
Definition removeTopics (pm : PartitionMap) (r : list (option Regexp))
  : outcome (list string * PartitionMap) :=
  if len r =? 0 then Ret ([], pm)
  else
    s ← removeLoop r (Partitions pm) {| rm_newPL := []; rm_removed := ∅ |};
    Ret (map_range (rm_removed s),
         {| Version := Version pm; Partitions := rm_newPL s |}).

(** [for _, topic := range pd { re = append(re, regexp.MustCompile(...)) }] *)
Fixpoint compilePending (pd : list string) (re : list (option Regexp))
  : outcome (list (option Regexp)) :=
  match pd with
  | [] => Ret re
  | topic :: pd' =>
      match MustCompile ("^" +:+ topic +:+ "$") with
      | None => Panic regexp_compile
      | Some r => compilePending pd' (re ++ [Some r])
      end
  end.

(** [stripPendingDeletes]: an error of the handler is printed and the
    call goes on with the list it got. *)
Definition stripPendingDeletes (pm : PartitionMap) (zk : Handler)
  : outcome (list string * PartitionMap) :=
  let pd := (GetPendingDeletion zk).1 in
  if len pd =? 0 then Ret ([], pm)
  else
    re ← compilePending pd [];
    removeTopics pm re.

(** [for _, t := range topicsToRebuild] of [PartitionMapFromZK]: the
    merged partitions, or the error of the first topic that has one. *)
Fixpoint mergeTopics (zk : Handler) (topics : list string) (acc : partitionList)
  : outcome (partitionList + string) :=
  match topics with
  | [] => Ret (inl acc)
  | t :: rest =>
      match GetPartitionMap zk t with
      | (_, Some err) => Ret (inr err)
      | (None, None) => Panic nil_deref
      | (Some pmap, None) => mergeTopics zk rest (acc ++ Partitions pmap)
      end
  end.

Definition PartitionMapFromZK (t : list (option Regexp)) (zk : Handler)
  : outcome (option PartitionMap * option string) :=
  match GetTopics zk t with
  | (_, Some err) => Ret (None, Some err)
  | (topicsToRebuild, None) =>
      if len topicsToRebuild =? 0 then
        Ret (None, Some ("No topics found matching: " +:+ fmt_patterns t))
      else
        r ← mergeTopics zk topicsToRebuild (Partitions NewPartitionMap);
        match r with
        | inr err => Ret (None, Some err)
        | inl ps =>
            Ret (Some {| Version := Version NewPartitionMap;
                         Partitions := sort_Sort partitionList_Less ps |}, None)
        end
  end.

End Metadata.

(** Some pattern of [res] matches the topic of [p]. *)
Definition matches_any `{RX : GoRegexp} (res : list Regexp) (p : Partition) : bool :=
  existsb (λ re, MatchString re (Topic p)) res.

(** Patterns that are an anchored literal, [^name$], and map ranges in
    the order of [elements]: enough to run the model. *)
Definition unanchor (s : string) : string :=
  match s with
  | String _ rest => substring 0 (String.length rest - 1) rest
  | EmptyString => EmptyString
  end.

Definition literal_regexp : GoRegexp :=
  {| Regexp := string;
     MatchString := λ re s, bool_decide (s = re);
     MustCompile := λ text, Some (unanchor text);
     fmt_patterns := λ _, "[]"%string |}.

Definition elements_range : GoMapRange :=
  {| map_range := elements; map_range_Permutation := λ X, reflexivity (elements X) |}.

Definition pm_pending : PartitionMap :=
  {| Version := 1;
     Partitions := [ {| Topic := "a"; PartitionN := 0; Replicas := [1001] |};
                     {| Topic := "b"; PartitionN := 0; Replicas := [1002] |};
                     {| Topic := "a"; PartitionN := 1; Replicas := [1003] |} ] |}.

Definition zk_sample : @Handler literal_regexp :=
  {| GetTopics := λ _, (["b"; "a"]%string, None);
     GetPartitionMap := λ t,
       (Some {| Version := 1;
                Partitions := List.filter (λ p, bool_decide (Topic p = t))
                                          (Partitions pm_pending) |}, None);
     GetPendingDeletion := (["a"%string], None) |}.

(** The partition [p] with the first [k] of its replicas. *)
Definition firstReplicas (k : nat) (p : Partition) : Partition :=
  {| Topic := Topic p; PartitionN := PartitionN p; Replicas := take k (Replicas p) |}.

(** [newMap.Partitions] of [placeByPosition] in pass [k], when the
    partitions [pre] have been visited and [rest] are to come. *)
Definition placedSoFar (k : nat) (pre rest : partitionList) : partitionList :=
  (firstReplicas (S k) <$> pre)
  ++ (match k with O => [] | S _ => firstReplicas k <$> rest end).

(** [q] is [p] with at most [j] replicas, and no more than [p] has. *)
Definition shrunk (j : nat) (p q : Partition) : Prop :=
  partition_key q = partition_key p
  ∧ (length (Replicas q) ≤ j)%nat ∧ (length (Replicas q) ≤ length (Replicas p))%nat.

(** [q] has the topic and index of [p] and no more replicas. *)
Definition not_grown (p q : Partition) : Prop :=
  Topic q = Topic p ∧ PartitionN q = PartitionN p
  ∧ (length (Replicas q) ≤ length (Replicas p))%nat.

(** * Properties *)

(** ** The outcome monad *)

Lemma bind_Ret {A B} (m : outcome A) (f : A → outcome B) (b : B) :
  m ≫= f = Ret b → ∃ a, m = Ret a ∧ f a = Ret b.
Proof. destruct m as [a| |]; simpl; [eauto|done..]. Qed.

Lemma bind_Ret_l {A B} (a : A) (f : A → outcome B) : Ret a ≫= f = f a.
Proof. done. Qed.

Lemma bind_Panic {A B} (m : outcome A) (f : A → outcome B) :
  panics m → panics (m ≫= f).
Proof. intros [msg ->]. by exists msg. Qed.

Lemma observe_Some {A B} (f : A → B) (m : outcome A) (b : B) :
  observe f m = Some b → ∃ a, m = Ret a ∧ f a = b.
Proof. destruct m as [a| |]; simpl; [|done..]. intros [= <-]. eauto. Qed.

Ltac inv_bind H :=
  let a := fresh "a" in
  let Ha := fresh "Ha" in
  apply bind_Ret in H as (a & Ha & H).

(** ** SetReplication *)

Lemma len_nonneg {A} (l : list A) : 0 ≤ len l.
Proof. unfold len. lia. Qed.

Lemma setReplication1_pos (r : Z) (p : Partition) :
  0 < r → setReplication1 r p = Ret (truncate_or_pad (Z.to_nat r) p).
Proof.
  intros Hr. unfold setReplication1, truncate_or_pad, slice_to, make_ints, len, StubBrokerID.
  destruct p as [t n rs]; simpl.
  destruct (Z.gtb_spec (Z.of_nat (length rs)) r) as [Hgt|Hle].
  - destruct (Z.ltb_spec r 0) as [?|_]; [lia|]. simpl.
    replace (Z.to_nat r - length rs)%nat with 0%nat by lia.
    by rewrite app_nil_r.
  - destruct (Z.ltb_spec (Z.of_nat (length rs)) r) as [Hlt|Hge].
    + rewrite take_ge by lia.
      by replace (Z.to_nat (r - Z.of_nat (length rs))) with (Z.to_nat r - length rs)%nat by lia.
    + rewrite take_ge by lia.
      replace (Z.to_nat r - length rs)%nat with 0%nat by lia.
      by rewrite app_nil_r.
Qed.

Lemma setReplicationLoop_pos (r : Z) (ps : partitionList) :
  0 < r → setReplicationLoop r ps = Ret (truncate_or_pad (Z.to_nat r) <$> ps).
Proof.
  intros Hr. induction ps as [|p ps IH]; simpl; [done|].
  by rewrite setReplication1_pos, bind_Ret_l, IH.
Qed.

Lemma truncate_or_pad_length (r : nat) (p : Partition) :
  length (Replicas (truncate_or_pad r p)) = r.
Proof. simpl. rewrite length_app, length_take, length_replicate. lia. Qed.

(** C7: [SetReplication(0)] returns the map as it is; for [r > 0] the call
    returns, every replica set is the old one cut at [r] and padded with
    the stub ID 0 up to [r], so has length exactly [r], and versions,
    topics, partition indices and the order of partitions are as before. *)
Theorem SetReplication_spec (pm : PartitionMap) (r : Z) :
  SetReplication pm 0 = Ret pm
  ∧ (0 < r →
     ∃ pm', SetReplication pm r = Ret pm'
       ∧ Version pm' = Version pm
       ∧ Partitions pm' = truncate_or_pad (Z.to_nat r) <$> Partitions pm
       ∧ Topic <$> Partitions pm' = Topic <$> Partitions pm
       ∧ PartitionN <$> Partitions pm' = PartitionN <$> Partitions pm
       ∧ Forall (λ p, len (Replicas p) = r) (Partitions pm')).
Proof.
  split; [done|]. intros Hr. unfold SetReplication.
  destruct (Z.eqb_spec r 0) as [?|_]; [lia|].
  rewrite setReplicationLoop_pos by done. simpl.
  eexists. split; [done|]. simpl. split_and!; try done.
  - rewrite <- list_fmap_compose. by apply list_fmap_ext.
  - rewrite <- list_fmap_compose. by apply list_fmap_ext.
  - apply Forall_fmap, Forall_true. intros p. unfold compose, len.
    rewrite truncate_or_pad_length. lia.
Qed.

Lemma SetReplication_spec_witness :
  ∃ pm', SetReplication pm_two_topics 3 = Ret pm'
    ∧ Version pm' = Version pm_two_topics
    ∧ Partitions pm' = truncate_or_pad (Z.to_nat 3) <$> Partitions pm_two_topics
    ∧ Topic <$> Partitions pm' = Topic <$> Partitions pm_two_topics
    ∧ PartitionN <$> Partitions pm' = PartitionN <$> Partitions pm_two_topics
    ∧ Forall (λ p, len (Replicas p) = 3) (Partitions pm').
Proof. apply (proj2 (SetReplication_spec pm_two_topics 3)). lia. Defined.

(** ** equal *)

Lemma equalReplicasFrom_spec (rs : list Z) (n : nat) (rs2 : list Z) :
  (n + length rs = length rs2)%nat →
  equalReplicasFrom n rs rs2 = Ret (bool_decide (rs = drop n rs2)).
Proof.
  revert n. induction rs as [|r1 rest IH]; intros n Hlen; simpl in *.
  - rewrite drop_ge by lia. by rewrite bool_decide_eq_true_2.
  - destruct (lookup_lt_is_Some_2 rs2 n) as [r2 Hr2]; [lia|].
    rewrite Hr2, (drop_S _ _ _ Hr2). case_bool_decide as Hne.
    + rewrite bool_decide_eq_false_2; [done|]. intros [= ? _]. done.
    + subst r2. rewrite IH by lia.
      f_equal. apply bool_decide_ext. split; [by intros ->|by intros [= ->]].
Qed.

Lemma partition_mismatch_neq (p1 p2 : Partition) (reason : string) :
  partition_mismatch p1 p2 reason → p1 ≠ p2.
Proof. intros H ->. by destruct H. Qed.

Lemma partition_mismatch_reason (p1 p2 : Partition) (reason : string) :
  partition_mismatch p1 p2 reason → reason ∈ mismatch_reasons.
Proof. unfold mismatch_reasons. destruct 1; set_solver. Qed.

Lemma equalPartitionsFrom_spec (ps : partitionList) (i : nat) (ps2 : partitionList) :
  (i + length ps = length ps2)%nat →
  (ps = drop i ps2 ∧ equalPartitionsFrom i ps ps2 = Ret (true, None))
  ∨ (∃ j p1 p2 reason,
        take j ps = take j (drop i ps2)
        ∧ ps !! j = Some p1 ∧ ps2 !! (i + j)%nat = Some p2
        ∧ partition_mismatch p1 p2 reason
        ∧ equalPartitionsFrom i ps ps2 = Ret (false, Some reason)).
Proof.
  revert i. induction ps as [|p1 rest IH]; intros i Hlen; simpl in *.
  - left. by rewrite drop_ge by lia.
  - destruct (lookup_lt_is_Some_2 ps2 i) as [p2 Hp2]; [lia|].
    rewrite Hp2, (drop_S _ _ _ Hp2).
    assert (Hhere : ∀ reason, partition_mismatch p1 p2 reason →
      ∃ j q1 q2 reason',
        take j (p1 :: rest) = take j (p2 :: drop (S i) ps2)
        ∧ (p1 :: rest) !! j = Some q1 ∧ ps2 !! (i + j)%nat = Some q2
        ∧ partition_mismatch q1 q2 reason'
        ∧ Ret (false, Some reason) = Ret (false, Some reason')).
    { intros reason Hmm. exists 0%nat, p1, p2, reason.
      rewrite Nat.add_0_r. by split_and!. }
    case_bool_decide as Ht.
    { right. apply Hhere. by constructor. }
    case_bool_decide as Hn.
    { right. apply Hhere. by constructor. }
    case_bool_decide as Hl.
    { right. apply Hhere. constructor; [done..|]. unfold len in Hl. lia. }
    unfold len in Hl. apply Nat2Z.inj in Hl.
    rewrite equalReplicasFrom_spec by (simpl; lia). rewrite drop_0. simpl.
    case_bool_decide as Hr.
    + assert (p1 = p2) as <-.
      { destruct p1, p2; simpl in *; congruence. }
      destruct (IH (S i)) as [[-> Heq]|(j & q1 & q2 & reason & Htk & Hq1 & Hq2 & Hmm & Heq)];
        [lia|by left|].
      right. exists (S j), q1, q2, reason. simpl.
      rewrite Htk, <- Nat.add_succ_comm. by split_and!.
    + right. apply Hhere. by constructor.
Qed.

(** C8: [equal] always returns; it returns [(true, nil)] exactly when the
    two maps are the same (same number of partitions, same version, the
    same partitions in the same order with the same replica sequences), and
    otherwise [(false, reason)] where [reason] names the first dimension of
    disagreement and is one of the six mismatch reasons. *)
Theorem equal_spec (pm pm2 : PartitionMap) :
  (pm = pm2 ∧ equal pm pm2 = Ret (true, None))
  ∨ (pm ≠ pm2
     ∧ ∃ reason, equal pm pm2 = Ret (false, Some reason)
         ∧ mismatch pm pm2 reason
         ∧ reason ∈ mismatch_reasons).
Proof.
  unfold equal. case_bool_decide as Hlen.
  { right. split; [by intros ->|]. eexists. split; [done|].
    split; [|unfold mismatch_reasons; set_solver].
    constructor. unfold len in Hlen. lia. }
  unfold len in Hlen. apply Nat2Z.inj in Hlen.
  case_bool_decide as Hv.
  { right. split; [by intros ->|]. eexists. split; [done|].
    split; [|unfold mismatch_reasons; set_solver]. by constructor. }
  destruct (equalPartitionsFrom_spec (Partitions pm) 0 (Partitions pm2))
    as [[Heq Hres]|(j & p1 & p2 & reason & Htk & Hp1 & Hp2 & Hmm & Hres)]; [done|..].
  - left. split; [|done]. rewrite drop_0 in Heq. destruct pm, pm2; simpl in *; congruence.
  - right. rewrite drop_0 in Htk. simpl in Hp2. split.
    + intros ->. apply partition_mismatch_neq in Hmm. congruence.
    + exists reason. split; [done|]. split; [|by eapply partition_mismatch_reason].
      by eapply mismatch_at.
Qed.

(** ** applyRelocationPlan *)

Lemma replaceFrom_spec (k i : nat) (p : Z * Z) (rs : list Z) :
  (i + k = length rs)%nat →
  replaceFrom k i p rs = take i rs ++ replace_all p.1 p.2 (drop i rs).
Proof.
  revert i rs. induction k as [|k IH]; intros i rs Hlen; simpl.
  - rewrite drop_ge, take_ge by lia. by rewrite app_nil_r.
  - destruct (lookup_lt_is_Some_2 rs i) as [r Hr]; [lia|].
    rewrite Hr, (drop_S _ _ _ Hr). unfold replace_all at 1. rewrite fmap_cons.
    fold (replace_all p.1 p.2 (drop (S i) rs)).
    destruct (Z.eqb_spec r p.1) as [->|Hne].
    + rewrite IH by (rewrite length_insert; lia).
      rewrite drop_insert_lt by lia.
      rewrite (take_S_r (<[i:=p.2]> rs) i p.2)
        by (apply list_lookup_insert_eq; apply lookup_lt_Some in Hr; lia).
      rewrite take_insert_ge by lia. by rewrite <- app_assoc.
    + rewrite IH by lia. rewrite (take_S_r _ _ _ Hr). by rewrite <- app_assoc.
Qed.

Lemma applyTo_replace_all (plan : relocationPlan) (partn : Partition) :
  applyTo plan partn = relocate_with replace_all plan partn.
Proof.
  unfold applyTo, relocate_with, isPlanned.
  destruct (plan !! Topic partn) as [t|]; simpl; [|done].
  destruct (t !! PartitionN partn) as [ids|]; simpl; [|done].
  rewrite replaceFrom_spec by done. by rewrite take_0, drop_0.
Qed.

Lemma replace_all_absent (src dst : Z) (rs : list Z) :
  src ∉ rs → replace_all src dst rs = rs.
Proof.
  induction rs as [|r rs IH]; [done|]. intros Hnin.
  apply not_elem_of_cons in Hnin as [Hne Hnin]. unfold replace_all in *.
  rewrite fmap_cons, IH by done. destruct (Z.eqb_spec r src); [done|done].
Qed.

Lemma replace_all_first_NoDup (src dst : Z) (rs : list Z) :
  NoDup rs → replace_all src dst rs = replace_first src dst rs.
Proof.
  induction 1 as [|r rs Hnin Hnd IH]; [done|].
  unfold replace_all in *. rewrite fmap_cons. simpl.
  destruct (Z.eqb_spec r src) as [->|Hne].
  - f_equal. by apply replace_all_absent.
  - by rewrite IH.
Qed.

Lemma replace_first_split (src dst : Z) (pre post : list Z) :
  src ∉ pre → replace_first src dst (pre ++ src :: post) = pre ++ dst :: post.
Proof.
  induction pre as [|r pre IH]; intros Hnin; simpl.
  - by rewrite Z.eqb_refl.
  - apply not_elem_of_cons in Hnin as [Hne Hnin].
    destruct (Z.eqb_spec r src) as [?|_]; [congruence|]. by rewrite IH.
Qed.

Lemma replace_first_absent (src dst : Z) (rs : list Z) :
  src ∉ rs → replace_first src dst rs = rs.
Proof.
  induction rs as [|r rs IH]; intros Hnin; simpl; [done|].
  apply not_elem_of_cons in Hnin as [Hne Hnin].
  destruct (Z.eqb_spec r src) as [?|_]; [congruence|]. by rewrite IH.
Qed.

(** C4: [applyRelocationPlan], before the optional leader optimisation,
    keeps the version and the number of partitions. For a partition
    whose replica list names no broker twice (the invariant of a
    partition) and for which the plan records [(source, dest)], the
    partition at the same position of the final map has the same topic
    and index and the replica list with the first occurrence of [source]
    replaced by [dest]: the entries before and after it are as they were,
    and a list without [source] is unchanged. A partition with no planned
    move is unchanged. *)
Theorem applyRelocationPlan_first_occurrence
    (SimpleLeaderOptimization : PartitionMap → PartitionMap)
    (pm : PartitionMap) (plan : relocationPlan) (i : nat) (partn : Partition) :
  Partitions pm !! i = Some partn →
  NoDup (Replicas partn) →
  let pm' := applyRelocationPlan SimpleLeaderOptimization false pm plan in
  Version pm' = Version pm
  ∧ length (Partitions pm') = length (Partitions pm)
  ∧ ∃ partn', Partitions pm' !! i = Some partn'
      ∧ Topic partn' = Topic partn ∧ PartitionN partn' = PartitionN partn
      ∧ match isPlanned plan partn with
        | (true, (src, dst)) =>
            Replicas partn' = replace_first src dst (Replicas partn)
            ∧ (∀ pre post, Replicas partn = pre ++ src :: post →
                 Replicas partn' = pre ++ dst :: post)
            ∧ (src ∉ Replicas partn → Replicas partn' = Replicas partn)
        | (false, _) => partn' = partn
        end.
Proof.
  intros Hi Hnd pm'. subst pm'. unfold applyRelocationPlan. cbn [Version Partitions].
  split; [done|]. split; [by rewrite length_fmap|].
  rewrite list_lookup_fmap, Hi. simpl. eexists. split; [done|].
  assert (Hkey : Topic (applyTo plan partn) = Topic partn
                 ∧ PartitionN (applyTo plan partn) = PartitionN partn).
  { unfold applyTo. by destruct (isPlanned plan partn).1. }
  destruct Hkey as [Ht Hn]. split; [done|]. split; [done|].
  unfold applyTo. destruct (isPlanned plan partn) as [[|] [src dst]] eqn:Hpl; simpl; [|done].
  rewrite replaceFrom_spec by done. rewrite take_0, drop_0. simpl.
  rewrite replace_all_first_NoDup by done. split_and!.
  - done.
  - intros pre post Hrs. rewrite Hrs. apply replace_first_split.
    rewrite Hrs in Hnd. apply NoDup_app in Hnd as (_ & Hdisj & _).
    intros Hin. apply (Hdisj src Hin). by left.
  - apply replace_first_absent.
Qed.

Lemma applyRelocationPlan_first_occurrence_witness :
  Replicas <$> Partitions (applyRelocationPlan id false pm_t plan_move_1003)
  = [[1001; 1002; 1005]; [1002; 1003; 1004]]
  ∧ ∃ partn', Partitions (applyRelocationPlan id false pm_t plan_move_1003) !! 0%nat
              = Some partn'
      ∧ Replicas partn' = [1001; 1002] ++ 1005 :: [].
Proof.
  split; [vm_compute; reflexivity|].
  destruct (applyRelocationPlan_first_occurrence id pm_t plan_move_1003 0
              {| Topic := "t"; PartitionN := 0; Replicas := [1001; 1002; 1003] |})
    as (_ & _ & partn' & Hp & _ & _ & Hrs).
  - reflexivity.
  - apply (bool_decide_unpack _). vm_compute. exact I.
  - exists partn'. split; [exact Hp|].
    change (isPlanned plan_move_1003
              {| Topic := "t"; PartitionN := 0; Replicas := [1001; 1002; 1003] |})
      with (true, (1003, 1005)) in Hrs.
    destruct Hrs as (_ & Hsplit & _). exact (Hsplit [1001; 1002] [] eq_refl).
Defined.

(** ** Rebuild: the strategy *)

(** C6: for a strategy that is neither "count" nor "storage", [Rebuild]
    returns the nil map and exactly one error, the invalid-strategy
    message; nothing was computed: receiver, broker map and generator are
    as before the call. *)
Theorem Rebuild_invalid_strategy `{RT : GoRuntime}
    (pm : PartitionMap) (bm : BrokerMap) (pmm : PartitionMetaMap)
    (strategy : string) (g : rng) :
  strategy ≠ "count"%string → strategy ≠ "storage"%string →
  Rebuild pm bm pmm strategy g
  = Ret {| newMap := None;
           errs := ["Invalid rebuild strategy '" +:+ strategy +:+ "'"];
           pm_after := pm; bm_after := bm; rng_after := g |}.
Proof.
  intros Hc Hs. unfold Rebuild.
  by rewrite !bool_decide_eq_false_2 by done.
Qed.

Lemma Rebuild_invalid_strategy_witness :
  @Rebuild ref_runtime pm_two_topics ∅ ∅ "size" 7
  = Ret (@mkRebuilt ref_runtime None ["Invalid rebuild strategy 'size'"]
           pm_two_topics ∅ 7).
Proof.
  apply (@Rebuild_invalid_strategy ref_runtime pm_two_topics ∅ ∅ "size" 7);
    apply (bool_decide_unpack _); vm_compute; exact I.
Defined.

(** ** The canonical order *)

Lemma ascii_compare_refl (c : ascii) : Ascii.compare c c = Eq.
Proof. unfold Ascii.compare. apply N.compare_refl. Qed.

Lemma ascii_compare_lt_trans (a b c : ascii) :
  Ascii.compare a b = Lt → Ascii.compare b c = Lt → Ascii.compare a c = Lt.
Proof. unfold Ascii.compare. rewrite !N.compare_lt_iff. lia. Qed.

Lemma string_compare_refl (s : string) : String.compare s s = Eq.
Proof. induction s as [|c s IH]; simpl; [done|]. by rewrite ascii_compare_refl. Qed.

Lemma string_compare_lt_trans (a b c : string) :
  String.compare a b = Lt → String.compare b c = Lt → String.compare a c = Lt.
Proof.
  revert b c. induction a as [|x a IH]; intros [|y b] [|z c]; simpl; try done.
  destruct (Ascii.compare x y) eqn:Hxy; [| |done].
  - apply Ascii.compare_eq_iff in Hxy as ->.
    destruct (Ascii.compare y z); [apply IH|done|done].
  - intros _. destruct (Ascii.compare y z) eqn:Hyz; [| |done].
    + apply Ascii.compare_eq_iff in Hyz as <-. by rewrite Hxy.
    + by rewrite (ascii_compare_lt_trans _ _ _ Hxy Hyz).
Qed.

Lemma string_lt_irrefl (a : string) : string_lt a a = false.
Proof. unfold string_lt, String.ltb. by rewrite string_compare_refl. Qed.

Lemma string_lt_trans (a b c : string) :
  string_lt a b = true → string_lt b c = true → string_lt a c = true.
Proof.
  unfold string_lt, String.ltb.
  destruct (String.compare a b) eqn:Hab; try done.
  destruct (String.compare b c) eqn:Hbc; try done.
  by rewrite (string_compare_lt_trans _ _ _ Hab Hbc).
Qed.

Lemma string_lt_trichotomy (a b : string) :
  string_lt a b = true ∨ a = b ∨ string_lt b a = true.
Proof.
  unfold string_lt, String.ltb. rewrite (String.compare_antisym b a).
  destruct (String.compare a b) eqn:Hab; simpl; [|by left|by right; right].
  right; left. by apply String.compare_eq_iff.
Qed.

Lemma string_lt_asym (a b : string) :
  string_lt a b = true → string_lt b a = false.
Proof.
  intros Hab. destruct (string_lt b a) eqn:Hba; [|done].
  by rewrite <- (string_lt_irrefl a), (string_lt_trans _ _ _ Hab Hba).
Qed.

(** [Less] is the strict lexicographic order on (topic, partition). *)
Lemma partitionList_Less_true (p q : Partition) :
  partitionList_Less p q = true
  ↔ string_lt (Topic p) (Topic q) = true
    ∨ (Topic p = Topic q ∧ PartitionN p < PartitionN q).
Proof.
  unfold partitionList_Less.
  destruct (string_lt (Topic p) (Topic q)) eqn:Hpq; [split; [by left|done]|].
  destruct (string_lt (Topic q) (Topic p)) eqn:Hqp.
  - split; [done|]. intros [?|[Heq _]]; [done|].
    rewrite Heq, string_lt_irrefl in Hqp. done.
  - destruct (string_lt_trichotomy (Topic p) (Topic q)) as [?|[Heq|?]]; [congruence| |congruence].
    rewrite Z.ltb_lt. split; [by right|]. by intros [?|[_ ?]].
Qed.

Lemma partitionList_Less_false (p q : Partition) :
  partitionList_Less q p = false ↔ canonical_le p q.
Proof.
  unfold canonical_le. rewrite <- not_true_iff_false, partitionList_Less_true.
  destruct (string_lt_trichotomy (Topic p) (Topic q)) as [Hlt|[Heq|Hgt]].
  - split; [by left|]. intros _ [Hgt|[Heq _]].
    + apply string_lt_asym in Hlt. congruence.
    + rewrite Heq, string_lt_irrefl in Hlt. done.
  - rewrite Heq, string_lt_irrefl. split.
    + intros Hn. right. split; [done|]. apply Z.le_ngt. naive_solver.
    + intros [?|[_ ?]] [?|[_ ?]]; try done. lia.
  - split.
    + intros Hn. destruct Hn. by left.
    + intros [Hlt|[Heq _]].
      * apply string_lt_asym in Hlt. congruence.
      * rewrite Heq, string_lt_irrefl in Hgt. done.
Qed.

Lemma canonical_le_trans : Transitive canonical_le.
Proof.
  intros p q r [Hpq|[Hpq Hn]] [Hqr|[Hqr Hm]].
  - left. by eapply string_lt_trans.
  - left. by rewrite <- Hqr.
  - left. by rewrite Hpq.
  - right. split; [congruence|lia].
Qed.

Lemma canonical_le_total (p q : Partition) : canonical_le p q ∨ canonical_le q p.
Proof.
  unfold canonical_le.
  destruct (string_lt_trichotomy (Topic p) (Topic q)) as [?|[Heq|?]]; [by left; left| |by right; left].
  destruct (Z.le_ge_cases (PartitionN p) (PartitionN q)); [left|right]; right; split; done.
Qed.

Lemma partitionList_Less_swo : strict_weak_order partitionList_Less.
Proof.
  split.
  - intros p. apply partitionList_Less_false. right. split; [done|lia].
  - intros p q r Hpq Hqr.
    destruct (partitionList_Less p r) eqn:Hpr; [done|].
    apply partitionList_Less_false in Hpr.
    assert (canonical_le q p) as Hqp.
    { eapply canonical_le_trans; [|done].
      destruct (canonical_le_total q r) as [?|Hrq]; [done|].
      apply partitionList_Less_false in Hrq. congruence. }
    apply partitionList_Less_false in Hqp. congruence.
  - intros p q r Hpr.
    destruct (partitionList_Less p q) eqn:Hpq; [by left|right].
    destruct (partitionList_Less q r) eqn:Hqr; [done|].
    apply partitionList_Less_false in Hpq, Hqr.
    assert (canonical_le r p) as Hrp by (by eapply canonical_le_trans).
    apply partitionList_Less_false in Hrp. congruence.
Qed.

Lemma sort_Sort_canonical `{RT : GoRuntime} (ps : partitionList) :
  StronglySorted canonical_le (sort_Sort partitionList_Less ps).
Proof.
  apply Sorted.Sorted_StronglySorted; [exact canonical_le_trans|].
  rewrite <- (list_fmap_id (sort_Sort partitionList_Less ps)).
  eapply Sorted_fmap; [|apply sort_Sort_Sorted, partitionList_Less_swo].
  intros p q. apply partitionList_Less_false.
Qed.

(** ** PartitionMapFromString *)

(** C10: on the JSON text [null] the call panics. [json.Unmarshal] gets
    the address of the pointer [pm], sets the pointer to nil for [null]
    and reports no error, and [sort.Sort(pm.Partitions)] then reads
    through the nil pointer. For every other text the call returns: the
    error of [json.Unmarshal] wrapped, or, whatever the order of the
    entries in the text, the decoded partitions rearranged in canonical
    order, topic ascending, then partition index ascending. *)
Theorem PartitionMapFromString_null_panics `{RT : GoRuntime} :
  PartitionMapFromString "null" = Panic nil_deref
  ∧ ∀ s : string,
      match json_Unmarshal s NewPartitionMap with
      | inl err =>
          PartitionMapFromString s = Ret (None, Some ("Error parsing topic map: " +:+ err))
      | inr None => PartitionMapFromString s = Panic nil_deref
      | inr (Some pm0) =>
          ∃ pm, PartitionMapFromString s = Ret (Some pm, None)
            ∧ Version pm = Version pm0
            ∧ Partitions pm ≡ₚ Partitions pm0
            ∧ StronglySorted canonical_le (Partitions pm)
      end.
Proof.
  split.
  - unfold PartitionMapFromString. by rewrite json_Unmarshal_null.
  - intros s. unfold PartitionMapFromString.
    destruct (json_Unmarshal s NewPartitionMap) as [err|[pm0|]]; [done| |done].
    eexists. split; [done|]. simpl. split_and!; [done|..].
    + apply sort_Sort_Permutation.
    + apply sort_Sort_canonical.
Qed.

Lemma PartitionMapFromString_null_panics_witness :
  @PartitionMapFromString ref_runtime "null" = Panic nil_deref
  ∧ @json_Unmarshal ref_runtime doc_two_topics NewPartitionMap = inr (Some pm_two_topics)
  ∧ ∃ pm, @PartitionMapFromString ref_runtime doc_two_topics = Ret (Some pm, None)
      ∧ Version pm = 1
      ∧ Partitions pm ≡ₚ Partitions pm_two_topics
      ∧ StronglySorted canonical_le (Partitions pm).
Proof.
  split; [exact (proj1 (@PartitionMapFromString_null_panics ref_runtime))|].
  assert (Hdoc : @json_Unmarshal ref_runtime doc_two_topics NewPartitionMap
                 = inr (Some pm_two_topics)) by (vm_compute; reflexivity).
  split; [exact Hdoc|].
  pose proof (proj2 (@PartitionMapFromString_null_panics ref_runtime) doc_two_topics) as H.
  rewrite Hdoc in H. exact H.
Defined.

(** ** Sorting and shuffling keep the elements *)

Lemma swap_Permutation {A} (l : list A) (ij : nat * nat) : swap l ij ≡ₚ l.
Proof.
  unfold swap. destruct (l !! ij.1) as [x|] eqn:Hi; [|done].
  destruct (l !! ij.2) as [y|] eqn:Hj; [|done].
  by apply Permutation_insert_swap.
Qed.

Lemma apply_swaps_Permutation {A} (swaps : list (nat * nat)) (l : list A) :
  apply_swaps swaps l ≡ₚ l.
Proof.
  unfold apply_swaps. revert l. induction swaps as [|ij swaps IH]; intros l; simpl; [done|].
  by rewrite IH, swap_Permutation.
Qed.

Lemma group_by_used_concat (bm : BrokerMap) (ids : list Z) :
  concat (group_by_used bm ids) = ids.
Proof.
  induction ids as [|id ids IH]; simpl; [done|].
  destruct (group_by_used bm ids) as [|[|id' grp] grps]; simpl in *.
  - by rewrite <- IH.
  - by rewrite <- IH.
  - destruct (used_of bm id =? used_of bm id'); simpl; by rewrite <- IH.
Qed.

Section Placement_facts.
Context `{RT : GoRuntime}.

Lemma foldl_shuffle_group_Permutation (grps : list (list Z)) (acc : list Z * rng) :
  (foldl shuffle_group acc grps).1 ≡ₚ acc.1 ++ concat grps.
Proof.
  revert acc. induction grps as [|grp grps IH]; intros acc; simpl.
  - by rewrite app_nil_r.
  - rewrite IH. simpl. by rewrite apply_swaps_Permutation, app_assoc.
Qed.

Lemma SortPseudoShuffle_Permutation (bm : BrokerMap) (ids : list Z) (seed : Z) :
  (SortPseudoShuffle bm ids seed).1 ≡ₚ ids.
Proof.
  unfold SortPseudoShuffle. rewrite foldl_shuffle_group_Permutation. simpl.
  by rewrite group_by_used_concat, sort_Sort_Permutation.
Qed.

Lemma resolve_Ret (bm : BrokerMap) (bl : brokerList) (ids : list Z) :
  resolve bm bl = Ret ids → bl = Some <$> ids ∧ Forall (λ id, is_Some (bm !! id)) ids.
Proof.
  revert ids. induction bl as [|p bl IH]; intros ids; simpl.
  - intros [= <-]. by split.
  - intros H. inv_bind H. inv_bind H. inv_bind H. injection H as <-.
    destruct p as [id|]; [|done]. injection Ha0 as <-.
    destruct (IH _ Ha1) as [-> Hall]. split; [done|].
    constructor; [|done]. simpl in Ha. by destruct (bm !! id).
Qed.

(** The ranked list a call of [bestCandidate] works on is a rearrangement
    of the list it was given. *)
Lemma ranked_list_Permutation (st : bstate) (by_ : string) (seed : Z) (ids : list Z) :
  (ranked_list st by_ seed ids).1 ≡ₚ ids.
Proof.
  unfold ranked_list. repeat case_bool_decide; simpl.
  - apply SortPseudoShuffle_Permutation.
  - apply sort_Sort_Permutation.
  - done.
Qed.

Lemma bestCandidate_Ret (st st' : bstate) (c : constraints) (by_ : string) (seed : Z)
    (r : ptr * option string) :
  bestCandidate st c by_ seed = Ret (st', r) →
  ∃ ids, st_bl st = Some <$> ids
    ∧ Forall (λ id, is_Some (st_bm st !! id)) ids
    ∧ st_bl st' = Some <$> (ranked_list st by_ seed ids).1
    ∧ st_rng st' = (ranked_list st by_ seed ids).2
    ∧ ((∃ id, r = (Some id, None) ∧ id ∈ ids
            ∧ passes (st_bm st) c id = true
            ∧ st_bm st' = alter (take_candidate c) id (st_bm st))
       ∨ (r = (None, Some errNoBrokers) ∧ st_bm st' = st_bm st)).
Proof.
  unfold bestCandidate. intros H. inv_bind H.
  apply resolve_Ret in Ha as [Hbl Hall]. exists a.
  destruct (List.find _ _) as [id|] eqn:Hfind; injection H as <- <-; simpl.
  - split_and!; try done. left. exists id.
    apply find_some in Hfind as [Hin Hpass]. split_and!; try done.
    apply list_elem_of_In in Hin. by rewrite ranked_list_Permutation in Hin.
  - split_and!; try done. by right.
Qed.

End Placement_facts.

(** ** Rebuild places no broker marked for replacement *)

Lemma is_candidate_kept (bm0 : BrokerMap) (id : Z) :
  is_candidate bm0 id = true → kept bm0 id.
Proof.
  unfold is_candidate, kept. destruct (bm0 !! id) as [b|] eqn:Hb; [|done].
  intros [_ Hr%negb_true_iff]%andb_true_iff. eauto.
Qed.

Lemma is_kept_kept (bm0 : BrokerMap) (id : Z) :
  is_kept bm0 id = true → kept bm0 id.
Proof.
  unfold is_kept, kept. destruct (bm0 !! id) as [b|]; [|done].
  intros Hr%negb_true_iff. eauto.
Qed.

Lemma same_brokers_refl (bm0 : BrokerMap) : same_brokers bm0 bm0.
Proof. done. Qed.

Lemma same_brokers_alter (bm0 bm : BrokerMap) (f : Broker → Broker) (id : Z) :
  (∀ b, Replace (f b) = Replace b) →
  same_brokers bm0 bm → same_brokers bm0 (alter f id bm).
Proof.
  intros Hf Hsame id'. rewrite <- Hsame. destruct (decide (id = id')) as [->|Hne].
  - rewrite lookup_alter_eq. destruct (bm !! id'); simpl; [|done]. by rewrite Hf.
  - by rewrite lookup_alter_ne.
Qed.

Lemma same_brokers_kept (bm0 bm : BrokerMap) (id : Z) (b : Broker) :
  same_brokers bm0 bm → bm !! id = Some b → Replace b = false → kept bm0 id.
Proof.
  intros Hsame Hb Hr. specialize (Hsame id). rewrite Hb in Hsame. simpl in Hsame.
  destruct (bm0 !! id) as [b0|] eqn:Hb0; [|done]. exists b0. split; [done|].
  injection Hsame as <-. done.
Qed.

Lemma deref_at_key (bm : BrokerMap) (bid : Z) (b : Broker) :
  deref bm (at_key bm bid) = Ret b ↔ bm !! bid = Some b.
Proof.
  unfold deref, at_key. destruct (bm !! bid) as [b'|] eqn:Hb; [|done].
  rewrite Hb. split; by intros [= ->].
Qed.

Lemma replicas_kept_append (bm0 : BrokerMap) (n : nat) (id : Z) (parts parts' : partitionList) :
  replicas_kept bm0 parts → kept bm0 id →
  appendReplica n id parts = Ret parts' → replicas_kept bm0 parts'.
Proof.
  unfold appendReplica, replicas_kept. intros Hparts Hid.
  destruct (parts !! n) as [p|] eqn:Hp; [|done]. intros [= <-].
  apply Forall_insert; [done|]. simpl. apply Forall_app. split; [|by constructor].
  by apply (Forall_lookup_1 _ _ _ _ Hparts Hp).
Qed.

Section Rebuild_kept.
Context `{RT : GoRuntime}.
Variable bm0 : BrokerMap.

Lemma filteredList_ok (g : rng) :
  bstate_ok bm0 {| st_bm := bm0; st_bl := filteredList bm0; st_rng := g |}.
Proof.
  split; [done|]. simpl. unfold filteredList. apply Forall_fmap, Forall_forall.
  intros id Hin. exists id. split; [done|].
  apply list_elem_of_In, filter_In in Hin. tauto.
Qed.

Lemma bestCandidate_ok (st st' : bstate) (c : constraints) (by_ : string) (seed : Z)
    (r : ptr * option string) :
  bstate_ok bm0 st → bestCandidate st c by_ seed = Ret (st', r) →
  bstate_ok bm0 st'
  ∧ (r.2 = None → ∃ id, r.1 = Some id ∧ kept bm0 id).
Proof.
  intros [Hsame Hbl] H.
  apply bestCandidate_Ret in H as (ids & Hids & _ & Hbl' & _ & Hres).
  assert (Hcand : Forall (λ id, is_candidate bm0 id = true) ids).
  { rewrite Hids, Forall_fmap in Hbl.
    eapply Forall_impl; [done|]. simpl. by intros id (? & [= <-] & ?). }
  assert (Forall (λ p : ptr, ∃ id, p = Some id ∧ is_candidate bm0 id = true) (st_bl st')).
  { rewrite Hbl'. apply Forall_fmap. rewrite ranked_list_Permutation.
    eapply Forall_impl; [done|]. simpl. eauto. }
  destruct Hres as [(id & -> & Hin & _ & Hbm)|[-> Hbm]]; simpl.
  - split.
    + split; [|done]. rewrite Hbm. by apply same_brokers_alter.
    + intros _. exists id. split; [done|].
      apply is_candidate_kept. by eapply Forall_forall in Hcand.
  - split; [|done]. split; [|done]. by rewrite Hbm.
Qed.

Lemma findReplacement_ok (strategy : string) (pmm : PartitionMetaMap) (partn : Partition)
    (newRs : list Z) (seed : Z) (st st' : bstate) (r : string + Z) :
  bstate_ok bm0 st →
  findReplacement strategy pmm partn newRs seed st = Ret (st', r) →
  bstate_ok bm0 st' ∧ (∀ id, r = inr id → kept bm0 id).
Proof.
  intros Hok H. unfold findReplacement in H. inv_bind H.
  match type of H with match ?sized with _ => _ end = _ => destruct sized as [e|c'] end.
  { injection H as <- <-. by split. }
  inv_bind H. destruct a0 as [st1 [p err]]. simpl in H.
  destruct (bestCandidate_ok _ _ _ _ _ _ Hok Ha0) as [Hok1 Hid].
  destruct err as [err|]; simpl in *.
  - injection H as <- <-. by split.
  - inv_bind H. injection H as <- <-. split; [done|]. intros id [= <-].
    destruct (Hid eq_refl) as (id & -> & Hkept). by injection Ha1 as <-.
Qed.

Lemma placeAt_ok (pmm : PartitionMetaMap) (strategy : string) (pass : Z) (n : nat)
    (partn : Partition) (s s' : posState) :
  bstate_ok bm0 (ps_st s) → replicas_kept bm0 (ps_parts s) →
  placeAt pmm strategy pass n partn s = Ret s' →
  bstate_ok bm0 (ps_st s') ∧ replicas_kept bm0 (ps_parts s').
Proof.
  intros Hok Hparts H. unfold placeAt in H.
  set (parts := if pass =? 0 then _ else _) in H.
  assert (Hparts0 : replicas_kept bm0 parts).
  { subst parts. destruct (pass =? 0); [|done].
    apply Forall_app. split; [done|]. by repeat constructor. }
  clearbody parts.
  destruct (pass >? len (Replicas partn) - 1); [by injection H as <-|].
  destruct (pass <? 0); [done|].
  destruct (Replicas partn !! Z.to_nat pass) as [bid|]; [|done].
  inv_bind H. apply deref_at_key in Ha.
  destruct (Replace a) eqn:Hrep; simpl in H.
  - destruct (parts !! n) as [newPartn|]; [|done].
    inv_bind H. destruct a0 as [st1 r]. simpl in H.
    destruct (findReplacement_ok _ _ _ _ _ _ _ _ Hok Ha0) as [Hok1 Hid].
    destruct r as [e|id].
    + by injection H as <-.
    + inv_bind H. injection H as <-. simpl. split; [done|].
      eapply replicas_kept_append; [done| |done]. by apply Hid.
  - inv_bind H. injection H as <-. simpl. split; [done|].
    eapply replicas_kept_append; [done| |done].
    destruct Hok as [Hsame _]. by eapply same_brokers_kept.
Qed.

Lemma placePass_ok (pmm : PartitionMetaMap) (strategy : string) (pass : Z)
    (rest : partitionList) (n : nat) (s s' : posState) :
  bstate_ok bm0 (ps_st s) → replicas_kept bm0 (ps_parts s) →
  placePass pmm strategy pass n rest s = Ret s' →
  bstate_ok bm0 (ps_st s') ∧ replicas_kept bm0 (ps_parts s').
Proof.
  revert n s. induction rest as [|partn rest IH]; intros n s Hok Hparts H; simpl in H.
  - by injection H as <-.
  - inv_bind H. destruct (placeAt_ok _ _ _ _ _ _ _ Hok Hparts Ha) as [Hok1 Hparts1].
    by eapply IH.
Qed.

Lemma placePasses_ok (fuel : nat) (pmm : PartitionMetaMap) (strategy : string)
    (pm : PartitionMap) (pass : Z) (s s' : posState) :
  bstate_ok bm0 (ps_st s) → replicas_kept bm0 (ps_parts s) →
  placePasses fuel pmm strategy pm pass s = Ret s' →
  bstate_ok bm0 (ps_st s') ∧ replicas_kept bm0 (ps_parts s').
Proof.
  revert pass s. induction fuel as [|fuel IH]; intros pass s Hok Hparts H; simpl in H.
  - destruct (ps_skipped s <? len (Partitions pm)); [done|]. by injection H as <-.
  - destruct (ps_skipped s <? len (Partitions pm)); [|by injection H as <-].
    inv_bind H. destruct (placePass_ok _ _ _ _ _ _ _ Hok Hparts Ha) as [Hok1 Hparts1].
    by eapply IH.
Qed.

Lemma placeByPosition_kept (pm : PartitionMap) (st : bstate) (pmm : PartitionMetaMap)
    (strategy : string) (r : PartitionMap * list string * bstate) :
  st_bm st = bm0 →
  placeByPosition pm st pmm strategy = Ret r →
  replicas_kept bm0 (Partitions r.1.1) ∧ same_brokers bm0 (st_bm r.2).
Proof.
  intros Hbm H. unfold placeByPosition in H. inv_bind H. injection H as <-. simpl.
  rewrite Hbm in Ha.
  apply placePasses_ok in Ha as [[Hsame _] Hparts]; [done| |by constructor].
  apply filteredList_ok.
Qed.

Lemma placeReplica_ok (pmm : PartitionMetaMap) (strategy : string) (partn : Partition)
    (bid : Z) (s s' : partState) :
  bstate_ok bm0 (pt_st s) → Forall (kept bm0) (pt_replicas s) →
  placeReplica pmm strategy partn bid s = Ret s' →
  bstate_ok bm0 (pt_st s') ∧ Forall (kept bm0) (pt_replicas s').
Proof.
  intros Hok Hrs H. unfold placeReplica in H.
  inv_bind H. apply deref_at_key in Ha.
  destruct (Replace a) eqn:Hrep; simpl in H.
  - inv_bind H. destruct a0 as [st1 r]. simpl in H.
    destruct (findReplacement_ok _ _ _ _ _ _ _ _ Hok Ha0) as [Hok1 Hid].
    destruct r as [e|id]; injection H as <-; simpl; [done|].
    split; [done|]. apply Forall_app. split; [done|]. constructor; [|done]. by apply Hid.
  - injection H as <-. simpl. split; [done|].
    apply Forall_app. split; [done|]. constructor; [|done].
    destruct Hok as [Hsame _]. by eapply same_brokers_kept.
Qed.

Lemma placeReplicas_ok (pmm : PartitionMetaMap) (strategy : string) (partn : Partition)
    (bids : list Z) (s s' : partState) :
  bstate_ok bm0 (pt_st s) → Forall (kept bm0) (pt_replicas s) →
  placeReplicas pmm strategy partn bids s = Ret s' →
  bstate_ok bm0 (pt_st s') ∧ Forall (kept bm0) (pt_replicas s').
Proof.
  revert s. induction bids as [|bid bids IH]; intros s Hok Hrs H; simpl in H.
  - by injection H as <-.
  - inv_bind H. destruct (placeReplica_ok _ _ _ _ _ _ Hok Hrs Ha) as [Hok1 Hrs1].
    by eapply IH.
Qed.

Lemma placePartitions_ok (pmm : PartitionMetaMap) (strategy : string)
    (rest acc : partitionList) (errs0 : list string) (st : bstate)
    (r : partitionList * list string * bstate) :
  bstate_ok bm0 st → replicas_kept bm0 acc →
  placePartitions pmm strategy rest acc errs0 st = Ret r →
  bstate_ok bm0 r.2 ∧ replicas_kept bm0 r.1.1.
Proof.
  revert acc errs0 st. induction rest as [|partn rest IH]; intros acc errs0 st Hok Hacc H;
    simpl in H.
  - by injection H as <-.
  - inv_bind H.
    apply placeReplicas_ok in Ha as [Hok1 Hrs1]; [|done|by constructor].
    eapply IH; [done| |done]. apply Forall_app. split; [done|]. by repeat constructor.
Qed.

Lemma placeByPartition_kept (pm : PartitionMap) (st : bstate) (pmm : PartitionMetaMap)
    (strategy : string) (r : PartitionMap * list string * bstate) :
  st_bm st = bm0 →
  placeByPartition pm st pmm strategy = Ret r →
  replicas_kept bm0 (Partitions r.1.1) ∧ same_brokers bm0 (st_bm r.2).
Proof.
  intros Hbm H. unfold placeByPartition in H. inv_bind H. injection H as <-. simpl.
  rewrite Hbm in Ha.
  apply placePartitions_ok in Ha as [[Hsame _] Hparts]; [done| |by constructor].
  apply filteredList_ok.
Qed.

Lemma shuffleFrom_kept (ps : partitionList) (n : nat) (g : rng) :
  replicas_kept bm0 ps → replicas_kept bm0 (shuffleFrom n ps g).1.
Proof.
  revert n g. induction ps as [|p ps IH]; intros n g Hps; simpl; [done|].
  apply Forall_cons in Hps as [Hp Hps]. constructor; [|by apply IH].
  simpl. by rewrite apply_swaps_Permutation.
Qed.

End Rebuild_kept.

Lemma replicas_kept_Permutation (bm0 : BrokerMap) (ps ps' : partitionList) :
  ps ≡ₚ ps' → replicas_kept bm0 ps → replicas_kept bm0 ps'.
Proof. unfold replicas_kept. by intros ->. Qed.

Lemma kept_same_brokers (bm0 bm : BrokerMap) (id : Z) :
  same_brokers bm0 bm → kept bm0 id → kept bm id.
Proof.
  intros Hsame (b0 & Hb0 & Hr). specialize (Hsame id). rewrite Hb0 in Hsame.
  destruct (bm !! id) as [b|] eqn:Hb; [|done]. exists b. split; [done|].
  injection Hsame as ->. done.
Qed.

(** C2: whatever the broker map and the partition map, every broker ID in
    every replica set of the map [Rebuild] returns is the ID of a broker of
    the broker map whose [replace] flag is false, in the map as given and
    in the map as the call leaves it. *)
Theorem Rebuild_no_replaced_broker `{RT : GoRuntime}
    (pm : PartitionMap) (bm : BrokerMap) (pmm : PartitionMetaMap)
    (strategy : string) (g : rng) (r : rebuilt) (m : PartitionMap) :
  Rebuild pm bm pmm strategy g = Ret r →
  newMap r = Some m →
  ∀ p id, p ∈ Partitions m → id ∈ Replicas p →
    (∃ b, bm !! id = Some b ∧ Replace b = false)
    ∧ (∃ b, bm_after r !! id = Some b ∧ Replace b = false).
Proof.
  intros H Hm. unfold Rebuild in H.
  assert (replicas_kept bm (Partitions m) ∧ same_brokers bm (bm_after r)) as [Hkept Hsame].
  { case_bool_decide.
    - inv_bind H. injection H as <-. simpl in *. injection Hm as <-. simpl.
      apply placeByPosition_kept with (bm0 := bm) in Ha as [Hk Hs]; [|done].
      split; [|done]. eapply replicas_kept_Permutation; [|done].
      symmetry. apply sort_Sort_Permutation.
    - case_bool_decide.
      + inv_bind H. injection H as <-. simpl in *. injection Hm as <-. simpl.
        apply placeByPartition_kept with (bm0 := bm) in Ha as [Hk Hs]; [|done].
        split; [|done]. eapply replicas_kept_Permutation.
        { symmetry. apply sort_Sort_Permutation. }
        by apply shuffleFrom_kept.
      + injection H as <-. done. }
  intros p id Hp Hid.
  assert (kept bm id) as Hk.
  { eapply Forall_forall in Hkept; [|done]. by eapply Forall_forall in Hkept. }
  split; [done|]. by eapply kept_same_brokers.
Qed.

Lemma Rebuild_no_replaced_broker_witness :
  ∃ r m, @Rebuild ref_runtime pm_t bm_replace_1003 pmm_t "count" 0 = Ret r
    ∧ newMap r = Some m
    ∧ Replicas <$> Partitions m = [[1001; 1002; 1005]; [1002; 1005; 1004]]
    ∧ ∀ p id, p ∈ Partitions m → id ∈ Replicas p →
        (∃ b, bm_replace_1003 !! id = Some b ∧ Replace b = false)
        ∧ (∃ b, bm_after r !! id = Some b ∧ Replace b = false).
Proof.
  destruct (observe_Some newMap (@Rebuild ref_runtime pm_t bm_replace_1003 pmm_t "count" 0)
              (Some {| Version := 1;
                       Partitions := [ {| Topic := "t"; PartitionN := 0; Replicas := [1001; 1002; 1005] |};
                                       {| Topic := "t"; PartitionN := 1; Replicas := [1002; 1005; 1004] |} ] |}))
    as (r & Hr & Hm); [vm_compute; reflexivity|].
  exists r. eexists. split; [exact Hr|]. split; [exact Hm|]. split; [reflexivity|].
  exact (@Rebuild_no_replaced_broker ref_runtime pm_t bm_replace_1003 pmm_t "count" 0 r _ Hr Hm).
Defined.

(** ** placeByPosition: the outer loop *)

(** C3 fails on the code: the skip counter is not reset between passes.
    With replica sets of lengths 1, 1 and 4, no broker marked for
    replacement and every broker present, the skips of passes 1 and 2 add
    up to 4 >= 3 partitions, the loop stops after pass 2, and the third
    partition comes out with 3 of its 4 replicas, without any error. *)
Theorem placeByPosition_skips_accumulate `{RT : GoRuntime} (g : rng) :
  observe (λ r, (r.1.1, r.1.2))
    (placeByPosition pm_uneven {| st_bm := bm_mock; st_bl := []; st_rng := g |} ∅ "count")
  = Some ({| Version := 1;
             Partitions := [ {| Topic := "t"; PartitionN := 0; Replicas := [1001] |};
                             {| Topic := "t"; PartitionN := 1; Replicas := [1002] |};
                             {| Topic := "t"; PartitionN := 2; Replicas := [1001; 1002; 1003] |} ] |},
          [])
  ∧ Replicas <$> Partitions pm_uneven = [[1001]; [1002]; [1001; 1002; 1003; 1004]]
  ∧ Forall (λ p, Forall (kept bm_mock) (Replicas p)) (Partitions pm_uneven).
Proof.
  split; [by vm_compute|]. split; [done|].
  repeat (constructor; try (apply is_kept_kept; by vm_compute)).
Qed.

(** ** Rebuild depends on the generator through its seeds only *)

Lemma orel_bind {A A' B B'} (R : A → A' → Prop) (S : B → B' → Prop)
    (m1 : outcome A) (m2 : outcome A') (f : A → outcome B) (f' : A' → outcome B') :
  orel R m1 m2 → (∀ a a', R a a' → orel S (f a) (f' a')) →
  orel S (m1 ≫= f) (m2 ≫= f').
Proof. destruct m1, m2; simpl; try done. intros HR Hf. by apply Hf. Qed.

Lemma orel_same_bind {A B B'} (S : B → B' → Prop) (m : outcome A)
    (f : A → outcome B) (f' : A → outcome B') :
  (∀ a, orel S (f a) (f' a)) → orel S (m ≫= f) (m ≫= f').
Proof. destruct m; simpl; try done. Qed.

Lemma same_shuffles_weaken (RT1 RT2 : GoRuntime) (seeds seeds' : Z → Prop)
    (R : @rng RT1 → @rng RT2 → Prop) :
  (∀ s, seeds' s → seeds s) → same_shuffles RT1 RT2 seeds R → same_shuffles RT1 RT2 seeds' R.
Proof. intros Hsub [Hseed Hsh]. split; [|done]. intros s Hs. by apply Hseed, Hsub. Qed.

Section Rebuild_seeds.
Variables RT1 RT2 : GoRuntime.
Hypothesis Hsort : same_sort RT1 RT2.
Variable seeds : Z → Prop.
Variable R : @rng RT1 → @rng RT2 → Prop.
Hypothesis HR : same_shuffles RT1 RT2 seeds R.

Lemma shuffle_groups_sim (grps : list (list Z)) (acc : list Z)
    (g1 : @rng RT1) (g2 : @rng RT2) :
  R g1 g2 →
  (foldl (@shuffle_group RT1) (acc, g1) grps).1 = (foldl (@shuffle_group RT2) (acc, g2) grps).1
  ∧ R (foldl (@shuffle_group RT1) (acc, g1) grps).2 (foldl (@shuffle_group RT2) (acc, g2) grps).2.
Proof.
  revert acc g1 g2. induction grps as [|grp grps IH]; intros acc g1 g2 Hg; simpl; [done|].
  destruct (ss_shuffle _ _ _ _ HR g1 g2 (length grp) Hg) as [Hsw Hg'].
  change (@shuffle_group RT1 (acc, g1) grp)
    with (acc ++ apply_swaps (@rand_Shuffle RT1 g1 (length grp)).1 grp,
          (@rand_Shuffle RT1 g1 (length grp)).2).
  change (@shuffle_group RT2 (acc, g2) grp)
    with (acc ++ apply_swaps (@rand_Shuffle RT2 g2 (length grp)).1 grp,
          (@rand_Shuffle RT2 g2 (length grp)).2).
  rewrite Hsw. by apply IH.
Qed.

Lemma ranked_list_sim (st1 : @bstate RT1) (st2 : @bstate RT2) (by_ : string) (seed : Z)
    (ids : list Z) :
  st_bm st1 = st_bm st2 →
  (by_ = "count"%string → seeds seed) →
  (@ranked_list RT1 st1 by_ seed ids).1 = (@ranked_list RT2 st2 by_ seed ids).1.
Proof.
  intros Hbm Hseed. unfold ranked_list. rewrite Hbm. repeat case_bool_decide.
  - unfold SortPseudoShuffle. rewrite Hsort.
    apply shuffle_groups_sim. by apply (ss_seed _ _ _ _ HR), Hseed.
  - simpl. apply Hsort.
  - done.
Qed.

Lemma bestCandidate_sim (st1 : @bstate RT1) (st2 : @bstate RT2) (c : constraints)
    (by_ : string) (seed : Z) :
  bstate_sim RT1 RT2 st1 st2 →
  (by_ = "count"%string → seeds seed) →
  orel (λ r1 r2, bstate_sim RT1 RT2 r1.1 r2.1 ∧ r1.2 = r2.2)
       (@bestCandidate RT1 st1 c by_ seed) (@bestCandidate RT2 st2 c by_ seed).
Proof.
  intros [Hbm Hbl] Hseed. unfold bestCandidate. rewrite Hbm, Hbl.
  apply orel_same_bind. intros ids.
  rewrite (ranked_list_sim st1 st2) by done.
  destruct (List.find _ _); simpl; by rewrite ?Hbm.
Qed.

Lemma findReplacement_sim (strategy : string) (pmm : PartitionMetaMap) (partn : Partition)
    (newRs : list Z) (seed : Z) (st1 : @bstate RT1) (st2 : @bstate RT2) :
  bstate_sim RT1 RT2 st1 st2 →
  (strategy = "count"%string → seeds seed) →
  orel (λ r1 r2, bstate_sim RT1 RT2 r1.1 r2.1 ∧ r1.2 = r2.2)
       (@findReplacement RT1 strategy pmm partn newRs seed st1)
       (@findReplacement RT2 strategy pmm partn newRs seed st2).
Proof.
  intros Heq Hseed. unfold findReplacement. destruct (Heq) as [Hbm Hbl]. rewrite Hbm.
  apply orel_same_bind. intros c.
  match goal with |- orel _ (match ?sized with _ => _ end) _ => destruct sized as [e|c'] end.
  { done. }
  eapply orel_bind; [by apply bestCandidate_sim|].
  intros [s1 [p1 e1]] [s2 [p2 e2]] [Hs [= <- <-]]. simpl.
  destruct e1; simpl; [done|]. destruct p1; simpl; done.
Qed.

Lemma placeAt_sim (pmm : PartitionMetaMap) (strategy : string) (pass : Z) (n : nat)
    (partn : Partition) (s1 : @posState RT1) (s2 : @posState RT2) :
  posState_sim RT1 RT2 s1 s2 →
  (strategy = "count"%string → 0 ≤ pass < len (Replicas partn) →
   seeds (wrap64 (pass * Z.of_nat n + 1))) →
  orel (posState_sim RT1 RT2) (@placeAt RT1 pmm strategy pass n partn s1)
                              (@placeAt RT2 pmm strategy pass n partn s2).
Proof.
  intros (Hparts & Herrs & Hst & Hsk) Hseed. unfold placeAt.
  destruct (Hst) as [Hbm Hbl]. rewrite Hparts, Herrs, Hsk, Hbm.
  set (parts := if pass =? 0 then _ else _). clearbody parts.
  destruct (Z.gtb_spec pass (len (Replicas partn) - 1)) as [?|Hle]; [done|].
  destruct (Z.ltb_spec pass 0) as [?|Hge]; [done|].
  destruct (Replicas partn !! Z.to_nat pass) as [bid|]; [|done].
  apply orel_same_bind. intros b.
  destruct (negb (Replace b)).
  { apply orel_same_bind. intros parts'. done. }
  destruct (parts !! n) as [newPartn|]; [|done].
  eapply orel_bind; [apply findReplacement_sim; [done|]|].
  { intros Hc. apply Hseed; [done|lia]. }
  intros [st1' r1] [st2' r2] [Hs' Hr]. simpl in *. subst r2.
  destruct r1 as [e|id]; [done|].
  apply orel_same_bind. intros parts'. done.
Qed.

Lemma placePass_sim (pmm : PartitionMetaMap) (strategy : string) (pass : Z)
    (rest : partitionList) (n : nat) (s1 : @posState RT1) (s2 : @posState RT2) :
  posState_sim RT1 RT2 s1 s2 →
  (∀ i partn, rest !! i = Some partn →
     strategy = "count"%string → 0 ≤ pass < len (Replicas partn) →
     seeds (wrap64 (pass * Z.of_nat (n + i) + 1))) →
  orel (posState_sim RT1 RT2) (@placePass RT1 pmm strategy pass n rest s1)
                              (@placePass RT2 pmm strategy pass n rest s2).
Proof.
  revert n s1 s2. induction rest as [|partn rest IH]; intros n s1 s2 Heq Hseed; simpl;
    [done|].
  eapply orel_bind; [apply placeAt_sim; [done|]|].
  { intros Hc Hp. specialize (Hseed 0%nat partn eq_refl Hc Hp).
    by rewrite Nat.add_0_r in Hseed. }
  intros s1' s2' Heq'. apply IH; [done|].
  intros i p Hi Hc Hp. specialize (Hseed (S i) p Hi Hc Hp).
  by rewrite Nat.add_succ_comm.
Qed.

Lemma placePasses_sim (fuel : nat) (pmm : PartitionMetaMap) (strategy : string)
    (pm : PartitionMap) (pass : Z) (s1 : @posState RT1) (s2 : @posState RT2) :
  posState_sim RT1 RT2 s1 s2 →
  (strategy = "count"%string → ∀ s, position_seeds (Partitions pm) s → seeds s) →
  orel (posState_sim RT1 RT2) (@placePasses RT1 fuel pmm strategy pm pass s1)
                              (@placePasses RT2 fuel pmm strategy pm pass s2).
Proof.
  intros Heq Hseed. revert pass s1 s2 Heq.
  induction fuel as [|fuel IH]; intros pass s1 s2 Heq; simpl;
    destruct (Heq) as (_ & _ & _ & ->);
    destruct (ps_skipped s2 <? len (Partitions pm)); try done.
  eapply orel_bind; [apply placePass_sim; [done|]|].
  { intros i partn Hi Hc Hp. apply Hseed; [done|]. by exists i, partn, pass. }
  intros s1' s2' Heq'. by apply IH.
Qed.

Lemma placeByPosition_sim (pm : PartitionMap) (st1 : @bstate RT1) (st2 : @bstate RT2)
    (pmm : PartitionMetaMap) (strategy : string) :
  st_bm st1 = st_bm st2 →
  (strategy = "count"%string → ∀ s, position_seeds (Partitions pm) s → seeds s) →
  orel (placed_sim RT1 RT2) (@placeByPosition RT1 pm st1 pmm strategy)
                            (@placeByPosition RT2 pm st2 pmm strategy).
Proof.
  intros Hbm Hseed. unfold placeByPosition. rewrite Hbm.
  eapply orel_bind; [by apply placePasses_sim|].
  intros s1 s2 (Hparts & Herrs & Hst & _). simpl. split; [|done]. simpl.
  by rewrite Hparts, Herrs.
Qed.

Lemma placeReplica_sim (pmm : PartitionMetaMap) (strategy : string) (partn : Partition)
    (bid : Z) (s1 : @partState RT1) (s2 : @partState RT2) :
  partState_sim RT1 RT2 s1 s2 →
  (strategy = "count"%string → seeds 1) →
  orel (partState_sim RT1 RT2) (@placeReplica RT1 pmm strategy partn bid s1)
                               (@placeReplica RT2 pmm strategy partn bid s2).
Proof.
  intros (Hrs & Herrs & Hst) Hseed. unfold placeReplica.
  destruct (Hst) as [Hbm Hbl]. rewrite Hrs, Herrs, Hbm.
  apply orel_same_bind. intros b.
  destruct (negb (Replace b)); [done|].
  eapply orel_bind; [by apply findReplacement_sim|].
  intros [st1' r1] [st2' r2] [Hs' Hr]. simpl in *. subst r2.
  by destruct r1.
Qed.

Lemma placeReplicas_sim (pmm : PartitionMetaMap) (strategy : string) (partn : Partition)
    (bids : list Z) (s1 : @partState RT1) (s2 : @partState RT2) :
  partState_sim RT1 RT2 s1 s2 →
  (strategy = "count"%string → seeds 1) →
  orel (partState_sim RT1 RT2) (@placeReplicas RT1 pmm strategy partn bids s1)
                               (@placeReplicas RT2 pmm strategy partn bids s2).
Proof.
  intros Heq Hseed. revert s1 s2 Heq.
  induction bids as [|bid bids IH]; intros s1 s2 Heq; simpl; [done|].
  eapply orel_bind; [by apply placeReplica_sim|]. intros s1' s2' Heq'. by apply IH.
Qed.

Lemma placePartitions_sim (pmm : PartitionMetaMap) (strategy : string)
    (rest acc : partitionList) (errs0 : list string)
    (st1 : @bstate RT1) (st2 : @bstate RT2) :
  bstate_sim RT1 RT2 st1 st2 →
  (strategy = "count"%string → seeds 1) →
  orel (λ r1 r2, r1.1 = r2.1 ∧ bstate_sim RT1 RT2 r1.2 r2.2)
       (@placePartitions RT1 pmm strategy rest acc errs0 st1)
       (@placePartitions RT2 pmm strategy rest acc errs0 st2).
Proof.
  intros Heq Hseed. revert acc errs0 st1 st2 Heq.
  induction rest as [|partn rest IH]; intros acc errs0 st1 st2 Heq; simpl; [done|].
  eapply orel_bind; [by apply placeReplicas_sim|].
  intros s1 s2 (Hrs & Herrs & Hst). rewrite Hrs, Herrs. by apply IH.
Qed.

Lemma placeByPartition_sim (pm : PartitionMap) (st1 : @bstate RT1) (st2 : @bstate RT2)
    (pmm : PartitionMetaMap) (strategy : string) :
  st_bm st1 = st_bm st2 →
  (strategy = "count"%string → seeds 1) →
  orel (placed_sim RT1 RT2) (@placeByPartition RT1 pm st1 pmm strategy)
                            (@placeByPartition RT2 pm st2 pmm strategy).
Proof.
  intros Hbm Hseed. unfold placeByPartition. rewrite Hbm.
  eapply orel_bind; [by apply placePartitions_sim|].
  intros [[parts1 errs1] s1] [[parts2 errs2] s2] [[= <- <-] Hst]. by split.
Qed.

(** The shuffle seeds the generator anew for every partition. *)
Lemma shuffleFrom_sim (ps : partitionList) (n : nat) (g1 : @rng RT1) (g2 : @rng RT2) :
  (∀ i, (i < length ps)%nat → seeds (wrap64 (Z.shiftl (Z.of_nat (n + i)) 2))) →
  (@shuffleFrom RT1 n ps g1).1 = (@shuffleFrom RT2 n ps g2).1.
Proof.
  revert n g1 g2. induction ps as [|p ps IH]; intros n g1 g2 Hseed; simpl; [done|].
  f_equal.
  - unfold shuffleAt. simpl. f_equal. f_equal.
    apply (ss_shuffle _ _ _ _ HR), (ss_seed _ _ _ _ HR).
    specialize (Hseed 0%nat). rewrite Nat.add_0_r in Hseed. apply Hseed. simpl. lia.
  - apply IH. intros i Hi. specialize (Hseed (S i)). rewrite Nat.add_succ_comm.
    apply Hseed. simpl. lia.
Qed.

End Rebuild_seeds.

Lemma placePartitions_length `{RT : GoRuntime} (pmm : PartitionMetaMap) (strategy : string)
    (rest acc : partitionList) (errs0 : list string) (st : bstate)
    (r : partitionList * list string * bstate) :
  placePartitions pmm strategy rest acc errs0 st = Ret r →
  length r.1.1 = (length acc + length rest)%nat.
Proof.
  revert acc errs0 st. induction rest as [|partn rest IH]; intros acc errs0 st H; simpl in H.
  - injection H as <-. simpl. lia.
  - inv_bind H. apply IH in H. rewrite H, length_app. simpl. lia.
Qed.

Lemma placeByPartition_length `{RT : GoRuntime} (pm : PartitionMap) (st : bstate)
    (pmm : PartitionMetaMap) (strategy : string) (r : PartitionMap * list string * bstate) :
  placeByPartition pm st pmm strategy = Ret r →
  length (Partitions r.1.1) = length (Partitions pm).
Proof.
  intros H. unfold placeByPartition in H. inv_bind H. injection H as <-. simpl.
  by apply placePartitions_length in Ha.
Qed.

Lemma position_seeds_rebuild (RT : GoRuntime) (pm : PartitionMap) (s : Z) :
  position_seeds (@sort_Sort RT _ partitionList_Less (Partitions pm)) s →
  rebuild_seeds "count" pm s.
Proof.
  intros (n & partn & pass & Hn & Hpass & ->). left. split; [done|].
  exists n, partn, pass. split; [|split; [|split; [done|done]]].
  - rewrite <- (@sort_Sort_Permutation RT _ partitionList_Less (Partitions pm)).
    by eapply lookup_lt_Some.
  - rewrite <- (@sort_Sort_Permutation RT _ partitionList_Less (Partitions pm)).
    by eapply list_elem_of_lookup_2.
Qed.

Lemma Rebuild_sim (RT1 RT2 : GoRuntime) (R : @rng RT1 → @rng RT2 → Prop)
    (pm : PartitionMap) (bm : BrokerMap) (pmm : PartitionMetaMap) (strategy : string)
    (g1 : @rng RT1) (g2 : @rng RT2) :
  same_sort RT1 RT2 →
  same_shuffles RT1 RT2 (rebuild_seeds strategy pm) R →
  orel (rebuilt_sim RT1 RT2) (@Rebuild RT1 pm bm pmm strategy g1)
                             (@Rebuild RT2 pm bm pmm strategy g2).
Proof.
  intros Hsort HR. unfold Rebuild. repeat case_bool_decide.
  - subst strategy. rewrite (Hsort _ partitionList_Less (Partitions pm)). eapply orel_bind.
    + apply (placeByPosition_sim RT1 RT2 Hsort _ R HR); [done|].
      intros _ s Hs. simpl in Hs. by apply (position_seeds_rebuild RT2).
    + intros [[m1 e1] s1] [[m2 e2] s2] [[= <- <-] [Hbm _]]. simpl in *.
      split_and!; simpl; [by rewrite Hsort|done|done|done].
  - subst strategy. rewrite (Hsort _ (partitionsBySize_Less pmm) (Partitions pm)).
    set (pm1 := {| Version := Version pm;
                   Partitions := @sort_Sort RT2 _ (partitionsBySize_Less pmm)
                                   (Partitions pm) |}).
    pose proof (placeByPartition_sim RT1 RT2 Hsort _ R HR pm1
                  {| st_bm := bm; st_bl := []; st_rng := g1 |}
                  {| st_bm := bm; st_bl := []; st_rng := g2 |} pmm "storage" eq_refl)
      as Hsim.
    destruct (@placeByPartition RT1 pm1 _ pmm "storage") as [[[m1 e1] s1]|msg1|] eqn:H1;
      destruct (@placeByPartition RT2 pm1 _ pmm "storage") as [[[m2 e2] s2]|msg2|] eqn:H2;
      simpl in Hsim; try (by apply Hsim); try (exfalso; by apply Hsim).
    destruct Hsim as [[= <- <-] [Hbm _]]; [by intros [=]|]. simpl in *.
    apply placeByPartition_length in H1. simpl in H1.
    split_and!; simpl; [|done|done|done].
    rewrite Hsort. do 3 f_equal.
    apply (shuffleFrom_sim RT1 RT2 _ R HR).
    intros i Hi. right. split; [done|]. right. exists i. split; [|done].
    rewrite H1 in Hi.
    by rewrite (@sort_Sort_Permutation RT2 _ (partitionsBySize_Less pmm)) in Hi.
  - by split_and!.
Qed.



(** ** Rebuild needs every referenced broker in the broker map *)

Lemma bind_finishes {A B} (m : outcome A) (f : A → outcome B) :
  finishes m → (∀ a, finishes (f a)) → finishes (m ≫= f).
Proof. destruct m; simpl; [by auto|done..]. Qed.

Lemma finishes_cases {A} (m : outcome A) :
  finishes m → returns m ∨ panics m.
Proof. destruct m; [left|right|done]; by eexists. Qed.

Lemma deref_finishes (bm : BrokerMap) (p : ptr) : finishes (deref bm p).
Proof. unfold deref. destruct p as [id|]; [|done]. by destruct (bm !! id). Qed.

Lemma deref_ID_finishes (p : ptr) : finishes (deref_ID p).
Proof. by destruct p. Qed.

Lemma resolve_finishes (bm : BrokerMap) (bl : brokerList) : finishes (resolve bm bl).
Proof.
  induction bl as [|p bl IH]; simpl; [done|].
  apply bind_finishes; [apply deref_finishes|intros _].
  apply bind_finishes; [apply deref_ID_finishes|intros id].
  apply bind_finishes; [done|by intros ids].
Qed.

Lemma mergeConstraints_finishes (bm : BrokerMap) (bl : brokerList) :
  finishes (mergeConstraints bm bl).
Proof.
  induction bl as [|p bl IH]; simpl; [done|].
  apply bind_finishes; [apply deref_finishes|intros b].
  apply bind_finishes; [apply deref_ID_finishes|intros id].
  apply bind_finishes; [done|intros c]. by destruct (id =? StubBrokerID).
Qed.

Lemma appendReplica_finishes (n : nat) (id : Z) (parts : partitionList) :
  finishes (appendReplica n id parts).
Proof. unfold appendReplica. by destruct (parts !! n). Qed.

Section Rebuild_absent.
Context `{RT : GoRuntime}.

Lemma bestCandidate_finishes (st : bstate) (c : constraints) (by_ : string) (seed : Z) :
  finishes (bestCandidate st c by_ seed).
Proof.
  unfold bestCandidate. apply bind_finishes; [apply resolve_finishes|intros ids].
  by destruct (List.find _ _).
Qed.

Lemma findReplacement_finishes (strategy : string) (pmm : PartitionMetaMap)
    (partn : Partition) (newRs : list Z) (seed : Z) (st : bstate) :
  finishes (findReplacement strategy pmm partn newRs seed st).
Proof.
  unfold findReplacement. apply bind_finishes; [apply mergeConstraints_finishes|intros c].
  match goal with |- finishes (match ?sized with _ => _ end) => destruct sized as [e|c'] end;
    [done|].
  apply bind_finishes; [apply bestCandidate_finishes|intros r].
  destruct (r.2.2); [done|].
  apply bind_finishes; [apply deref_ID_finishes|done].
Qed.

Lemma placeAt_finishes (pmm : PartitionMetaMap) (strategy : string) (pass : Z) (n : nat)
    (partn : Partition) (s : posState) :
  finishes (placeAt pmm strategy pass n partn s).
Proof.
  unfold placeAt. set (parts := if pass =? 0 then _ else _). clearbody parts.
  destruct (pass >? len (Replicas partn) - 1); [done|].
  destruct (pass <? 0); [done|].
  destruct (Replicas partn !! Z.to_nat pass) as [bid|]; [|done].
  apply bind_finishes; [apply deref_finishes|intros b].
  destruct (negb (Replace b)).
  { apply bind_finishes; [apply appendReplica_finishes|done]. }
  destruct (parts !! n) as [newPartn|]; [|done].
  apply bind_finishes; [apply findReplacement_finishes|intros r].
  destruct (r.2); [done|].
  apply bind_finishes; [apply appendReplica_finishes|done].
Qed.

Lemma placePass_finishes (pmm : PartitionMetaMap) (strategy : string) (pass : Z)
    (rest : partitionList) (n : nat) (s : posState) :
  finishes (placePass pmm strategy pass n rest s).
Proof.
  revert n s. induction rest as [|partn rest IH]; intros n s; simpl; [done|].
  apply bind_finishes; [apply placeAt_finishes|done].
Qed.

Lemma placeReplica_finishes (pmm : PartitionMetaMap) (strategy : string)
    (partn : Partition) (bid : Z) (s : partState) :
  finishes (placeReplica pmm strategy partn bid s).
Proof.
  unfold placeReplica. apply bind_finishes; [apply deref_finishes|intros b].
  destruct (negb (Replace b)); [done|].
  apply bind_finishes; [apply findReplacement_finishes|intros r]. by destruct (r.2).
Qed.

Lemma placeReplicas_finishes (pmm : PartitionMetaMap) (strategy : string)
    (partn : Partition) (bids : list Z) (s : partState) :
  finishes (placeReplicas pmm strategy partn bids s).
Proof.
  revert s. induction bids as [|bid bids IH]; intros s; simpl; [done|].
  apply bind_finishes; [apply placeReplica_finishes|done].
Qed.

Lemma placePartitions_finishes (pmm : PartitionMetaMap) (strategy : string)
    (rest acc : partitionList) (errs0 : list string) (st : bstate) :
  finishes (placePartitions pmm strategy rest acc errs0 st).
Proof.
  revert acc errs0 st. induction rest as [|partn rest IH]; intros acc errs0 st; simpl; [done|].
  apply bind_finishes; [apply placeReplicas_finishes|done].
Qed.

Variable bm0 : BrokerMap.

Lemma deref_absent (bm : BrokerMap) (bid : Z) {B} (f : Broker → outcome B) :
  same_brokers bm0 bm → bm0 !! bid = None →
  panics (deref bm (at_key bm bid) ≫= f).
Proof.
  intros Hsame Hnone. specialize (Hsame bid). rewrite Hnone in Hsame.
  unfold at_key. destruct (bm !! bid); [done|]. by eexists.
Qed.

Lemma placeReplicas_absent (pmm : PartitionMetaMap) (strategy : string) (partn : Partition)
    (bids : list Z) (bid : Z) (s : partState) :
  bstate_ok bm0 (pt_st s) → Forall (kept bm0) (pt_replicas s) →
  bid ∈ bids → bm0 !! bid = None →
  panics (placeReplicas pmm strategy partn bids s).
Proof.
  revert s. induction bids as [|b bids IH]; intros s Hok Hrs Hin Hnone.
  - by apply elem_of_nil in Hin.
  - simpl. apply elem_of_cons in Hin as [<-|Hin].
    + apply bind_Panic. unfold placeReplica. apply deref_absent; [apply Hok|done].
    + destruct (finishes_cases _ (placeReplica_finishes pmm strategy partn b s))
        as [[s' Hs']|Hp]; [|by apply bind_Panic].
      rewrite Hs'. simpl.
      destruct (placeReplica_ok _ _ _ _ _ _ _ Hok Hrs Hs'). by apply IH.
Qed.

Lemma placePartitions_absent (pmm : PartitionMetaMap) (strategy : string)
    (rest acc : partitionList) (errs0 : list string) (st : bstate) (p : Partition) (bid : Z) :
  bstate_ok bm0 st →
  p ∈ rest → bid ∈ Replicas p → bm0 !! bid = None →
  panics (placePartitions pmm strategy rest acc errs0 st).
Proof.
  revert acc errs0 st. induction rest as [|q rest IH]; intros acc errs0 st Hok Hp Hbid Hnone.
  - by apply elem_of_nil in Hp.
  - simpl. apply elem_of_cons in Hp as [<-|Hp].
    + apply bind_Panic. by eapply placeReplicas_absent.
    + destruct (finishes_cases _ (placeReplicas_finishes pmm strategy q (Replicas q)
                  {| pt_replicas := []; pt_errs := errs0; pt_st := st |}))
        as [[s' Hs']|Hpanic]; [|by apply bind_Panic].
      rewrite Hs'. simpl.
      apply placeReplicas_ok with (bm0 := bm0) in Hs' as [Hok' _]; [|done|by constructor].
      by apply IH.
Qed.

Lemma placePass_absent_head (pmm : PartitionMetaMap) (strategy : string)
    (rest : partitionList) (n : nat) (s : posState) (p : Partition) (bid : Z) :
  bstate_ok bm0 (ps_st s) → replicas_kept bm0 (ps_parts s) →
  p ∈ rest → head (Replicas p) = Some bid → bm0 !! bid = None →
  panics (placePass pmm strategy 0 n rest s).
Proof.
  revert n s. induction rest as [|q rest IH]; intros n s Hok Hparts Hp Hbid Hnone.
  - by apply elem_of_nil in Hp.
  - simpl. apply elem_of_cons in Hp as [<-|Hp].
    + apply bind_Panic. unfold placeAt.
      destruct (Replicas p) as [|bid' rs] eqn:Hrs; [done|]. injection Hbid as ->.
      destruct (Z.gtb_spec 0 (len (bid :: rs) - 1)) as [Hgt|_];
        [unfold len in Hgt; simpl in Hgt; lia|].
      simpl. apply deref_absent; [apply Hok|done].
    + destruct (finishes_cases _ (placeAt_finishes pmm strategy 0 n q s))
        as [[s' Hs']|Hpanic]; [|by apply bind_Panic].
      rewrite Hs'. simpl.
      destruct (placeAt_ok _ _ _ _ _ _ _ _ Hok Hparts Hs'). by apply IH.
Qed.

End Rebuild_absent.

(** A replica ID with no entry in the broker map makes [Rebuild] panic:
    anywhere in the map with the storage strategy, at the head of a replica
    set with the count strategy. *)
Lemma Rebuild_absent_panics `{RT : GoRuntime}
    (pm : PartitionMap) (bm : BrokerMap) (pmm : PartitionMetaMap) (g : rng)
    (p : Partition) (bid : Z) :
  p ∈ Partitions pm → bm !! bid = None →
  (bid ∈ Replicas p → panics (Rebuild pm bm pmm "storage" g))
  ∧ (head (Replicas p) = Some bid → panics (Rebuild pm bm pmm "count" g)).
Proof.
  intros Hp Hnone. split; intros Hbid; unfold Rebuild.
  - rewrite bool_decide_eq_false_2 by done. rewrite bool_decide_eq_true_2 by done.
    apply bind_Panic. unfold placeByPartition. apply bind_Panic. simpl.
    eapply (placePartitions_absent bm); [apply filteredList_ok| |done..].
    by rewrite sort_Sort_Permutation.
  - rewrite bool_decide_eq_true_2 by done.
    apply bind_Panic. unfold placeByPosition. apply bind_Panic.
    unfold pass_budget. simpl.
    assert (p ∈ sort_Sort partitionList_Less (Partitions pm)) as Hp'
      by (by rewrite sort_Sort_Permutation).
    replace (0 <? len (sort_Sort partitionList_Less (Partitions pm))) with true.
    + apply bind_Panic.
      eapply (placePass_absent_head bm); [apply filteredList_ok|by constructor|done..].
    + symmetry. apply Z.ltb_lt. unfold len.
      destruct (sort_Sort partitionList_Less (Partitions pm)); [by apply elem_of_nil in Hp'|].
      simpl. lia.
Qed.


(** ** planRelocationsForBroker: the storage accounting of a move *)

Lemma fsub_fzero (x : float64) : fsub x fzero = x.
Proof. by destruct x as [[]| | |]. Qed.

Lemma mergeConstraints_requestSize (bm : BrokerMap) (bl : brokerList) (c : constraints) :
  mergeConstraints bm bl = Ret c → requestSize c = fzero.
Proof.
  revert c. induction bl as [|p bl IH]; intros c H; simpl in H.
  - by injection H as <-.
  - inv_bind H. inv_bind H. inv_bind H.
    destruct (a0 =? StubBrokerID); injection H as <-; simpl; by apply IH.
Qed.

Lemma same_free_alter (bm0 bm : BrokerMap) (f : Broker → Broker) (id : Z) :
  (∀ b, bm !! id = Some b → StorageFree (f b) = StorageFree b) →
  same_free bm0 bm → same_free bm0 (alter f id bm).
Proof.
  intros Hf Hsame id'. rewrite <- Hsame. destruct (decide (id = id')) as [<-|Hne].
  - rewrite lookup_alter_eq. destruct (bm !! id) eqn:Hb; simpl; [|done]. by rewrite Hf.
  - by rewrite lookup_alter_ne.
Qed.

Lemma same_free_free_of (bm0 bm : BrokerMap) (id : Z) :
  same_free bm0 bm → free_of bm id = free_of bm0 id.
Proof.
  intros Hsame. specialize (Hsame id). unfold free_of.
  destruct (bm !! id), (bm0 !! id); simpl in *; congruence.
Qed.

Lemma free_of_alter_eq (bm : BrokerMap) (f : float64) (id : Z) :
  is_Some (bm !! id) → free_of (alter (set_StorageFree f) id bm) id = f.
Proof. intros [b Hb]. unfold free_of. by rewrite lookup_alter_eq, Hb. Qed.

Lemma free_of_alter_ne (bm : BrokerMap) (g : Broker → Broker) (id id' : Z) :
  id ≠ id' → free_of (alter g id bm) id' = free_of bm id'.
Proof. intros Hne. unfold free_of. by rewrite lookup_alter_ne. Qed.

Section Rebalance_facts.
Context `{RT : GoRuntime}.
Variable bm0 : BrokerMap.

Lemma selectDest_spec (scoped : bool) (src : Z) (targetLocality : string) (p : Partition)
    (s s1 : planState) (d : ptr) :
  same_free bm0 (pl_brokers s) →
  selectDest scoped src targetLocality p s = Ret (s1, d) →
  same_free bm0 (pl_brokers s1) ∧ pl_plan s1 = pl_plan s
  ∧ ∀ dest, d = Some dest →
      is_Some (pl_brokers s1 !! dest) ∧ (scoped = true → dest ≠ src).
Proof.
  intros Hsame H. unfold selectDest in H. destruct scoped.
  - injection H as <- <-. split_and!; [done..|]. intros dest Hfind.
    apply find_some in Hfind as [_ Hpred].
    destruct (pl_brokers s !! dest) as [b|]; [|done].
    apply andb_true_iff in Hpred as [_ Hne%bool_decide_eq_true]. by split.
  - inv_bind H. inv_bind H. injection H as <- <-. simpl.
    apply mergeConstraints_requestSize in Ha.
    destruct a0 as [st' r]. simpl.
    apply bestCandidate_Ret in Ha0 as (ids & _ & _ & _ & _ & Hres). simpl in Hres.
    destruct Hres as [(id & -> & _ & Hpass & ->)|[-> ->]]; simpl.
    + unfold passes in Hpass. destruct (pl_brokers s !! id) as [b|] eqn:Hb; [|done].
      split_and!; [|done|].
      * apply same_free_alter; [|done]. intros b' _. simpl. by rewrite Ha, fsub_fzero.
      * intros dest [= <-]. split; [|done]. rewrite lookup_alter_eq, Hb. by eexists.
    + by split_and!.
Qed.

Lemma planMove_spec (fl : rebalanceFlags) (src : Z) (pmm : PartitionMetaMap)
    (meanStorageFree : float64) (targetLocality : string) (p : Partition)
    (s : planState) (step : planStep) :
  same_free bm0 (pl_brokers s) →
  planMove fl src pmm meanStorageFree targetLocality p s = Ret step →
  match step with
  | StepReturn s1 | StepContinue s1 =>
      same_free bm0 (pl_brokers s1) ∧ pl_plan s1 = pl_plan s
  | StepCommit s1 =>
      ∃ dest, committed bm0 fl src pmm meanStorageFree (pl_plan s) p dest s1
  end.
Proof.
  intros Hsame H. unfold planMove in H. inv_bind H. destruct a as [s1 d]. simpl in H.
  destruct (selectDest_spec _ _ _ _ _ _ _ Hsame Ha) as (Hsame1 & Hplan1 & Hdest).
  destruct d as [dest|]; [|by injection H as <-].
  destruct (Hdest dest eq_refl) as [Hin Hne].
  inv_bind H. rename a into sb, Ha0 into Hsb. apply deref_at_key in Hsb.
  inv_bind H. rename a into db', Ha0 into Hdb'. simpl in Hdb'.
  destruct (pl_brokers s1 !! dest) as [db|] eqn:Hdb; [|done]. injection Hdb' as <-.
  destruct (fgt _ _) eqn:Hs; [by injection H as <-|].
  destruct (flt _ _) eqn:Hd; [by injection H as <-|].
  injection H as <-. exists dest. unfold committed. simpl.
  assert (Hfs : free_of (pl_brokers s1) src = StorageFree sb).
  { unfold free_of. by rewrite Hsb. }
  assert (Hfd : free_of (pl_brokers s1) dest = StorageFree db).
  { unfold free_of. by rewrite Hdb. }
  rewrite <- !(same_free_free_of bm0 (pl_brokers s1)) by done.
  rewrite Hfs, Hfd.
  assert (is_Some (alter (set_StorageFree (fadd (StorageFree sb) (Size pmm p).1)) src
                     (pl_brokers s1) !! dest)) as Hin'.
  { destruct (decide (src = dest)) as [->|?].
    - rewrite lookup_alter_eq, Hdb. by eexists.
    - rewrite lookup_alter_ne by done. by rewrite Hdb. }
  split_and!.
  - by rewrite Hplan1.
  - specialize (Hsame1 dest). rewrite Hdb in Hsame1.
    destruct (bm0 !! dest); [by eexists|done].
  - done.
  - by rewrite free_of_alter_eq.
  - by rewrite free_of_alter_eq.
  - intros Hds. rewrite free_of_alter_ne by done.
    rewrite free_of_alter_eq by (rewrite Hsb; by eexists). done.
  - intros id Hs' Hd'. rewrite !free_of_alter_ne by done. by apply same_free_free_of.
Qed.

Lemma planLoop_spec (fl : rebalanceFlags) (src : Z) (pmm : PartitionMetaMap)
    (meanStorageFree : float64) (targetLocality : string) (topPartn : partitionList)
    (s s' : planState) (n : Z) :
  same_free bm0 (pl_brokers s) →
  planLoop fl src pmm meanStorageFree targetLocality topPartn s = Ret (n, s') →
  (n = 0 ∧ same_free bm0 (pl_brokers s') ∧ pl_plan s' = pl_plan s)
  ∨ (n = 1 ∧ ∃ p dest, p ∈ topPartn
       ∧ committed bm0 fl src pmm meanStorageFree (pl_plan s) p dest s').
Proof.
  revert s. induction topPartn as [|p rest IH]; intros s Hsame H; simpl in H.
  - injection H as <- <-. by left.
  - inv_bind H. apply planMove_spec in Ha; [|done]. destruct a as [s1|s1|s1].
    + injection H as <- <-. by left.
    + destruct Ha as [Hsame1 Hplan1].
      destruct (IH _ Hsame1 H) as [(-> & ? & ?)|(-> & q & dest & Hq & Hc)].
      * left. split_and!; [done..|]. congruence.
      * right. split; [done|]. exists q, dest. split; [by right|]. by rewrite <- Hplan1.
    + injection H as <- <-. destruct Ha as [dest Hc].
      right. split; [done|]. exists p, dest. split; [by left|done].
Qed.

End Rebalance_facts.

(** C1 (as the code has it): a call of [planRelocationsForBroker] that
    returns has planned no move and changed no [storage_free], or one
    move of a partition [p] among the source's largest to a broker [dest]:
    then [dest]'s [storage_free] is its value at the start of the call
    minus the size of [p] (float64 subtraction) and is not below
    [mean*(1-tolerance)]; when [dest] is another broker than the source,
    as it always is in locality-scoped mode, the source's [storage_free]
    is its value at the start plus the size of [p] and is not above
    [mean*(1+tolerance)]; no other broker's [storage_free] changes. The
    mean is the one computed at the start of the call. *)
Theorem planRelocationsForBroker_accounting `{RT : GoRuntime}
    (fl : rebalanceFlags) (params : planRelocationsForBrokerParams) (g : rng)
    (n : Z) (s' : planState) :
  planRelocationsForBroker fl params g = Ret (n, s') →
  (n = 0 ∧ same_free (brokers params) (pl_brokers s') ∧ pl_plan s' = plan params)
  ∨ (n = 1 ∧ ∃ p dest,
       p ∈ LargestPartitions (mappings params) (sourceID params)
             (topPartitionsLimit params) (partitionMeta params)
       ∧ committed (brokers params) fl (sourceID params) (partitionMeta params)
           (Mean (brokers params)) (plan params) p dest s').
Proof.
  intros H. unfold planRelocationsForBroker in H. inv_bind H.
  by apply planLoop_spec with (bm0 := brokers params) in H.
Qed.

Lemma planRelocationsForBroker_accounting_witness :
  ∃ s', @planRelocationsForBroker ref_runtime flags_scoped (params_pair 50) 0 = Ret (1, s')
    ∧ free_of (pl_brokers s') 1001 = float_of_Z 150
    ∧ free_of (pl_brokers s') 1002 = float_of_Z 350
    ∧ ((1 = 0 ∧ same_free bm_pair (pl_brokers s') ∧ pl_plan s' = ∅)
       ∨ (1 = 1 ∧ ∃ p dest,
            p ∈ @LargestPartitions ref_runtime {[ 1001 := [p_t0] ]} 1001 5 (pmm_size 50)
            ∧ @committed ref_runtime bm_pair flags_scoped 1001 (pmm_size 50)
                (Mean bm_pair) ∅ p dest s')).
Proof.
  destruct (observe_Some
              (λ r : Z * planState,
                 (r.1, free_of (pl_brokers r.2) 1001, free_of (pl_brokers r.2) 1002))
              (@planRelocationsForBroker ref_runtime flags_scoped (params_pair 50) 0)
              (1, float_of_Z 150, float_of_Z 350))
    as ([n s'] & Hr & Hobs); [vm_compute; reflexivity|].
  simpl in Hobs. injection Hobs as -> H1 H2.
  exists s'. split; [exact Hr|]. split; [exact H1|]. split; [exact H2|].
  exact (@planRelocationsForBroker_accounting ref_runtime flags_scoped (params_pair 50) 0 1 s' Hr).
Defined.

(** C1 as stated fails: the move of a partition of size zero is committed
    and leaves the [storage_free] of source and destination as they were,
    neither strictly increased nor strictly decreased. *)
Lemma planRelocationsForBroker_strict_counterexample :
  ∃ s', @planRelocationsForBroker ref_runtime flags_scoped (params_pair 0) 0 = Ret (1, s')
    ∧ isPlanned (pl_plan s') p_t0 = (true, (1001, 1002))
    ∧ free_of (pl_brokers s') 1001 = free_of bm_pair 1001
    ∧ free_of (pl_brokers s') 1002 = free_of bm_pair 1002
    ∧ flt (free_of bm_pair 1001) (free_of (pl_brokers s') 1001) = false
    ∧ flt (free_of (pl_brokers s') 1002) (free_of bm_pair 1002) = false.
Proof.
  destruct (observe_Some
              (λ r : Z * planState,
                 (r.1, isPlanned (pl_plan r.2) p_t0,
                  free_of (pl_brokers r.2) 1001, free_of (pl_brokers r.2) 1002))
              (@planRelocationsForBroker ref_runtime flags_scoped (params_pair 0) 0)
              (1, (true, (1001, 1002)), free_of bm_pair 1001, free_of bm_pair 1002))
    as ([n s'] & Hr & Hobs); [vm_compute; reflexivity|].
  simpl in Hobs. injection Hobs as -> H0 H1 H2.
  exists s'. rewrite H0, H1, H2. split_and!; try done; by vm_compute.
Qed.

(** ** placeByPosition: the pass budget is enough *)

Lemma wrap64_small (z : Z) : - 2 ^ 63 ≤ z < 2 ^ 63 → wrap64 z = z.
Proof.
  intros Hz. unfold wrap64. rewrite Z.mod_small by lia. lia.
Qed.

Section Pass_budget.
Context `{RT : GoRuntime}.

Lemma placeAt_skipped (pmm : PartitionMetaMap) (strategy : string) (pass : Z) (n : nat)
    (partn : Partition) (s s' : posState) :
  0 ≤ ps_skipped s < 2 ^ 63 - 1 →
  placeAt pmm strategy pass n partn s = Ret s' →
  ps_skipped s ≤ ps_skipped s' ≤ ps_skipped s + 1
  ∧ (len (Replicas partn) ≤ pass → ps_skipped s' = ps_skipped s + 1).
Proof.
  intros Hsk H. unfold placeAt in H.
  set (parts := if pass =? 0 then _ else _) in H. clearbody parts.
  destruct (Z.gtb_spec pass (len (Replicas partn) - 1)) as [Hgt|Hle].
  { injection H as <-. simpl. rewrite wrap64_small by lia. lia. }
  split; [|lia].
  destruct (pass <? 0); [done|].
  destruct (Replicas partn !! Z.to_nat pass) as [bid|]; [|done].
  inv_bind H. destruct (negb (Replace a)).
  { inv_bind H. injection H as <-. simpl. lia. }
  destruct (parts !! n) as [newPartn|]; [|done].
  inv_bind H. destruct (a0.2).
  - injection H as <-. simpl. lia.
  - inv_bind H. injection H as <-. simpl. lia.
Qed.

Lemma placePass_skipped (pmm : PartitionMetaMap) (strategy : string) (pass : Z)
    (rest : partitionList) (n : nat) (s s' : posState) :
  0 ≤ ps_skipped s → ps_skipped s + len rest < 2 ^ 63 →
  placePass pmm strategy pass n rest s = Ret s' →
  ps_skipped s ≤ ps_skipped s' ≤ ps_skipped s + len rest
  ∧ (Forall (λ partn, len (Replicas partn) ≤ pass) rest →
     ps_skipped s' = ps_skipped s + len rest).
Proof.
  revert n s. induction rest as [|partn rest IH]; intros n s Hsk Hbound H; simpl in H.
  - injection H as <-. unfold len. simpl. lia.
  - unfold len in *. simpl length in *. inv_bind H.
    apply placeAt_skipped in Ha as [Hstep Hskip]; [|lia].
    apply IH in H as [Hrest Hall]; [|lia..].
    split; [lia|]. intros [Hp Hps]%Forall_cons.
    rewrite (Hall Hps), (Hskip Hp). lia.
Qed.

Lemma placePasses_finishes (fuel : nat) (pmm : PartitionMetaMap) (strategy : string)
    (pm : PartitionMap) (pass : Z) (s : posState) :
  let longest := Z.of_nat (max_list (length ∘ Replicas <$> Partitions pm)) in
  len (Partitions pm) < 2 ^ 62 → longest < 2 ^ 62 →
  0 ≤ pass → longest < Z.of_nat fuel + pass →
  0 ≤ ps_skipped s →
  (longest < pass → len (Partitions pm) ≤ ps_skipped s) →
  finishes (placePasses fuel pmm strategy pm pass s).
Proof.
  intros longest HN HM. revert pass s.
  induction fuel as [|fuel IH]; intros pass s Hpass Hfuel Hsk Hdone; simpl.
  - destruct (Z.ltb_spec (ps_skipped s) (len (Partitions pm))) as [Hlt|_]; [|done].
    lia.
  - destruct (Z.ltb_spec (ps_skipped s) (len (Partitions pm))) as [Hlt|_]; [|done].
    assert (pass ≤ longest) as Hle by lia.
    destruct (finishes_cases _ (placePass_finishes pmm strategy pass (Partitions pm) 0 s))
      as [[s' Hs']|[msg ->]]; [|done].
    rewrite Hs'. simpl. rewrite wrap64_small by lia.
    apply placePass_skipped in Hs' as [Hmono Hall]; [|lia..].
    apply IH; [lia..|].
    intros Hlast. rewrite Hall; [lia|].
    apply Forall_forall. intros partn Hin. unfold len.
    assert (length (Replicas partn) ≤ max_list (length ∘ Replicas <$> Partitions pm))%nat.
    { apply max_list_elem_of_le, list_elem_of_fmap. by exists partn. }
    lia.
Qed.

(** [placePasses_fuel]: with the budget [placeByPosition] gives it, the
    outer loop never runs out of passes. *)
Lemma placePasses_fuel (pm : PartitionMap) (st : bstate) (pmm : PartitionMetaMap)
    (strategy : string) :
  len (Partitions pm) < 2 ^ 62 →
  Forall (λ partn, len (Replicas partn) < 2 ^ 62) (Partitions pm) →
  finishes (placeByPosition pm st pmm strategy).
Proof.
  intros HN HM. unfold placeByPosition.
  apply bind_finishes; [|done].
  assert (Z.of_nat (max_list (length ∘ Replicas <$> Partitions pm)) < 2 ^ 62) as Hlong.
  { destruct (decide (Partitions pm = [])) as [->|Hne]; [done|].
    assert (max_list (length ∘ Replicas <$> Partitions pm)
              ∈ length ∘ Replicas <$> Partitions pm) as Hin.
    { apply max_list_elem_of. by destruct (Partitions pm). }
    apply list_elem_of_fmap in Hin as (partn & -> & Hin).
    eapply Forall_forall in HM; [|done]. done. }
  apply placePasses_finishes; simpl; unfold pass_budget; try done; lia.
Qed.

End Pass_budget.

(** ** Rebuild returns when every referenced broker is in the broker map *)

Lemma returns_bind {A B} (m : outcome A) (f : A → outcome B) :
  returns m → (∀ a, m = Ret a → returns (f a)) → returns (m ≫= f).
Proof. intros [a ->] Hf. simpl. by apply Hf. Qed.

Lemma kept_present (bm0 : BrokerMap) (id : Z) : kept bm0 id → is_Some (bm0 !! id).
Proof. intros (b & -> & _). by eexists. Qed.

Lemma same_brokers_present (bm0 bm : BrokerMap) (id : Z) :
  same_brokers bm0 bm → is_Some (bm0 !! id) → is_Some (bm !! id).
Proof.
  intros Hsame [b Hb]. specialize (Hsame id). rewrite Hb in Hsame.
  destruct (bm !! id); [by eexists|done].
Qed.

Lemma at_key_Some (bm : BrokerMap) (id : Z) (b : Broker) :
  bm !! id = Some b → at_key bm id = Some id.
Proof. intros Hb. unfold at_key. by rewrite Hb. Qed.

Lemma mergeConstraints_returns (bm : BrokerMap) (ids : list Z) :
  Forall (λ id, is_Some (bm !! id)) ids →
  returns (mergeConstraints bm (at_key bm <$> ids)).
Proof.
  induction 1 as [|id ids [b Hb] _ IH]; [by eexists|].
  rewrite fmap_cons. cbn [mergeConstraints].
  rewrite (proj2 (deref_at_key _ _ _) Hb), bind_Ret_l.
  rewrite (at_key_Some _ _ _ Hb). cbn [deref_ID]. rewrite bind_Ret_l.
  destruct IH as [c ->]. rewrite bind_Ret_l. destruct (id =? StubBrokerID); by eexists.
Qed.

Lemma resolve_returns (bm : BrokerMap) (ids : list Z) :
  Forall (λ id, is_Some (bm !! id)) ids → resolve bm (Some <$> ids) = Ret ids.
Proof.
  induction 1 as [|id ids [b Hb] _ IH]; [done|].
  rewrite fmap_cons. cbn [resolve deref deref_ID]. rewrite Hb, !bind_Ret_l.
  by rewrite IH.
Qed.

Section Rebuild_returns.
Context `{RT : GoRuntime}.
Variable bm0 : BrokerMap.

Lemma bstate_ok_bl (st : bstate) :
  bstate_ok bm0 st →
  ∃ ids, st_bl st = Some <$> ids ∧ Forall (λ id, is_Some (st_bm st !! id)) ids.
Proof.
  intros [Hsame Hbl]. induction Hbl as [|p bl (id & -> & Hc) _ (ids & -> & Hids)].
  - by exists [].
  - exists (id :: ids). split; [done|]. constructor; [|done].
    eapply same_brokers_present; [done|]. by apply kept_present, is_candidate_kept.
Qed.

Lemma bestCandidate_returns (st : bstate) (c : constraints) (by_ : string) (seed : Z) :
  bstate_ok bm0 st → returns (bestCandidate st c by_ seed).
Proof.
  intros (ids & Hbl & Hids)%bstate_ok_bl. unfold bestCandidate.
  rewrite Hbl, resolve_returns by done. simpl.
  destruct (List.find _ _); by eexists.
Qed.

Lemma findReplacement_returns (strategy : string) (pmm : PartitionMetaMap)
    (partn : Partition) (newRs : list Z) (seed : Z) (st : bstate) :
  bstate_ok bm0 st →
  Forall (λ id, is_Some (bm0 !! id)) (Replicas partn) →
  Forall (λ id, is_Some (bm0 !! id)) newRs →
  returns (findReplacement strategy pmm partn newRs seed st).
Proof.
  intros Hok Hold Hnew. unfold findReplacement. rewrite <- fmap_app.
  apply returns_bind.
  { apply mergeConstraints_returns, Forall_app. destruct Hok as [Hsame _].
    split; (eapply Forall_impl; [done|]); intros id; by apply same_brokers_present. }
  intros c _.
  match goal with |- returns (match ?sized with _ => _ end) => destruct sized as [e|c'] end;
    [by eexists|].
  apply returns_bind; [by apply bestCandidate_returns|].
  intros [st' [p err]] Hbc. simpl.
  destruct err; [by eexists|].
  apply bestCandidate_Ret in Hbc as (_ & _ & _ & _ & _ & [(id & [= -> ] & _)|[[=] _]]).
  by eexists.
Qed.

Lemma placeReplica_returns (pmm : PartitionMetaMap) (strategy : string) (partn : Partition)
    (bid : Z) (s : partState) :
  bstate_ok bm0 (pt_st s) → Forall (kept bm0) (pt_replicas s) →
  Forall (λ id, is_Some (bm0 !! id)) (Replicas partn) → is_Some (bm0 !! bid) →
  returns (placeReplica pmm strategy partn bid s).
Proof.
  intros Hok Hrs Hold Hbid. unfold placeReplica.
  destruct (same_brokers_present _ _ _ (proj1 Hok) Hbid) as [b Hb].
  rewrite (proj2 (deref_at_key _ _ _) Hb). simpl.
  destruct (negb (Replace b)); [by eexists|].
  apply returns_bind.
  { apply findReplacement_returns; [done..|].
    eapply Forall_impl; [done|]. intros id. apply kept_present. }
  intros r _. destruct (r.2); by eexists.
Qed.

Lemma placeReplicas_returns (pmm : PartitionMetaMap) (strategy : string) (partn : Partition)
    (bids : list Z) (s : partState) :
  bstate_ok bm0 (pt_st s) → Forall (kept bm0) (pt_replicas s) →
  Forall (λ id, is_Some (bm0 !! id)) (Replicas partn) →
  Forall (λ id, is_Some (bm0 !! id)) bids →
  returns (placeReplicas pmm strategy partn bids s).
Proof.
  intros Hok Hrs Hold Hbids. revert s Hok Hrs.
  induction Hbids as [|bid bids Hbid _ IH]; intros s Hok Hrs; simpl; [by eexists|].
  apply returns_bind; [by apply placeReplica_returns|].
  intros s' Hs'. destruct (placeReplica_ok _ _ _ _ _ _ _ Hok Hrs Hs'). by apply IH.
Qed.

Lemma placePartitions_returns (pmm : PartitionMetaMap) (strategy : string)
    (rest acc : partitionList) (errs0 : list string) (st : bstate) :
  bstate_ok bm0 st →
  Forall (λ partn, Forall (λ id, is_Some (bm0 !! id)) (Replicas partn)) rest →
  returns (placePartitions pmm strategy rest acc errs0 st).
Proof.
  intros Hok Hrest. revert acc errs0 st Hok.
  induction Hrest as [|partn rest Hp _ IH]; intros acc errs0 st Hok; simpl; [by eexists|].
  apply returns_bind; [by apply placeReplicas_returns|].
  intros s' Hs'.
  apply placeReplicas_ok with (bm0 := bm0) in Hs' as [Hok' _]; [|done|by constructor].
  by apply IH.
Qed.

Lemma placeAt_returns (pmm : PartitionMetaMap) (strategy : string) (pass : Z) (n : nat)
    (partn : Partition) (s : posState) :
  bstate_ok bm0 (ps_st s) → replicas_kept bm0 (ps_parts s) →
  Forall (λ id, is_Some (bm0 !! id)) (Replicas partn) →
  0 ≤ pass →
  (if pass =? 0 then length (ps_parts s) = n else (n < length (ps_parts s))%nat) →
  ∃ s', placeAt pmm strategy pass n partn s = Ret s'
    ∧ length (ps_parts s') = if pass =? 0 then S n else length (ps_parts s).
Proof.
  intros Hok Hparts Hold Hpass Hlen. unfold placeAt.
  set (parts := if pass =? 0 then _ else _).
  assert (replicas_kept bm0 parts ∧ (n < length parts)%nat
          ∧ length parts = if pass =? 0 then S n else length (ps_parts s))
    as (Hparts0 & Hn & Hlen0).
  { subst parts. destruct (pass =? 0).
    - rewrite length_app. simpl. split_and!; [|lia..].
      apply Forall_app. split; [done|]. by repeat constructor.
    - by split_and!. }
  clearbody parts.
  destruct (Z.gtb_spec pass (len (Replicas partn) - 1)) as [Hgt|Hle]; [by eexists|].
  destruct (Z.ltb_spec pass 0) as [?|_]; [lia|].
  destruct (lookup_lt_is_Some_2 (Replicas partn) (Z.to_nat pass)) as [bid Hbid];
    [unfold len in Hle; lia|].
  rewrite Hbid.
  assert (is_Some (bm0 !! bid)) as Hpres.
  { eapply Forall_forall in Hold; [done|]. by eapply list_elem_of_lookup_2. }
  destruct (same_brokers_present _ _ _ (proj1 Hok) Hpres) as [b Hb].
  rewrite (proj2 (deref_at_key _ _ _) Hb). simpl.
  destruct (lookup_lt_is_Some_2 parts n Hn) as [newPartn HnewPartn].
  destruct (negb (Replace b)).
  { unfold appendReplica. rewrite HnewPartn. simpl. eexists. split; [done|].
    simpl. by rewrite length_insert. }
  rewrite HnewPartn.
  destruct (findReplacement_returns strategy pmm partn (Replicas newPartn)
              (wrap64 (pass * Z.of_nat n + 1)) (ps_st s)) as [r ->]; [done..| |].
  { eapply Forall_impl; [|intros id; apply kept_present].
    by apply (Forall_lookup_1 _ _ _ _ Hparts0 HnewPartn). }
  simpl. destruct (r.2) as [e|id].
  - eexists. split; [done|]. done.
  - unfold appendReplica. rewrite HnewPartn. simpl. eexists. split; [done|].
    simpl. by rewrite length_insert.
Qed.

Lemma placePass_returns (pmm : PartitionMetaMap) (strategy : string) (pass : Z)
    (rest : partitionList) (n : nat) (s : posState) :
  bstate_ok bm0 (ps_st s) → replicas_kept bm0 (ps_parts s) →
  Forall (λ partn, Forall (λ id, is_Some (bm0 !! id)) (Replicas partn)) rest →
  0 ≤ pass →
  (if pass =? 0 then length (ps_parts s) = n
   else length (ps_parts s) = (n + length rest)%nat) →
  ∃ s', placePass pmm strategy pass n rest s = Ret s'
    ∧ length (ps_parts s') = (n + length rest)%nat.
Proof.
  intros Hok Hparts Hrest Hpass. revert n s Hok Hparts.
  induction Hrest as [|partn rest Hp _ IH]; intros n s Hok Hparts Hlen; simpl.
  - exists s. split; [done|]. simpl in Hlen. destruct (pass =? 0); lia.
  - destruct (placeAt_returns pmm strategy pass n partn s) as (s1 & Hs1 & Hlen1); [done..| |].
    { destruct (pass =? 0); [done|]. simpl in Hlen. lia. }
    rewrite Hs1. simpl.
    destruct (placeAt_ok _ _ _ _ _ _ _ _ Hok Hparts Hs1) as [Hok1 Hparts1].
    destruct (IH (S n) s1) as (s' & Hs' & Hlen'); [done..| |].
    { rewrite Hlen1. destruct (pass =? 0); [done|]. simpl in Hlen. lia. }
    exists s'. split; [done|]. lia.
Qed.

Lemma placePasses_no_panic (fuel : nat) (pmm : PartitionMetaMap) (strategy : string)
    (pm : PartitionMap) (pass : Z) (s : posState) :
  bstate_ok bm0 (ps_st s) → replicas_kept bm0 (ps_parts s) →
  Forall (λ partn, Forall (λ id, is_Some (bm0 !! id)) (Replicas partn)) (Partitions pm) →
  0 ≤ pass → pass + Z.of_nat fuel < 2 ^ 63 →
  (if pass =? 0 then length (ps_parts s) = 0%nat
   else length (ps_parts s) = length (Partitions pm)) →
  ¬ panics (placePasses fuel pmm strategy pm pass s).
Proof.
  intros Hok Hparts Hpm. revert pass s Hok Hparts.
  induction fuel as [|fuel IH]; intros pass s Hok Hparts Hpass Hfuel Hlen; simpl;
    destruct (ps_skipped s <? len (Partitions pm)); try by intros [? [=]].
  destruct (placePass_returns pmm strategy pass (Partitions pm) 0 s) as (s' & Hs' & Hlen');
    [done..|].
  rewrite Hs'. simpl. rewrite wrap64_small by lia.
  destruct (placePass_ok _ _ _ _ _ _ _ _ Hok Hparts Hs') as [Hok' Hparts'].
  apply IH; [done|done|lia|lia|].
  destruct (Z.eqb_spec (pass + 1) 0); [lia|done].
Qed.

End Rebuild_returns.

Lemma Rebuild_present_returns `{RT : GoRuntime}
    (pm : PartitionMap) (bm : BrokerMap) (pmm : PartitionMetaMap) (strategy : string)
    (g : rng) :
  Forall (λ partn, Forall (λ id, is_Some (bm !! id)) (Replicas partn)) (Partitions pm) →
  len (Partitions pm) < 2 ^ 62 →
  Forall (λ partn, len (Replicas partn) < 2 ^ 62) (Partitions pm) →
  returns (Rebuild pm bm pmm strategy g).
Proof.
  intros Hpres HN HM. unfold Rebuild. repeat case_bool_decide.
  - set (pm1 := {| Version := Version pm;
                   Partitions := sort_Sort partitionList_Less (Partitions pm) |}).
    assert (Hperm : Partitions pm1 ≡ₚ Partitions pm) by apply sort_Sort_Permutation.
    assert (Hpres1 : Forall (λ partn, Forall (λ id, is_Some (bm !! id)) (Replicas partn))
                            (Partitions pm1)) by (by rewrite Hperm).
    assert (HM1 : Forall (λ partn, len (Replicas partn) < 2 ^ 62) (Partitions pm1))
      by (by rewrite Hperm).
    assert (HN1 : len (Partitions pm1) < 2 ^ 62) by (unfold len; by rewrite Hperm).
    apply returns_bind; [|by eexists].
    destruct (finishes_cases _ (placePasses_fuel pm1 {| st_bm := bm; st_bl := []; st_rng := g |}
                                  pmm strategy HN1 HM1)) as [?|Hpanic]; [done|].
    exfalso. unfold placeByPosition in Hpanic.
    destruct (placePasses _ _ _ _ _ _) as [s'|msg|] eqn:Hloop;
      [by destruct Hpanic| |by destruct Hpanic].
    eapply (placePasses_no_panic bm); [| | | | | |by eexists];
      [apply filteredList_ok|by constructor|done|done| |done].
    unfold pass_budget.
    assert (Z.of_nat (max_list (length ∘ Replicas <$> Partitions pm1)) < 2 ^ 62); [|lia].
    destruct (decide (Partitions pm1 = [])) as [->|Hne]; [done|].
    assert (max_list (length ∘ Replicas <$> Partitions pm1)
              ∈ length ∘ Replicas <$> Partitions pm1) as Hin.
    { apply max_list_elem_of. by destruct (Partitions pm1). }
    apply list_elem_of_fmap in Hin as (partn & -> & Hin).
    eapply Forall_forall in HM1; [|done]. done.
  - apply returns_bind; [|by eexists].
    unfold placeByPartition. apply returns_bind; [|by eexists].
    apply (placePartitions_returns bm); [apply filteredList_ok|]. simpl.
    by rewrite sort_Sort_Permutation.
  - by eexists.
Qed.

(** C9: [Rebuild] reads [bm[bid].Replace] without a presence check. A
    replica ID with no entry in the broker map makes the call panic on the
    nil broker: anywhere in the partition map with the storage strategy,
    at the head of a replica set with the count strategy. Presence of every
    referenced ID is the precondition: with it (and slices that fit in
    memory) the call returns, whatever the strategy. *)
Theorem Rebuild_requires_brokers `{RT : GoRuntime}
    (pm : PartitionMap) (bm : BrokerMap) (pmm : PartitionMetaMap) (g : rng) :
  (∀ p bid, p ∈ Partitions pm → bm !! bid = None →
     (bid ∈ Replicas p → panics (Rebuild pm bm pmm "storage" g))
     ∧ (head (Replicas p) = Some bid → panics (Rebuild pm bm pmm "count" g)))
  ∧ ((∀ p bid, p ∈ Partitions pm → bid ∈ Replicas p → is_Some (bm !! bid)) →
     len (Partitions pm) < 2 ^ 62 →
     (∀ p, p ∈ Partitions pm → len (Replicas p) < 2 ^ 62) →
     ∀ strategy, returns (Rebuild pm bm pmm strategy g)).
Proof.
  split.
  - intros p bid Hp Hnone. by apply Rebuild_absent_panics.
  - intros Hpres HN HM strategy. apply Rebuild_present_returns; [|done|].
    + apply Forall_forall. intros p Hp. apply Forall_forall. intros bid Hbid. by eapply Hpres.
    + by apply Forall_forall.
Qed.

Lemma Rebuild_requires_brokers_witness :
  panics (@Rebuild ref_runtime pm_padded bm_no_stub ∅ "storage" 0)
  ∧ returns (@Rebuild ref_runtime pm_padded bm_mock ∅ "storage" 0).
Proof.
  split.
  - apply (proj1 (proj1 (@Rebuild_requires_brokers ref_runtime pm_padded bm_no_stub ∅ 0)
                    {| Topic := "t"; PartitionN := 0; Replicas := [1001; 0] |} 0
                    ltac:(by left) ltac:(by vm_compute))).
    by right; left.
  - apply (proj2 (@Rebuild_requires_brokers ref_runtime pm_padded bm_mock ∅ 0)).
    + intros p bid ->%list_elem_of_singleton Hbid. simpl in Hbid.
      apply elem_of_cons in Hbid as [->|Hbid]; [by vm_compute; eexists|].
      apply list_elem_of_singleton in Hbid as ->. by vm_compute; eexists.
    + by vm_compute.
    + intros p ->%list_elem_of_singleton. by vm_compute.
Defined.

(** * More properties of the code *)

(** ** Copy and Strip *)

Lemma copy_ints_make (rs : list Z) : copy_ints (make_ints (len rs)) rs = rs.
Proof.
  unfold copy_ints, make_ints, len. rewrite Nat2Z.id, length_replicate.
  rewrite firstn_all, drop_ge by (rewrite length_replicate; lia).
  apply app_nil_r.
Qed.

Lemma copyPartition_id (p : Partition) : copyPartition p = p.
Proof. unfold copyPartition. rewrite copy_ints_make. by destruct p. Qed.

Lemma equalPartitionsFrom_refl (ps : partitionList) :
  equalPartitionsFrom 0 ps ps = Ret (true, None).
Proof.
  destruct (equalPartitionsFrom_spec ps 0 ps) as [[_ H]|(j & p1 & p2 & reason & _ & H1 & H2 & Hmm & _)];
    [done|done|].
  simpl in H2. rewrite H1 in H2. injection H2 as <-.
  by apply partition_mismatch_neq in Hmm.
Qed.

(** X1: [Copy] returns the partitions of the receiver, in order and with
    their replica lists, but always at version 1: compared with [equal],
    a copy equals its original when the original has version 1 and
    differs in "version" otherwise. *)
Theorem Copy_equal (pm : PartitionMap) :
  Partitions (Copy pm) = Partitions pm
  ∧ Version (Copy pm) = 1
  ∧ (Version pm = 1 → equal pm (Copy pm) = Ret (true, None))
  ∧ (Version pm ≠ 1 → equal pm (Copy pm) = Ret (false, Some "version"%string)).
Proof.
  assert (Hparts : Partitions (Copy pm) = Partitions pm).
  { unfold Copy. simpl. rewrite <- (list_fmap_id (Partitions pm)) at 2.
    apply list_fmap_ext. intros _ p _. apply copyPartition_id. }
  split_and!; [done|done|..]; intros Hv; unfold equal; rewrite Hparts.
  - rewrite bool_decide_eq_false_2 by (by intros []).
    rewrite bool_decide_eq_false_2 by (by intros []).
    apply equalPartitionsFrom_refl.
  - rewrite bool_decide_eq_false_2 by (by intros []).
    by rewrite bool_decide_eq_true_2.
Qed.

Lemma Copy_equal_witness :
  equal pm_t (Copy pm_t) = Ret (true, None)
  ∧ equal {| Version := 2; Partitions := Partitions pm_t |}
          (Copy {| Version := 2; Partitions := Partitions pm_t |})
    = Ret (false, Some "version"%string).
Proof.
  split.
  - apply (proj1 (proj2 (proj2 (Copy_equal pm_t)))). reflexivity.
  - apply (proj2 (proj2 (proj2 (Copy_equal {| Version := 2; Partitions := Partitions pm_t |})))).
    simpl. lia.
Defined.

Lemma make_ints_len {A} (l : list A) : make_ints (len l) = replicate (length l) 0.
Proof. unfold make_ints, len. by rewrite Nat2Z.id. Qed.

Lemma stripPartition_idemp (p : Partition) :
  stripPartition (stripPartition p) = stripPartition p.
Proof.
  unfold stripPartition. simpl. by rewrite !make_ints_len, length_replicate.
Qed.

(** X2: [Strip] keeps version 1, the topics, the partition indices, the
    order and the length of every replica list, and every replica slot of
    the result is the stub ID 0; stripping a stripped map or a copy gives
    the same map as stripping the original. *)
Theorem Strip_stubs (pm : PartitionMap) :
  Version (Strip pm) = 1
  ∧ Topic <$> Partitions (Strip pm) = Topic <$> Partitions pm
  ∧ PartitionN <$> Partitions (Strip pm) = PartitionN <$> Partitions pm
  ∧ (length ∘ Replicas) <$> Partitions (Strip pm) = (length ∘ Replicas) <$> Partitions pm
  ∧ Forall (λ p, Forall (λ id, id = StubBrokerID) (Replicas p)) (Partitions (Strip pm))
  ∧ Strip (Strip pm) = Strip pm
  ∧ Strip (Copy pm) = Strip pm.
Proof.
  unfold Strip. simpl. split_and!; try done.
  - rewrite <- list_fmap_compose. by apply list_fmap_ext.
  - rewrite <- list_fmap_compose. by apply list_fmap_ext.
  - rewrite <- list_fmap_compose. apply list_fmap_ext. intros _ p _. simpl.
    by rewrite make_ints_len, length_replicate.
  - apply Forall_fmap, Forall_true. intros p. simpl. rewrite make_ints_len.
    apply Forall_replicate. done.
  - f_equal. rewrite <- list_fmap_compose. apply list_fmap_ext.
    intros _ p _. apply stripPartition_idemp.
  - f_equal. rewrite <- list_fmap_compose. apply list_fmap_ext.
    intros _ p _. simpl. by rewrite copyPartition_id.
Qed.

(** ** SetReplication at its edges *)

Lemma truncate_or_pad_idemp (r : nat) (p : Partition) :
  truncate_or_pad r (truncate_or_pad r p) = truncate_or_pad r p.
Proof.
  unfold truncate_or_pad at 1. rewrite truncate_or_pad_length.
  rewrite take_ge by (by rewrite truncate_or_pad_length).
  replace (r - r)%nat with 0%nat by lia. simpl. rewrite app_nil_r.
  by destruct p.
Qed.

(** X3: a negative replication factor makes [SetReplication] panic on the
    slice bound as soon as the map has a partition; on a map without
    partitions it returns and changes nothing. *)
Theorem SetReplication_negative (pm : PartitionMap) (r : Z) :
  r < 0 →
  (Partitions pm ≠ [] → SetReplication pm r = Panic slice_bounds)
  ∧ (Partitions pm = [] → SetReplication pm r = Ret pm).
Proof.
  intros Hr. unfold SetReplication. destruct (Z.eqb_spec r 0) as [?|_]; [lia|].
  destruct pm as [v [|p ps]]; simpl; split; try done; intros _.
  unfold setReplication1, slice_to.
  destruct (Z.gtb_spec (len (Replicas p)) r) as [_|Hle]; [|unfold len in Hle; lia].
  by destruct (Z.ltb_spec r 0) as [_|?]; [|lia].
Qed.

Lemma SetReplication_negative_witness :
  SetReplication pm_t (-1) = Panic slice_bounds
  ∧ SetReplication NewPartitionMap (-1) = Ret NewPartitionMap.
Proof.
  split.
  - apply (proj1 (SetReplication_negative pm_t (-1) ltac:(lia))). done.
  - apply (proj2 (SetReplication_negative NewPartitionMap (-1) ltac:(lia))). done.
Defined.

(** X4: setting the same positive replication factor twice is the same as
    setting it once, and [SetReplication] commutes with [Strip]: the
    stripped map set to [r] is the map set to [r] and then stripped. *)
Theorem SetReplication_idempotent_Strip (pm : PartitionMap) (r : Z) :
  0 < r →
  ∃ pm', SetReplication pm r = Ret pm'
    ∧ SetReplication pm' r = Ret pm'
    ∧ ∃ pm'', SetReplication (Strip pm) r = Ret pm''
        ∧ Partitions pm'' = Partitions (Strip pm')
        ∧ Forall (λ p, Replicas p = replicate (Z.to_nat r) StubBrokerID) (Partitions pm'').
Proof.
  intros Hr. unfold SetReplication.
  destruct (Z.eqb_spec r 0) as [?|_]; [lia|].
  rewrite !setReplicationLoop_pos by done. simpl.
  eexists. split; [done|]. simpl. rewrite setReplicationLoop_pos by done. simpl.
  split.
  { do 2 f_equal. rewrite <- list_fmap_compose. apply list_fmap_ext.
    intros _ p _. apply truncate_or_pad_idemp. }
  eexists. split; [done|]. simpl.
  assert (Hstub : ∀ p, Replicas (truncate_or_pad (Z.to_nat r) (stripPartition p))
                       = replicate (Z.to_nat r) StubBrokerID).
  { intros p. simpl. rewrite make_ints_len, length_replicate, take_replicate.
    rewrite <- replicate_add. f_equal. lia. }
  split.
  - rewrite <- !list_fmap_compose. apply list_fmap_ext. intros _ p _.
    unfold compose.
    transitivity {| Topic := Topic p; PartitionN := PartitionN p;
                    Replicas := replicate (Z.to_nat r) StubBrokerID |}.
    + unfold truncate_or_pad at 1. f_equal. exact (Hstub p).
    + unfold stripPartition at 1. rewrite make_ints_len, truncate_or_pad_length. done.
  - rewrite Forall_fmap. apply Forall_fmap, Forall_true. intros p. apply Hstub.
Qed.

Lemma SetReplication_idempotent_Strip_witness :
  ∃ pm', SetReplication pm_uneven 2 = Ret pm'
    ∧ SetReplication pm' 2 = Ret pm'
    ∧ ∃ pm'', SetReplication (Strip pm_uneven) 2 = Ret pm''
        ∧ Partitions pm'' = Partitions (Strip pm')
        ∧ Forall (λ p, Replicas p = replicate (Z.to_nat 2) StubBrokerID) (Partitions pm'').
Proof. apply (SetReplication_idempotent_Strip pm_uneven 2). lia. Defined.

(** ** Slice comparison *)

Lemma slicesEqualFrom_spec {A} `{EqDecision A} (rest : list A) (i : nat) (s2 : list A) :
  (i + length rest = length s2)%nat →
  slicesEqualFrom i rest s2 = Ret (bool_decide (rest = drop i s2)).
Proof.
  revert i. induction rest as [|x rest IH]; intros i Hlen; simpl in *.
  - rewrite drop_ge by lia. by rewrite bool_decide_eq_true_2.
  - destruct (lookup_lt_is_Some_2 s2 i) as [y Hy]; [lia|].
    rewrite Hy, (drop_S _ _ _ Hy). case_bool_decide as Hne.
    + rewrite bool_decide_eq_false_2; [done|]. intros [= ? _]. done.
    + subst y. rewrite IH by lia.
      f_equal. apply bool_decide_ext. split; [by intros ->|by intros [= ->]].
Qed.

(** X5: [intsEqual] and [stringsEqual] never index out of range and
    return true exactly when the two slices have the same elements in the
    same order. *)
Theorem slicesEqual_correct :
  (∀ s1 s2 : list Z, intsEqual s1 s2 = Ret (bool_decide (s1 = s2)))
  ∧ (∀ s1 s2 : list string, stringsEqual s1 s2 = Ret (bool_decide (s1 = s2))).
Proof.
  split; intros s1 s2; unfold intsEqual, stringsEqual, len;
    (case_bool_decide as Hlen;
     [rewrite bool_decide_eq_false_2; [done|]; intros ->; lia|]);
    apply Nat2Z.inj in Hlen;
    rewrite slicesEqualFrom_spec by done; by rewrite drop_0.
Qed.

(** ** The relocation plan *)

(** X6: a relocation plan is keyed by topic and partition index: what
    [add] records for a partition is what [isPlanned] reports for every
    partition of that topic and index, whatever its replicas (a later
    [add] for the same key replaces the earlier pair), other partitions
    are reported as before, and nothing is planned in an empty plan. *)
Theorem relocationPlan_add_isPlanned (r : relocationPlan) (p q : Partition) (ids : Z * Z) :
  isPlanned ∅ q = (false, (0, 0))
  ∧ isPlanned (relocationPlan_add r p ids) q
    = if bool_decide (Topic q = Topic p ∧ PartitionN q = PartitionN p)
      then (true, ids) else isPlanned r q.
Proof.
  split; [done|]. unfold isPlanned, relocationPlan_add.
  destruct (decide (Topic q = Topic p)) as [Ht|Ht].
  - rewrite Ht, lookup_insert_eq.
    destruct (decide (PartitionN q = PartitionN p)) as [Hn|Hn].
    + rewrite Hn, lookup_insert_eq. by rewrite bool_decide_eq_true_2.
    + rewrite lookup_insert_ne by done.
      rewrite bool_decide_eq_false_2 by (by intros [_ ?]).
      destruct (r !! Topic p); simpl; [done|]. by rewrite lookup_empty.
  - rewrite lookup_insert_ne by done.
    by rewrite bool_decide_eq_false_2 by (by intros [? _]).
Qed.

Lemma replace_all_length (src dst : Z) (rs : list Z) :
  length (replace_all src dst rs) = length rs.
Proof. unfold replace_all. apply length_fmap. Qed.

Lemma elem_of_replace_all (src dst id : Z) (rs : list Z) :
  id ∈ replace_all src dst rs ↔ (id = dst ∧ src ∈ rs) ∨ (id ≠ src ∧ id ∈ rs).
Proof.
  unfold replace_all. rewrite list_elem_of_fmap. split.
  - intros (r & -> & Hr). destruct (Z.eqb_spec r src) as [->|Hne]; [by left|by right].
  - intros [[-> Hin]|[Hne Hin]].
    + exists src. by rewrite Z.eqb_refl.
    + exists id. split; [|done]. by destruct (Z.eqb_spec id src).
Qed.

(** X7: after [applyRelocationPlan] (without the leader optimisation) a
    partition with a planned move to another broker no longer lists its
    source; it has the same topic, index and number of replicas, lists
    the destination if it listed the source, and lists every other broker
    exactly if it did before. *)
Theorem applyRelocationPlan_moves_off_source
    (SimpleLeaderOptimization : PartitionMap → PartitionMap)
    (pm : PartitionMap) (plan : relocationPlan) (i : nat) (partn : Partition) (src dst : Z) :
  Partitions pm !! i = Some partn →
  isPlanned plan partn = (true, (src, dst)) →
  src ≠ dst →
  ∃ partn', Partitions (applyRelocationPlan SimpleLeaderOptimization false pm plan) !! i
            = Some partn'
    ∧ Topic partn' = Topic partn ∧ PartitionN partn' = PartitionN partn
    ∧ length (Replicas partn') = length (Replicas partn)
    ∧ (src ∉ Replicas partn')
    ∧ (src ∈ Replicas partn → dst ∈ Replicas partn')
    ∧ ∀ id, id ≠ src → id ≠ dst → (id ∈ Replicas partn' ↔ id ∈ Replicas partn).
Proof.
  intros Hi Hplan Hne. unfold applyRelocationPlan. simpl.
  rewrite list_lookup_fmap, Hi. simpl. eexists. split; [done|].
  unfold applyTo. rewrite Hplan. simpl.
  rewrite replaceFrom_spec by done. rewrite take_0, drop_0. simpl.
  split_and!; try done.
  - apply replace_all_length.
  - rewrite elem_of_replace_all. intros [[? _]|[? _]]; congruence.
  - intros Hin. apply elem_of_replace_all. by left.
  - intros id Hs Hd. rewrite elem_of_replace_all. split; [|by right].
    intros [[? _]|[_ ?]]; [congruence|done].
Qed.

Lemma applyRelocationPlan_moves_off_source_witness :
  ∃ partn', Partitions (applyRelocationPlan id false pm_dup plan_dup) !! 0%nat = Some partn'
    ∧ Topic partn' = "t"%string ∧ PartitionN partn' = 0
    ∧ length (Replicas partn') = 3%nat
    ∧ (1001 ∉ Replicas partn')
    ∧ (1001 ∈ [1001; 1002; 1001] → 1003 ∈ Replicas partn')
    ∧ ∀ id, id ≠ 1001 → id ≠ 1003 → (id ∈ Replicas partn' ↔ id ∈ [1001; 1002; 1001]).
Proof.
  apply (applyRelocationPlan_moves_off_source id pm_dup plan_dup 0
           {| Topic := "t"; PartitionN := 0; Replicas := [1001; 1002; 1001] |} 1001 1003).
  - reflexivity.
  - by vm_compute.
  - lia.
Defined.

(** ** shuffle *)

Lemma shuffleFrom_permutes `{RT : GoRuntime} (ps : partitionList) (n : nat) (g : rng) :
  Forall2 (λ p q, Topic q = Topic p ∧ PartitionN q = PartitionN p
                  ∧ Replicas q ≡ₚ Replicas p)
          ps (shuffleFrom n ps g).1.
Proof.
  revert n g. induction ps as [|p ps IH]; intros n g; simpl; [constructor|].
  constructor; [|apply IH]. simpl. split_and!; [done..|].
  apply apply_swaps_Permutation.
Qed.

(** X8: [shuffle] only rearranges replicas inside their partition: the
    version, the number and order of the partitions, their topics and
    indices stay, and every replica list is a permutation of what it was,
    whatever the generator does. *)
Theorem shuffle_permutes_replicas `{RT : GoRuntime} (pm : PartitionMap) (g : rng) :
  Version (shuffle pm g).1 = Version pm
  ∧ Forall2 (λ p q, Topic q = Topic p ∧ PartitionN q = PartitionN p
                    ∧ Replicas q ≡ₚ Replicas p)
            (Partitions pm) (Partitions (shuffle pm g).1).
Proof. split; [done|]. apply shuffleFrom_permutes. Qed.

(** ** absDistance *)

(** X9: [absDistance] divides by the target without a guard: for a target
    of zero the distance of a finite non-zero value is an infinity and
    that of zero is NaN; the distance of a finite non-zero value to itself
    is a zero. *)
Theorem absDistance_edges :
  (∀ s m e sz, absDistance (S754_finite s m e) (S754_zero sz) = S754_infinity sz)
  ∧ (∀ sx sz, absDistance (S754_zero sx) (S754_zero sz) = S754_nan)
  ∧ (∀ s m e, absDistance (S754_finite s m e) (S754_finite s m e) = S754_zero s).
Proof.
  split_and!.
  - intros s m e sz. unfold absDistance, fdiv, fsub. simpl. by destruct sz.
  - intros [] []; reflexivity.
  - intros s m e. unfold absDistance, fdiv, fsub. cbn [SFsub].
    rewrite Z.min_id. unfold shl_align. rewrite Z.sub_diag. cbn [fst].
    rewrite ?Z.sub_diag. cbn. by destruct s.
Qed.

(** ** UseStats *)

Lemma useStatsAt_lookup (i : nat) (b b' : Z) (stats : gmap Z BrokerUseStats) :
  (is_Some (useStatsAt i b stats !! b') ↔ b' = b ∨ is_Some (stats !! b'))
  ∧ lead_of (useStatsAt i b stats) b'
    = (if bool_decide (b' = b ∧ i = 0%nat) then wrap64 (lead_of stats b' + 1)
       else lead_of stats b')
  ∧ follow_of (useStatsAt i b stats) b'
    = (if bool_decide (b' = b ∧ i ≠ 0%nat) then wrap64 (follow_of stats b' + 1)
       else follow_of stats b').
Proof.
  unfold useStatsAt, lead_of, follow_of.
  destruct (decide (b' = b)) as [->|Hne].
  - rewrite lookup_alter_eq.
    destruct (stats !! b) as [s|] eqn:Hs; [rewrite Hs|rewrite lookup_insert_eq]; simpl;
      (split; [split; [by left|by eexists]|]);
      destruct (decide (i = 0%nat)) as [->|Hi];
      rewrite ?bool_decide_eq_true_2, ?bool_decide_eq_false_2 by naive_solver;
      simpl; rewrite ?bool_decide_eq_true_2, ?bool_decide_eq_false_2 by naive_solver; done.
  - rewrite lookup_alter_ne by done.
    rewrite !bool_decide_eq_false_2 by naive_solver.
    destruct (stats !! b) as [s|] eqn:Hs; [|rewrite lookup_insert_ne by done];
      (split; [|done]); naive_solver.
Qed.

Lemma useStatsFrom_followers (rs : list Z) (i : nat) (stats : gmap Z BrokerUseStats) (k : Z) :
  i ≠ 0%nat → stats_below k stats → k + len rs < 2 ^ 63 →
  ∀ b, (is_Some (useStatsFrom i rs stats !! b) ↔ b ∈ rs ∨ is_Some (stats !! b))
       ∧ lead_of (useStatsFrom i rs stats) b = lead_of stats b
       ∧ follow_of (useStatsFrom i rs stats) b
         = follow_of stats b + Z.of_nat (count_occ Z.eq_dec rs b).
Proof.
  revert i stats k. induction rs as [|r rs IH]; intros i stats k Hi Hk Hbound b.
  - simpl. split_and!; [|done|lia]. rewrite elem_of_nil. naive_solver.
  - cbn [useStatsFrom]. unfold len in *. simpl length in Hbound.
    assert (stats_below (k + 1) (useStatsAt i r stats)) as Hk'.
    { intros b'. destruct (useStatsAt_lookup i r b' stats) as (_ & -> & ->).
      destruct (Hk b') as [??].
      rewrite bool_decide_eq_false_2 by naive_solver.
      case_bool_decide; [rewrite wrap64_small by lia|]; lia. }
    destruct (IH (S i) _ (k + 1) ltac:(lia) Hk' ltac:(lia) b) as (Hdom & Hl & Hf).
    destruct (useStatsAt_lookup i r b stats) as (Hdom1 & Hl1 & Hf1).
    rewrite Hl, Hf, Hl1, Hf1, Hdom, Hdom1, elem_of_cons.
    rewrite bool_decide_eq_false_2 by naive_solver.
    split_and!; [naive_solver|done|].
    destruct (Hk b) as [??]. simpl.
    destruct (Z.eq_dec r b) as [->|Hne].
    + rewrite bool_decide_eq_true_2 by done. rewrite wrap64_small by lia. lia.
    + rewrite bool_decide_eq_false_2 by naive_solver. lia.
Qed.

Lemma useStatsFrom_0 (rs : list Z) (stats : gmap Z BrokerUseStats) (k : Z) :
  stats_below k stats → k + len rs < 2 ^ 63 →
  stats_below (k + len rs) (useStatsFrom 0 rs stats)
  ∧ ∀ b, (is_Some (useStatsFrom 0 rs stats !! b) ↔ b ∈ rs ∨ is_Some (stats !! b))
       ∧ lead_of (useStatsFrom 0 rs stats) b
         = lead_of stats b + (if bool_decide (head rs = Some b) then 1 else 0)
       ∧ follow_of (useStatsFrom 0 rs stats) b
         = follow_of stats b + Z.of_nat (count_occ Z.eq_dec (tail rs) b).
Proof.
  intros Hk Hbound.
  assert (Hall : ∀ b, (is_Some (useStatsFrom 0 rs stats !! b) ↔ b ∈ rs ∨ is_Some (stats !! b))
       ∧ lead_of (useStatsFrom 0 rs stats) b
         = lead_of stats b + (if bool_decide (head rs = Some b) then 1 else 0)
       ∧ follow_of (useStatsFrom 0 rs stats) b
         = follow_of stats b + Z.of_nat (count_occ Z.eq_dec (tail rs) b)).
  { intros b. destruct rs as [|r rs].
    - cbn [useStatsFrom head tail count_occ].
      rewrite (bool_decide_eq_false_2 (None = Some b)) by done.
      split_and!; [|lia|simpl; lia]. rewrite elem_of_nil. tauto.
    - cbn [useStatsFrom head tail]. unfold len in *. simpl length in Hbound.
      assert (stats_below (k + 1) (useStatsAt 0 r stats)) as Hk'.
      { intros b'. destruct (useStatsAt_lookup 0 r b' stats) as (_ & -> & ->).
        destruct (Hk b') as [??].
        rewrite (bool_decide_eq_false_2 (_ ∧ 0%nat ≠ 0%nat)) by naive_solver.
        case_bool_decide; [rewrite wrap64_small by lia|]; lia. }
      destruct (useStatsFrom_followers rs 1 _ (k + 1) ltac:(lia) Hk' ltac:(unfold len; lia) b)
        as (Hdom & Hl & Hf).
      destruct (useStatsAt_lookup 0 r b stats) as (Hdom1 & Hl1 & Hf1).
      rewrite Hl, Hf, Hl1, Hf1, Hdom, Hdom1, elem_of_cons.
      rewrite (bool_decide_eq_false_2 (_ ∧ 0%nat ≠ 0%nat)) by naive_solver.
      split_and!; [naive_solver| |done].
      destruct (Hk b) as [??].
      destruct (decide (r = b)) as [->|Hne].
      + rewrite !bool_decide_eq_true_2 by done. rewrite wrap64_small by lia. done.
      + rewrite !bool_decide_eq_false_2 by naive_solver. lia. }
  split; [|done]. intros b. destruct (Hall b) as (_ & -> & ->). destruct (Hk b) as [??].
  assert (count_occ Z.eq_dec (tail rs) b ≤ length (tail rs))%nat by apply count_occ_bound.
  assert (length (tail rs) ≤ length rs)%nat by (destruct rs; simpl; lia).
  assert (head rs = Some b → 1 ≤ length rs)%nat by (destruct rs; simpl; [done|lia]).
  unfold len. split; [|lia].
  case_bool_decide as Hh; [specialize (H3 Hh)|]; lia.
Qed.

Lemma UseStats_fold (ps : partitionList) (stats : gmap Z BrokerUseStats) (k : Z) :
  stats_below k stats → k + Z.of_nat (replica_slots ps) < 2 ^ 63 →
  ∀ b,
    let stats' := foldl (λ stats p, useStatsFrom 0 (Replicas p) stats) stats ps in
    (is_Some (stats' !! b) ↔ (∃ p, p ∈ ps ∧ b ∈ Replicas p) ∨ is_Some (stats !! b))
    ∧ lead_of stats' b = lead_of stats b + Z.of_nat (leader_count ps b)
    ∧ follow_of stats' b = follow_of stats b + Z.of_nat (follower_count ps b).
Proof.
  revert stats k. induction ps as [|p ps IH]; intros stats k Hk Hbound b; simpl.
  - split_and!; [|unfold leader_count; simpl; lia|unfold follower_count; simpl; lia].
    split; [by right|]. intros [(p & Hp & _)|?]; [by apply elem_of_nil in Hp|done].
  - unfold replica_slots in Hbound. rewrite fmap_cons in Hbound. simpl in Hbound.
    destruct (useStatsFrom_0 (Replicas p) stats k Hk) as [Hk' Hstep]; [unfold len; lia|].
    destruct (Hstep b) as (Hdom1 & Hl1 & Hf1).
    destruct (IH _ _ Hk' ltac:(unfold replica_slots, len; lia) b) as (Hdom & Hl & Hf).
    rewrite Hdom, Hl, Hf, Hdom1, Hl1, Hf1. split_and!.
    + split.
      * intros [(q & Hq & Hb)|[Hb|Hb]]; [left; exists q; split; [by right|done]
                                         |left; exists p; split; [by left|done]|by right].
      * intros [(q & [->|Hq]%elem_of_cons & Hb)|Hb]; [by right; left| |by right; right].
        left. by exists q.
    + unfold leader_count. simpl. case_bool_decide; simpl; lia.
    + unfold follower_count. rewrite fmap_cons. simpl. lia.
Qed.

(** X10: [UseStats] has an entry exactly for the brokers that appear in
    some replica list; the entry's leader count is the number of
    partitions with the broker at index 0 and its follower count the
    number of replica slots after index 0 that hold the broker (for maps
    whose replica slots can be counted in an [int]). *)
Theorem UseStats_counts (pm : PartitionMap) (b : Z) :
  Z.of_nat (replica_slots (Partitions pm)) < 2 ^ 63 →
  (is_Some (UseStats pm !! b) ↔ ∃ p, p ∈ Partitions pm ∧ b ∈ Replicas p)
  ∧ lead_of (UseStats pm) b = Z.of_nat (leader_count (Partitions pm) b)
  ∧ follow_of (UseStats pm) b = Z.of_nat (follower_count (Partitions pm) b).
Proof.
  intros Hbound. unfold UseStats.
  destruct (UseStats_fold (Partitions pm) ∅ 0) with (b := b) as (Hdom & Hl & Hf).
  { intros b'. unfold lead_of, follow_of. rewrite lookup_empty. simpl. lia. }
  { lia. }
  simpl in *. rewrite Hdom, Hl, Hf. unfold lead_of, follow_of. rewrite lookup_empty. simpl.
  split_and!; [|lia..]. split; [|by left]. intros [?|[? ?]]; done.
Qed.

Lemma UseStats_counts_witness :
  (is_Some (UseStats pm_t !! 1002) ↔ ∃ p, p ∈ Partitions pm_t ∧ 1002 ∈ Replicas p)
  ∧ lead_of (UseStats pm_t) 1002 = Z.of_nat (leader_count (Partitions pm_t) 1002)
  ∧ follow_of (UseStats pm_t) 1002 = Z.of_nat (follower_count (Partitions pm_t) 1002).
Proof. apply (UseStats_counts pm_t 1002). by vm_compute. Defined.

(** ** Rebuild: what it returns and what it leaves *)

Lemma sum_list_perm (l l' : list nat) : l ≡ₚ l' → sum_list l = sum_list l'.
Proof. induction 1; simpl; lia. Qed.

Lemma replica_slots_perm (ps ps' : partitionList) :
  ps ≡ₚ ps' → replica_slots ps = replica_slots ps'.
Proof. intros Hp. unfold replica_slots. apply sum_list_perm. by rewrite Hp. Qed.

Lemma replica_slots_app (ps ps' : partitionList) :
  replica_slots (ps ++ ps') = (replica_slots ps + replica_slots ps')%nat.
Proof.
  unfold replica_slots. rewrite fmap_app.
  induction (length ∘ Replicas <$> ps) as [|n l IH]; simpl; lia.
Qed.

Lemma empty_sets_perm (ps ps' : partitionList) :
  ps ≡ₚ ps' → length (empty_sets ps) = length (empty_sets ps').
Proof.
  unfold empty_sets. induction 1 as [|p ps ps' _ IH|p q ps|ps1 ps2 ps3 _ IH1 _ IH2]; simpl.
  - done.
  - destruct (len (Replicas p) =? 0); simpl; lia.
  - destruct (len (Replicas p) =? 0), (len (Replicas q) =? 0); simpl; lia.
  - lia.
Qed.

Lemma Forall2_shuffled_slots (ps qs : partitionList) :
  Forall2 (λ p q, Topic q = Topic p ∧ PartitionN q = PartitionN p
                  ∧ Replicas q ≡ₚ Replicas p) ps qs →
  partition_key <$> qs = partition_key <$> ps
  ∧ replica_slots qs = replica_slots ps
  ∧ length (empty_sets qs) = length (empty_sets ps).
Proof.
  unfold replica_slots, empty_sets.
  induction 1 as [|p q ps qs (Ht & Hn & Hr) _ (IH1 & IH2 & IH3)]; [done|].
  rewrite !fmap_cons. simpl. rewrite IH1, IH2. unfold partition_key at 1 3. rewrite Ht, Hn.
  split_and!; [done|by rewrite Hr|].
  assert (len (Replicas q) = len (Replicas p)) as -> by (unfold len; by rewrite Hr).
  destruct (len (Replicas p) =? 0); simpl; lia.
Qed.

(** X11: the map [Rebuild] returns has version 1 and is in canonical
    order, topic ascending then partition index ascending, for both
    strategies; the receiver is left with its own partitions rearranged:
    in canonical order after a count rebuild, as [sort.Sort] with the
    order by size leaves them after a storage rebuild. *)
Theorem Rebuild_canonical `{RT : GoRuntime}
    (pm : PartitionMap) (bm : BrokerMap) (pmm : PartitionMetaMap)
    (strategy : string) (g : rng) (r : rebuilt) (m : PartitionMap) :
  Rebuild pm bm pmm strategy g = Ret r →
  newMap r = Some m →
  Version m = 1
  ∧ StronglySorted canonical_le (Partitions m)
  ∧ Version (pm_after r) = Version pm
  ∧ Partitions (pm_after r) ≡ₚ Partitions pm
  ∧ (strategy = "count"%string → StronglySorted canonical_le (Partitions (pm_after r)))
  ∧ (strategy = "storage"%string →
     Partitions (pm_after r) = sort_Sort (partitionsBySize_Less pmm) (Partitions pm)).
Proof.
  intros H Hm. unfold Rebuild in H. repeat case_bool_decide.
  - inv_bind H. injection H as <-. simpl in *. injection Hm as <-. simpl.
    unfold placeByPosition in Ha. inv_bind Ha. injection Ha as <-. simpl.
    split_and!; [done|apply sort_Sort_canonical|done|apply sort_Sort_Permutation| |].
    + intros _. apply sort_Sort_canonical.
    + intros ->. done.
  - inv_bind H. injection H as <-. simpl in *. injection Hm as <-. simpl.
    unfold placeByPartition in Ha. inv_bind Ha. injection Ha as <-. simpl.
    split_and!; [done|apply sort_Sort_canonical|done|apply sort_Sort_Permutation|done|done].
  - injection H as <-. done.
Qed.

Lemma Rebuild_canonical_witness :
  ∃ r m, @Rebuild ref_runtime pm_t bm_replace_1003 pmm_t "storage" 0 = Ret r
    ∧ newMap r = Some m
    ∧ Version m = 1
    ∧ StronglySorted canonical_le (Partitions m)
    ∧ Version (pm_after r) = Version pm_t
    ∧ Partitions (pm_after r) ≡ₚ Partitions pm_t
    ∧ ("storage"%string = "count"%string → StronglySorted canonical_le (Partitions (pm_after r)))
    ∧ ("storage"%string = "storage"%string →
       Partitions (pm_after r)
       = @sort_Sort ref_runtime _ (partitionsBySize_Less pmm_t) (Partitions pm_t)).
Proof.
  destruct (observe_Some (λ r, bool_decide (is_Some (newMap r)))
              (@Rebuild ref_runtime pm_t bm_replace_1003 pmm_t "storage" 0) true)
    as (r & Hr & Hm); [vm_compute; reflexivity|].
  apply bool_decide_eq_true in Hm as [m Hm].
  exists r, m. split; [exact Hr|]. split; [exact Hm|].
  exact (@Rebuild_canonical ref_runtime pm_t bm_replace_1003 pmm_t "storage" 0 r m Hr Hm).
Defined.

Lemma max_length_bound (K : Z) (ps : partitionList) :
  0 < K → Forall (λ partn, len (Replicas partn) < K) ps →
  Z.of_nat (max_list (length ∘ Replicas <$> ps)) < K.
Proof.
  intros HK. induction 1 as [|p ps Hp _ IH]; [simpl; lia|].
  unfold len in Hp. simpl.
  change (list_fmap Partition nat (length ∘ Replicas) ps) with (length ∘ Replicas <$> ps).
  revert IH. generalize (max_list (length ∘ Replicas <$> ps)). intros n Hn. lia.
Qed.

(** ** The storage placement: every replica is placed or reported *)

Section Storage_accounting.
Context `{RT : GoRuntime}.

Lemma placeReplica_accounting (pmm : PartitionMetaMap) (strategy : string)
    (partn : Partition) (bid : Z) (s s' : partState) :
  placeReplica pmm strategy partn bid s = Ret s' →
  (length (pt_replicas s') + length (pt_errs s')
   = S (length (pt_replicas s) + length (pt_errs s)))%nat.
Proof.
  intros H. unfold placeReplica in H. inv_bind H.
  destruct (negb (Replace a)).
  - injection H as <-. simpl. rewrite length_app. simpl. lia.
  - inv_bind H. destruct (a0.2); injection H as <-; simpl; rewrite length_app; simpl; lia.
Qed.

Lemma placeReplicas_accounting (pmm : PartitionMetaMap) (strategy : string)
    (partn : Partition) (bids : list Z) (s s' : partState) :
  placeReplicas pmm strategy partn bids s = Ret s' →
  (length (pt_replicas s') + length (pt_errs s')
   = length bids + (length (pt_replicas s) + length (pt_errs s)))%nat.
Proof.
  revert s. induction bids as [|bid bids IH]; intros s H; simpl in H.
  - by injection H as <-.
  - inv_bind H. apply placeReplica_accounting in Ha. apply IH in H. simpl. lia.
Qed.

Lemma placePartitions_accounting (pmm : PartitionMetaMap) (strategy : string)
    (rest acc : partitionList) (errs0 : list string) (st : bstate)
    (r : partitionList * list string * bstate) :
  placePartitions pmm strategy rest acc errs0 st = Ret r →
  (replica_slots r.1.1 + length r.1.2
   = replica_slots rest + (replica_slots acc + length errs0))%nat.
Proof.
  revert acc errs0 st. induction rest as [|partn rest IH]; intros acc errs0 st H; simpl in H.
  - injection H as <-. simpl. change (replica_slots []) with 0%nat. lia.
  - inv_bind H. apply IH in H. apply placeReplicas_accounting in Ha. simpl in Ha.
    rewrite H, replica_slots_app.
    change (replica_slots (partn :: rest))
      with (length (Replicas partn) + replica_slots rest)%nat.
    change (replica_slots [?q]) with (length (Replicas q) + 0)%nat.
    simpl Replicas. lia.
Qed.

Lemma placeReplicas_kept_exact (pmm : PartitionMetaMap) (strategy : string)
    (partn : Partition) (bids : list Z) (s : partState) :
  Forall (kept (st_bm (pt_st s))) bids →
  placeReplicas pmm strategy partn bids s
  = Ret {| pt_replicas := pt_replicas s ++ bids; pt_errs := pt_errs s; pt_st := pt_st s |}.
Proof.
  revert s. induction bids as [|bid bids IH]; intros s Hk; simpl.
  - rewrite app_nil_r. by destruct s.
  - apply Forall_cons in Hk as [(b & Hb & Hrep) Hk].
    unfold placeReplica at 1. unfold at_key. rewrite Hb. simpl. rewrite Hb. simpl.
    rewrite Hrep. simpl. rewrite IH by done. simpl. by rewrite <- app_assoc.
Qed.

Lemma placePartitions_kept_exact (pmm : PartitionMetaMap) (strategy : string)
    (rest acc : partitionList) (errs0 : list string) (st : bstate) :
  replicas_kept (st_bm st) rest →
  placePartitions pmm strategy rest acc errs0 st = Ret (acc ++ rest, errs0, st).
Proof.
  revert acc. induction rest as [|partn rest IH]; intros acc Hk; simpl.
  - by rewrite app_nil_r.
  - apply Forall_cons in Hk as [Hp Hk].
    rewrite placeReplicas_kept_exact by done. simpl. rewrite IH by done.
    rewrite <- app_assoc. by destruct partn.
Qed.

End Storage_accounting.

(** X12: the storage strategy accounts for every replica: the replicas
    of the returned map and the errors together are the replicas of the
    receiver, one error more for each returned partition without
    replica. *)
Theorem Rebuild_storage_accounting `{RT : GoRuntime}
    (pm : PartitionMap) (bm : BrokerMap) (pmm : PartitionMetaMap)
    (g : rng) (r : rebuilt) (m : PartitionMap) :
  Rebuild pm bm pmm "storage" g = Ret r →
  newMap r = Some m →
  (replica_slots (Partitions m) + length (errs r)
   = replica_slots (Partitions pm) + length (empty_sets (Partitions m)))%nat.
Proof.
  intros H Hm. unfold Rebuild in H. simpl in H.
  inv_bind H. injection H as <-. simpl in *. injection Hm as <-. simpl.
  unfold placeByPartition in Ha. inv_bind Ha. injection Ha as <-. simpl.
  apply placePartitions_accounting in Ha0. simpl in Ha0.
  rewrite (replica_slots_perm _ _ (sort_Sort_Permutation _ _ _)).
  rewrite (empty_sets_perm _ _ (sort_Sort_Permutation _ _ _)).
  destruct (Forall2_shuffled_slots _ _ (shuffleFrom_permutes a0.1.1 0 (st_rng a0.2)))
    as (_ & -> & ->).
  rewrite (replica_slots_perm _ _ (sort_Sort_Permutation _ _ _)) in Ha0.
  unfold zeroReplicaErrors. rewrite length_app, length_fmap.
  unfold empty_sets. lia.
Qed.

Lemma Rebuild_storage_accounting_witness :
  ∃ r m, @Rebuild ref_runtime pm_t bm_replace_1003 pmm_t "storage" 0 = Ret r
    ∧ newMap r = Some m
    ∧ (replica_slots (Partitions m) + length (errs r)
       = replica_slots (Partitions pm_t) + length (empty_sets (Partitions m)))%nat.
Proof.
  destruct (observe_Some (λ r, bool_decide (is_Some (newMap r)))
              (@Rebuild ref_runtime pm_t bm_replace_1003 pmm_t "storage" 0) true)
    as (r & Hr & Hm); [vm_compute; reflexivity|].
  apply bool_decide_eq_true in Hm as [m Hm].
  exists r, m. split; [exact Hr|]. split; [exact Hm|].
  exact (@Rebuild_storage_accounting ref_runtime pm_t bm_replace_1003 pmm_t 0 r m Hr Hm).
Defined.

(** X13: a storage rebuild with nothing to replace. When every replica
    is a broker of the map that is not marked for replacement, [Rebuild]
    returns, leaves the broker map as it was (no broker takes a
    partition), reports only the partitions without replica, and returns
    the partitions of the receiver with the replicas of each in some
    order. *)
Theorem Rebuild_storage_nothing_to_replace `{RT : GoRuntime}
    (pm : PartitionMap) (bm : BrokerMap) (pmm : PartitionMetaMap) (g : rng) :
  replicas_kept bm (Partitions pm) →
  ∃ r m ps,
    Rebuild pm bm pmm "storage" g = Ret r
    ∧ newMap r = Some m
    ∧ bm_after r = bm
    ∧ errs r = zeroReplicaErrors (Partitions (pm_after r))
    ∧ ps ≡ₚ Partitions pm
    ∧ Forall2 (λ p q, Topic q = Topic p ∧ PartitionN q = PartitionN p
                      ∧ Replicas q ≡ₚ Replicas p) ps (Partitions m).
Proof.
  intros Hk. unfold Rebuild. simpl.
  set (sized := sort_Sort (partitionsBySize_Less pmm) (Partitions pm)).
  assert (Hsized : sized ≡ₚ Partitions pm) by apply sort_Sort_Permutation.
  unfold placeByPartition. simpl.
  rewrite placePartitions_kept_exact by (unfold replicas_kept; by rewrite Hsized).
  simpl.
  pose proof (shuffleFrom_permutes sized 0 g) as Hsh.
  apply Forall2_flip in Hsh.
  destruct (Permutation_Forall2
              (Permutation_sym (sort_Sort_Permutation _ partitionList_Less
                                  (shuffleFrom 0 sized g).1)) Hsh) as (ps & Hps & Hf).
  eexists _, _, ps. split_and!; try done.
  - by rewrite <- Hps.
  - by apply Forall2_flip.
Qed.

Lemma Rebuild_storage_nothing_to_replace_witness :
  ∃ r m ps,
    @Rebuild ref_runtime pm_t bm_mock pmm_t "storage" 0 = Ret r
    ∧ newMap r = Some m
    ∧ bm_after r = bm_mock
    ∧ errs r = zeroReplicaErrors (Partitions (pm_after r))
    ∧ ps ≡ₚ Partitions pm_t
    ∧ Forall2 (λ p q, Topic q = Topic p ∧ PartitionN q = PartitionN p
                      ∧ Replicas q ≡ₚ Replicas p) ps (Partitions m).
Proof.
  apply (@Rebuild_storage_nothing_to_replace ref_runtime pm_t bm_mock pmm_t 0).
  repeat (constructor; try (apply is_kept_kept; by vm_compute)).
Defined.

(** ** planRelocationsForBroker: the maps it keeps *)

Section Rebalance_books.
Context `{RT : GoRuntime}.

Lemma selectDest_books (scoped : bool) (src : Z) (targetLocality : string) (p : Partition)
    (s : planState) (r : planState * ptr) :
  selectDest scoped src targetLocality p s = Ret r →
  pl_relos r.1 = pl_relos s ∧ pl_mappings r.1 = pl_mappings s ∧ pl_plan r.1 = pl_plan s.
Proof.
  intros H. unfold selectDest in H. destruct scoped.
  - by injection H as <-.
  - inv_bind H. inv_bind H. by injection H as <-.
Qed.

Lemma planMove_books (fl : rebalanceFlags) (src : Z) (pmm : PartitionMetaMap)
    (meanStorageFree : float64) (targetLocality : string) (p : Partition)
    (s : planState) (step : planStep) :
  planMove fl src pmm meanStorageFree targetLocality p s = Ret step →
  match step with
  | StepReturn s1 | StepContinue s1 =>
      pl_relos s1 = pl_relos s ∧ pl_mappings s1 = pl_mappings s ∧ pl_plan s1 = pl_plan s
  | StepCommit s1 =>
      ∃ dest,
        pl_relos s1 = <[src := default [] (pl_relos s !! src)
                               ++ [{| partition := p; destination := dest |}]]> (pl_relos s)
        ∧ pl_mappings s1 = Mappings_Remove (pl_mappings s) src p
        ∧ pl_plan s1 = relocationPlan_add (pl_plan s) p (src, dest)
  end.
Proof.
  intros H. unfold planMove in H. inv_bind H.
  apply selectDest_books in Ha as (Hr & Hm & Hp).
  destruct (a.2) as [dest|]; [|by injection H as <-].
  inv_bind H. inv_bind H.
  destruct (fgt _ _); [by injection H as <-|].
  destruct (flt _ _); [by injection H as <-|].
  injection H as <-. exists dest. simpl. by rewrite Hr, Hm, Hp.
Qed.

Lemma planLoop_books (fl : rebalanceFlags) (src : Z) (pmm : PartitionMetaMap)
    (meanStorageFree : float64) (targetLocality : string) (topPartn : partitionList)
    (s s' : planState) (n : Z) :
  planLoop fl src pmm meanStorageFree targetLocality topPartn s = Ret (n, s') →
  (n = 0 ∧ pl_relos s' = pl_relos s ∧ pl_mappings s' = pl_mappings s)
  ∨ (n = 1 ∧ ∃ p dest, p ∈ topPartn
       ∧ pl_relos s' = <[src := default [] (pl_relos s !! src)
                                ++ [{| partition := p; destination := dest |}]]> (pl_relos s)
       ∧ pl_mappings s' = Mappings_Remove (pl_mappings s) src p
       ∧ pl_plan s' = relocationPlan_add (pl_plan s) p (src, dest)).
Proof.
  revert s. induction topPartn as [|p rest IH]; intros s H; simpl in H.
  - injection H as <- <-. by left.
  - inv_bind H. apply planMove_books in Ha. destruct a as [s1|s1|s1].
    + injection H as <- <-. left. by destruct Ha as (? & ? & ?).
    + destruct Ha as (Hr & Hm & Hp).
      destruct (IH _ H) as [(-> & ? & ?)|(-> & q & dest & Hq & Hc)].
      * left. split_and!; congruence.
      * right. split; [done|]. exists q, dest. split; [by right|].
        by rewrite <- Hr, <- Hm, <- Hp.
    + injection H as <- <-. destruct Ha as [dest Hc].
      right. split; [done|]. exists p, dest. split; [by left|done].
Qed.

End Rebalance_books.

Lemma same_partition_refl (p : Partition) : same_partition p p = true.
Proof. unfold same_partition. by rewrite bool_decide_eq_true_2, Z.eqb_refl. Qed.

(** X14: the books of [planRelocationsForBroker]. A call returns only
    for a source broker of the map, with 0 or 1. With 0 the relocations
    and the mappings are as they were. With 1 there are a partition [p],
    which was mapped to the source, and a broker [dest] such that the
    relocations of the source have got [p -> dest] at their end and those
    of the other brokers are as they were, [p] is planned from the source
    to [dest], and [p] is no longer mapped to the source, so that a later
    call does not move it again. *)
Theorem planRelocationsForBroker_books `{RT : GoRuntime}
    (fl : rebalanceFlags) (params : planRelocationsForBrokerParams) (g : rng)
    (n : Z) (s' : planState) :
  planRelocationsForBroker fl params g = Ret (n, s') →
  is_Some (brokers params !! sourceID params)
  ∧ ((n = 0 ∧ pl_relos s' = relos params ∧ pl_mappings s' = mappings params)
     ∨ (n = 1 ∧ ∃ p dest,
          p ∈ default [] (mappings params !! sourceID params)
          ∧ pl_relos s' !! sourceID params
            = Some (default [] (relos params !! sourceID params)
                    ++ [{| partition := p; destination := dest |}])
          ∧ (∀ id, id ≠ sourceID params → pl_relos s' !! id = relos params !! id)
          ∧ isPlanned (pl_plan s') p = (true, (sourceID params, dest))
          ∧ pl_mappings s' = Mappings_Remove (mappings params) (sourceID params) p
          ∧ p ∉ default [] (pl_mappings s' !! sourceID params))).
Proof.
  intros H. unfold planRelocationsForBroker in H. inv_bind H.
  split.
  { unfold at_key in Ha. destruct (brokers params !! sourceID params); [by eexists|done]. }
  apply planLoop_books in H as [?|(-> & p & dest & Hp & Hr & Hm & Hpl)]; [by left|].
  right. split; [done|]. exists p, dest. simpl in *. split_and!.
  - unfold LargestPartitions in Hp.
    apply list_elem_of_lookup in Hp as [i Hi]. apply lookup_take_Some in Hi as [Hi _].
    apply list_elem_of_lookup_2 in Hi. by rewrite sort_Sort_Permutation in Hi.
  - by rewrite Hr, lookup_insert_eq.
  - intros id Hid. by rewrite Hr, lookup_insert_ne.
  - rewrite Hpl. unfold isPlanned, relocationPlan_add.
    by rewrite lookup_insert_eq, lookup_insert_eq.
  - done.
  - rewrite Hm. unfold Mappings_Remove. rewrite lookup_alter_eq.
    destruct (mappings params !! sourceID params) as [l|]; simpl; [|by apply not_elem_of_nil].
    intros Hin%list_elem_of_In%filter_In. destruct Hin as [_ Hin].
    by rewrite same_partition_refl in Hin.
Qed.

Lemma planRelocationsForBroker_books_witness :
  ∃ s', @planRelocationsForBroker ref_runtime flags_scoped (params_pair 50) 0 = Ret (1, s')
    ∧ is_Some (bm_pair !! 1001)
    ∧ ((1 = 0 ∧ pl_relos s' = ∅ ∧ pl_mappings s' = {[ 1001 := [p_t0] ]})
       ∨ (1 = 1 ∧ ∃ p dest,
            p ∈ default [] (({[ 1001 := [p_t0] ]} : Mappings) !! 1001)
            ∧ pl_relos s' !! 1001
              = Some (default [] ((∅ : gmap Z (list relocation)) !! 1001)
                      ++ [{| partition := p; destination := dest |}])
            ∧ (∀ id, id ≠ 1001 → pl_relos s' !! id = (∅ : gmap Z (list relocation)) !! id)
            ∧ isPlanned (pl_plan s') p = (true, (1001, dest))
            ∧ pl_mappings s' = Mappings_Remove {[ 1001 := [p_t0] ]} 1001 p
            ∧ p ∉ default [] (pl_mappings s' !! 1001))).
Proof.
  destruct (observe_Some (λ r, r.1)
              (@planRelocationsForBroker ref_runtime flags_scoped (params_pair 50) 0) 1)
    as ([n s'] & Hr & Hn); [vm_compute; reflexivity|].
  simpl in Hn. subst n. exists s'. split; [exact Hr|].
  exact (@planRelocationsForBroker_books ref_runtime flags_scoped (params_pair 50) 0 1 s' Hr).
Defined.

(** ** removeTopics, stripPendingDeletes and PartitionMapFromZK *)

Lemma filter_all_true {A} (f : A → bool) (l : list A) :
  (∀ x, f x = true) → List.filter f l = l.
Proof. intros Hf. induction l as [|x l IH]; simpl; [done|]. by rewrite Hf, IH. Qed.

Lemma filter_ext_eq {A} (f g : A → bool) (l : list A) :
  (∀ x, f x = g x) → List.filter f l = List.filter g l.
Proof. intros Hfg. induction l as [|x l IH]; simpl; [done|]. by rewrite Hfg, IH. Qed.

Section Metadata_facts.
Context `{RT : GoRuntime} `{RX : GoRegexp} `{MR : GoMapRange}.

Lemma matchFrom_spec (res : list Regexp) (lenr i : Z) (p : Partition) (s : removal) :
  lenr = i + len res →
  matchFrom lenr i (Some <$> res) p s
  = Ret (if matches_any res p
         then {| rm_newPL := rm_newPL s; rm_removed := {[ Topic p ]} ∪ rm_removed s |}
         else match res with
              | [] => s
              | _ => {| rm_newPL := rm_newPL s ++ [p]; rm_removed := rm_removed s |}
              end).
Proof.
  revert i s. induction res as [|re res IH]; intros i s Hlen; [done|].
  rewrite fmap_cons. cbn [matchFrom matches_any existsb].
  destruct (MatchString re (Topic p)); [done|]. cbn [orb].
  unfold len in Hlen. rewrite length_cons in Hlen.
  rewrite IH by (unfold len; lia). fold (matches_any res p).
  destruct res as [|re' res].
  - simpl. replace (i =? lenr - 1) with true; [done|].
    symmetry. apply Z.eqb_eq. simpl in Hlen. lia.
  - replace (i =? lenr - 1) with false; [|symmetry; apply Z.eqb_neq; simpl in Hlen; lia].
    by destruct (matches_any (re' :: res) p).
Qed.

Lemma removeLoop_spec (res : list Regexp) (ps : partitionList) (s : removal) :
  res ≠ [] →
  ∃ s', removeLoop (Some <$> res) ps s = Ret s'
    ∧ rm_newPL s' = rm_newPL s ++ List.filter (λ p, negb (matches_any res p)) ps
    ∧ ∀ t, t ∈ rm_removed s'
           ↔ t ∈ rm_removed s ∨ ∃ p, p ∈ ps ∧ Topic p = t ∧ matches_any res p = true.
Proof.
  intros Hres. revert s. induction ps as [|p ps IH]; intros s.
  - exists s. simpl. rewrite app_nil_r. split_and!; [done..|].
    intros t. split; [by left|]. intros [?|(p & Hp & _)]; [done|by apply elem_of_nil in Hp].
  - cbn [removeLoop]. rewrite matchFrom_spec by (unfold len; rewrite length_fmap; lia).
    rewrite bind_Ret_l.
    destruct (IH (if matches_any res p
         then {| rm_newPL := rm_newPL s; rm_removed := {[ Topic p ]} ∪ rm_removed s |}
         else match res with
              | [] => s
              | _ => {| rm_newPL := rm_newPL s ++ [p]; rm_removed := rm_removed s |}
              end)) as (s' & -> & Hpl & Hrm).
    exists s'. split; [done|]. cbn [List.filter].
    destruct (matches_any res p) eqn:Hm; simpl in *.
    + split; [done|]. intros t. rewrite Hrm, elem_of_union, elem_of_singleton.
      split.
      * intros [[->|?]|(q & Hq & Ht & Hmq)]; [right|by left|right].
        -- exists p. split; [by left|done].
        -- exists q. split; [by right|done].
      * intros [?|(q & Hq & Ht & Hmq)]; [left; by right|].
        apply elem_of_cons in Hq as [->|Hq]; [left; by left|].
        right. by exists q.
    + destruct res as [|re res]; [done|]. simpl in *.
      split; [by rewrite Hpl, <- app_assoc|].
      intros t. rewrite Hrm. split.
      * intros [?|(q & Hq & Ht & Hmq)]; [by left|right].
        exists q. split; [by right|done].
      * intros [?|(q & Hq & Ht & Hmq)]; [by left|].
        apply elem_of_cons in Hq as [->|Hq]; [congruence|].
        right. by exists q.
Qed.

Lemma compilePending_spec (pd : list string) (acc : list Regexp) :
  Forall (λ name, ∃ re, MustCompile ("^" +:+ name +:+ "$") = Some re
                        ∧ ∀ s, MatchString re s = bool_decide (s = name)) pd →
  ∃ res, compilePending pd (Some <$> acc) = Ret (Some <$> acc ++ res)
    ∧ length res = length pd
    ∧ ∀ p, matches_any res p = bool_decide (Topic p ∈ pd).
Proof.
  intros Hpd. revert acc. induction Hpd as [|name pd (re & Hre & Hm) _ IH]; intros acc.
  - exists []. cbn [compilePending]. rewrite app_nil_r. split_and!; [done..|].
    intros p. by rewrite bool_decide_eq_false_2 by apply not_elem_of_nil.
  - cbn [compilePending]. rewrite Hre.
    destruct (IH (acc ++ [re])) as (res & Hres & Hlen & Hany).
    rewrite fmap_app in Hres. cbn [fmap list_fmap] in Hres.
    exists (re :: res). split_and!.
    + rewrite Hres. by rewrite <- app_assoc.
    + simpl. by rewrite Hlen.
    + intros p. cbn [matches_any existsb]. fold (matches_any res p).
      rewrite Hm, Hany. apply eq_true_iff_eq.
      rewrite orb_true_iff, !bool_decide_eq_true, elem_of_cons. done.
Qed.

Lemma mergeTopics_spec (zk : Handler) (topics : list string) (acc : partitionList)
    (r : partitionList + string) :
  mergeTopics zk topics acc = Ret r →
  match r with
  | inl ps =>
      Forall (λ name, ∃ pmap, GetPartitionMap zk name = (Some pmap, None)) topics
      ∧ ps = acc ++ mjoin ((λ name, from_option Partitions [] (GetPartitionMap zk name).1)
                             <$> topics)
  | inr err =>
      ∃ pre name post, topics = pre ++ name :: post
        ∧ Forall (λ name, (GetPartitionMap zk name).2 = None) pre
        ∧ (GetPartitionMap zk name).2 = Some err
  end.
Proof.
  revert acc. induction topics as [|name topics IH]; intros acc H; simpl in H.
  - injection H as <-. by rewrite app_nil_r.
  - destruct (GetPartitionMap zk name) as [[pmap|] [err|]] eqn:Hn.
    + injection H as <-. exists [], name, topics. by rewrite Hn.
    + apply IH in H. destruct r as [ps|err].
      * destruct H as [Hall ->]. split; [constructor; [by eexists|done]|].
        rewrite fmap_cons. simpl. by rewrite Hn, app_assoc.
      * destruct H as (pre & n' & post & -> & Hpre & Hn').
        exists (name :: pre), n', post. split_and!; [done| |done].
        constructor; [by rewrite Hn|done].
    + injection H as <-. exists [], name, topics. by rewrite Hn.
    + done.
Qed.

Lemma mergeTopics_ok (zk : Handler) (topics : list string) (acc : partitionList) :
  Forall (λ name, ∃ pmap, GetPartitionMap zk name = (Some pmap, None)) topics →
  mergeTopics zk topics acc
  = Ret (inl (acc ++ mjoin ((λ name, from_option Partitions [] (GetPartitionMap zk name).1)
                              <$> topics))).
Proof.
  intros Hall. revert acc. induction Hall as [|name topics [pmap Hn] _ IH]; intros acc; simpl.
  - by rewrite app_nil_r.
  - rewrite Hn, IH. simpl. by rewrite app_assoc.
Qed.

End Metadata_facts.

Lemma removeTopics_spec `{RX : GoRegexp} `{MR : GoMapRange}
    (pm : PartitionMap) (res : list Regexp) :
  ∃ names,
    removeTopics pm (Some <$> res)
    = Ret (names, {| Version := Version pm;
                     Partitions := List.filter (λ p, negb (matches_any res p))
                                               (Partitions pm) |})
    ∧ NoDup names
    ∧ (∀ t, t ∈ names ↔ ∃ p, p ∈ Partitions pm ∧ Topic p = t ∧ matches_any res p = true)
    ∧ (res = [] → names = []).
Proof.
  unfold removeTopics. destruct res as [|re res].
  - exists []. simpl. rewrite filter_all_true by done. destruct pm. simpl.
    split_and!; [done|constructor| |done].
    intros t. split; [by intros ?%elem_of_nil|by intros (p & _ & _ & ?)].
  - replace (len (Some <$> re :: res) =? 0) with false
      by (symmetry; apply Z.eqb_neq; unfold len; rewrite length_fmap; simpl; lia).
    destruct (removeLoop_spec (re :: res) (Partitions pm)
                {| rm_newPL := []; rm_removed := ∅ |}) as (s' & -> & Hpl & Hrm); [done|].
    rewrite bind_Ret_l. exists (map_range (rm_removed s')). simpl in Hpl. rewrite Hpl.
    split_and!; [done| | |done].
    + rewrite map_range_Permutation. apply NoDup_elements.
    + intros t. rewrite map_range_Permutation, elem_of_elements, Hrm.
      split; [intros [?%elem_of_empty|?]; done|by right].
Qed.

(** X15: [removeTopics] with patterns that are not nil returns; it
    leaves the version and, in their order, exactly the partitions whose
    topic no pattern matches, and returns each topic of the map that some
    pattern matches once. With no pattern the map is left as it is and no
    name is returned. *)
Theorem removeTopics_filters `{RX : GoRegexp} `{MR : GoMapRange}
    (pm : PartitionMap) (res : list Regexp) :
  ∃ names,
    removeTopics pm (Some <$> res)
    = Ret (names, {| Version := Version pm;
                     Partitions := List.filter (λ p, negb (matches_any res p))
                                               (Partitions pm) |})
    ∧ NoDup names
    ∧ (∀ t, t ∈ names ↔ ∃ p, p ∈ Partitions pm ∧ Topic p = t ∧ matches_any res p = true)
    ∧ (res = [] → names = [] ∧ removeTopics pm (Some <$> res) = Ret ([], pm)).
Proof.
  destruct (removeTopics_spec pm res) as (names & Hr & Hnd & Hnames & Hnil).
  exists names. split_and!; [done..|].
  intros ->. split; [by apply Hnil|done].
Qed.

(** X16: [stripPendingDeletes]. When the pattern of every topic pending
    deletion compiles and matches that name and no other, the call leaves
    exactly the partitions whose topic is not pending deletion, in their
    order, and returns each pending topic that the map had once; an error
    of the handler does not stop it. *)
Theorem stripPendingDeletes_exact `{RX : GoRegexp} `{MR : GoMapRange}
    (pm : PartitionMap) (zk : Handler) :
  Forall (λ name, ∃ re, MustCompile ("^" +:+ name +:+ "$") = Some re
                        ∧ ∀ s, MatchString re s = bool_decide (s = name))
         (GetPendingDeletion zk).1 →
  ∃ names,
    stripPendingDeletes pm zk
    = Ret (names, {| Version := Version pm;
                     Partitions := List.filter
                       (λ p, bool_decide (Topic p ∉ (GetPendingDeletion zk).1))
                       (Partitions pm) |})
    ∧ NoDup names
    ∧ ∀ t, t ∈ names ↔ t ∈ (GetPendingDeletion zk).1 ∧ t ∈ Topic <$> Partitions pm.
Proof.
  intros Hpd. unfold stripPendingDeletes.
  destruct (GetPendingDeletion zk).1 as [|name pd] eqn:Hzk.
  - exists []. cbn [Z.eqb len length Z.of_nat]. rewrite filter_all_true
      by (intros p; apply bool_decide_eq_true_2, not_elem_of_nil).
    destruct pm. split_and!; [done|constructor|].
    intros t. split; [by intros ?%elem_of_nil|by intros [?%elem_of_nil _]].
  - replace (len (name :: pd) =? 0) with false
      by (symmetry; apply Z.eqb_neq; unfold len; simpl; lia).
    destruct (compilePending_spec (name :: pd) [] Hpd) as (res & Hres & Hlen & Hany).
    simpl fmap in Hres. rewrite Hres, bind_Ret_l. simpl app.
    destruct (removeTopics_spec pm res) as (names & -> & Hnd & Hnames & _).
    exists names. split_and!; [|done|].
    + do 2 f_equal. f_equal. apply filter_ext_eq. intros p. rewrite Hany.
      apply eq_true_iff_eq. rewrite negb_true_iff, bool_decide_eq_false, bool_decide_eq_true.
      done.
    + intros t. rewrite Hnames. split.
      * intros (p & Hp & <- & Hm). rewrite Hany in Hm. apply bool_decide_eq_true in Hm.
        split; [done|]. apply list_elem_of_fmap. by exists p.
      * intros [Ht (p & -> & Hp)%list_elem_of_fmap]. exists p. split_and!; [done..|].
        rewrite Hany. by apply bool_decide_eq_true_2.
Qed.

Lemma stripPendingDeletes_exact_witness :
  ∃ names,
    @stripPendingDeletes literal_regexp elements_range pm_pending zk_sample
    = Ret (names, {| Version := 1;
                     Partitions := List.filter
                       (λ p, bool_decide (Topic p ∉ ["a"%string]))
                       (Partitions pm_pending) |})
    ∧ NoDup names
    ∧ ∀ t, t ∈ names ↔ t ∈ ["a"%string] ∧ t ∈ Topic <$> Partitions pm_pending.
Proof.
  apply (@stripPendingDeletes_exact literal_regexp elements_range pm_pending zk_sample).
  constructor; [|constructor].
  exists "a"%string. split; [reflexivity|]. intros s. reflexivity.
Defined.

(** X17: [PartitionMapFromZK] merges the maps of all topics. When the
    handler finds topics and has a map for each, the call returns, without
    error, a map of version 1 that holds the partitions of all these maps,
    in canonical order: topic ascending, then partition index
    ascending. *)
Theorem PartitionMapFromZK_merges `{RT : GoRuntime} `{RX : GoRegexp}
    (t : list (option Regexp)) (zk : Handler) (topics : list string) :
  GetTopics zk t = (topics, None) →
  topics ≠ [] →
  Forall (λ name, ∃ pmap, GetPartitionMap zk name = (Some pmap, None)) topics →
  ∃ pm, PartitionMapFromZK t zk = Ret (Some pm, None)
    ∧ Version pm = 1
    ∧ Partitions pm ≡ₚ mjoin ((λ name, from_option Partitions [] (GetPartitionMap zk name).1)
                                <$> topics)
    ∧ StronglySorted canonical_le (Partitions pm).
Proof.
  intros Ht Hne Hall. unfold PartitionMapFromZK. rewrite Ht.
  replace (len topics =? 0) with false
    by (symmetry; apply Z.eqb_neq; unfold len; destruct topics; simpl; [done|lia]).
  rewrite mergeTopics_ok by done. rewrite bind_Ret_l. simpl.
  eexists. split; [done|]. simpl.
  split_and!; [done|apply sort_Sort_Permutation|apply sort_Sort_canonical].
Qed.

Lemma PartitionMapFromZK_merges_witness :
  ∃ pm, @PartitionMapFromZK ref_runtime literal_regexp [] zk_sample = Ret (Some pm, None)
    ∧ Version pm = 1
    ∧ Partitions pm
      ≡ₚ mjoin ((λ name, from_option Partitions [] (GetPartitionMap zk_sample name).1)
                  <$> ["b"; "a"]%string)
    ∧ StronglySorted canonical_le (Partitions pm).
Proof.
  apply (@PartitionMapFromZK_merges ref_runtime literal_regexp [] zk_sample
           ["b"; "a"]%string); [reflexivity|discriminate|].
  repeat constructor; eexists; reflexivity.
Defined.

(** X18: [PartitionMapFromZK] returns a map or an error, never both and
    never neither. It returns a map only when the handler found at least
    one topic and no call of the handler gave an error; otherwise the
    error is the handler's, or says that no topic was found. *)
Theorem PartitionMapFromZK_map_or_error `{RT : GoRuntime} `{RX : GoRegexp}
    (t : list (option Regexp)) (zk : Handler)
    (o : option PartitionMap) (e : option string) :
  PartitionMapFromZK t zk = Ret (o, e) →
  (o = None ↔ is_Some e)
  ∧ (is_Some o →
       (GetTopics zk t).2 = None ∧ (GetTopics zk t).1 ≠ []
       ∧ Forall (λ name, (GetPartitionMap zk name).2 = None) (GetTopics zk t).1)
  ∧ (∀ err, e = Some err →
       (GetTopics zk t).2 = Some err
       ∨ ((GetTopics zk t).1 = []
          ∧ err = "No topics found matching: " +:+ fmt_patterns t)
       ∨ ∃ name, name ∈ (GetTopics zk t).1 ∧ (GetPartitionMap zk name).2 = Some err).
Proof.
  intros H. unfold PartitionMapFromZK in H.
  destruct (GetTopics zk t) as [topics [err|]]; simpl.
  { injection H as <- <-. split_and!.
    - split; [by eexists|done].
    - by intros [? ?].
    - intros ? [= <-]. by left. }
  destruct (Z.eqb_spec (len topics) 0) as [Hlen|Hlen].
  { injection H as <- <-. destruct topics; [|unfold len in Hlen; simpl in Hlen; lia].
    split_and!.
    - split; [by eexists|done].
    - by intros [? ?].
    - intros ? [= <-]. right. by left. }
  inv_bind H. apply mergeTopics_spec in Ha. destruct a as [ps|err]; injection H as <- <-.
  - destruct Ha as [Hall _]. split_and!.
    + split; [done|by intros [? ?]].
    + intros _. split_and!; [done| |].
      * intros ->. by unfold len in Hlen.
      * eapply Forall_impl; [done|]. intros name [pmap ->]. done.
    + done.
  - destruct Ha as (pre & name & post & -> & _ & Hn). split_and!.
    + split; [by eexists|done].
    + by intros [? ?].
    + intros ? [= <-]. right. right. exists name. split; [|done].
      apply elem_of_app. right. by left.
Qed.

Lemma PartitionMapFromZK_map_or_error_witness :
  ∃ o e, @PartitionMapFromZK ref_runtime literal_regexp [] zk_sample = Ret (o, e)
    ∧ (o = None ↔ is_Some e)
    ∧ (is_Some o →
         (GetTopics zk_sample []).2 = None ∧ (GetTopics zk_sample []).1 ≠ []
         ∧ Forall (λ name, (GetPartitionMap zk_sample name).2 = None)
                  (GetTopics zk_sample []).1)
    ∧ (∀ err, e = Some err →
         (GetTopics zk_sample []).2 = Some err
         ∨ ((GetTopics zk_sample []).1 = []
            ∧ err = "No topics found matching: " +:+ @fmt_patterns literal_regexp [])
         ∨ ∃ name, name ∈ (GetTopics zk_sample []).1
                   ∧ (GetPartitionMap zk_sample name).2 = Some err).
Proof.
  destruct (observe_Some (λ r, bool_decide (is_Some r.1))
              (@PartitionMapFromZK ref_runtime literal_regexp [] zk_sample) true)
    as ([o e] & Hr & _); [vm_compute; reflexivity|].
  exists o, e. split; [exact Hr|].
  exact (@PartitionMapFromZK_map_or_error ref_runtime literal_regexp [] zk_sample o e Hr).
Defined.

(** ** The count placement with nothing to replace *)

Lemma firstReplicas_all (k : nat) (p : Partition) :
  length (Replicas p) = k → firstReplicas k p = p.
Proof.
  intros <-. unfold firstReplicas. rewrite firstn_all. by destruct p.
Qed.

Lemma firstReplicas_all_list (k : nat) (ps : partitionList) :
  Forall (λ p, length (Replicas p) = k) ps → firstReplicas k <$> ps = ps.
Proof.
  induction 1 as [|p ps Hp _ IH]; [done|].
  by rewrite fmap_cons, IH, firstReplicas_all.
Qed.

Section Count_nothing_to_replace.
Context `{RT : GoRuntime}.
Variables (pmm : PartitionMetaMap) (strategy : string).

Lemma placeAt_kept_exact (k n : nat) (partn q : Partition) (s : posState) (bid : Z) :
  Replicas partn !! k = Some bid →
  kept (st_bm (ps_st s)) bid →
  (if Z.of_nat k =? 0
   then ps_parts s ++ [{| Topic := Topic partn; PartitionN := PartitionN partn;
                          Replicas := [] |}]
   else ps_parts s) !! n = Some q →
  placeAt pmm strategy (Z.of_nat k) n partn s
  = Ret {| ps_parts :=
             <[n := {| Topic := Topic q; PartitionN := PartitionN q;
                       Replicas := Replicas q ++ [bid] |}]>
               (if Z.of_nat k =? 0
                then ps_parts s ++ [{| Topic := Topic partn; PartitionN := PartitionN partn;
                                       Replicas := [] |}]
                else ps_parts s);
           ps_errs := ps_errs s; ps_st := ps_st s; ps_skipped := ps_skipped s |}.
Proof.
  intros Hbid (b & Hb & Hrep) Hq. unfold placeAt.
  pose proof (lookup_lt_Some _ _ _ Hbid) as Hlt.
  replace (Z.of_nat k >? len (Replicas partn) - 1) with false
    by (symmetry; rewrite Z.gtb_ltb; apply Z.ltb_ge; unfold len; lia).
  replace (Z.of_nat k <? 0) with false by (symmetry; apply Z.ltb_ge; lia).
  rewrite Nat2Z.id, Hbid. unfold at_key. rewrite Hb. simpl. rewrite Hb. simpl.
  rewrite Hrep. simpl. unfold appendReplica. by rewrite Hq.
Qed.

Lemma placePass_kept_exact (k : nat) (rest pre : partitionList) (s : posState) :
  ps_parts s = placedSoFar k pre rest →
  Forall (λ p, (k < length (Replicas p))%nat ∧ Forall (kept (st_bm (ps_st s))) (Replicas p))
         rest →
  placePass pmm strategy (Z.of_nat k) (length pre) rest s
  = Ret {| ps_parts := firstReplicas (S k) <$> pre ++ rest;
           ps_errs := ps_errs s; ps_st := ps_st s; ps_skipped := ps_skipped s |}.
Proof.
  intros Hparts Hrest. revert pre s Hparts Hrest.
  induction rest as [|partn rest IH]; intros pre s Hparts Hrest.
  - simpl. rewrite app_nil_r. unfold placedSoFar in Hparts.
    destruct s as [parts e st sk]. simpl in *. subst parts.
    destruct k; by rewrite ?fmap_nil, app_nil_r.
  - apply Forall_cons in Hrest as [[Hlt Hkept] Hrest].
    destruct (lookup_lt_is_Some_2 (Replicas partn) k Hlt) as [bid Hbid].
    cbn [placePass].
    assert (∃ q, (if Z.of_nat k =? 0
                  then ps_parts s ++ [{| Topic := Topic partn; PartitionN := PartitionN partn;
                                         Replicas := [] |}]
                  else ps_parts s) !! length pre = Some q
                 ∧ <[length pre := {| Topic := Topic q; PartitionN := PartitionN q;
                                      Replicas := Replicas q ++ [bid] |}]>
                     (if Z.of_nat k =? 0
                      then ps_parts s ++ [{| Topic := Topic partn;
                                             PartitionN := PartitionN partn;
                                             Replicas := [] |}]
                      else ps_parts s)
                   = placedSoFar k (pre ++ [partn]) rest) as (q & Hq & Hins).
    { rewrite Hparts. unfold placedSoFar. destruct k as [|k].
      - simpl Z.eqb. cbv iota. rewrite app_nil_r.
        eexists. split.
        + rewrite lookup_app_r by (by rewrite length_fmap).
          by rewrite length_fmap, Nat.sub_diag.
        + rewrite insert_app_r_alt by (by rewrite length_fmap).
          rewrite length_fmap, Nat.sub_diag. simpl.
          rewrite fmap_app, app_nil_r. f_equal. simpl. unfold firstReplicas. f_equal.
          f_equal. destruct (Replicas partn) as [|r rs]; [done|].
          simpl in Hbid. by injection Hbid as ->.
      - replace (Z.of_nat (S k) =? 0) with false by (symmetry; apply Z.eqb_neq; lia).
        eexists. split.
        + rewrite lookup_app_r by (by rewrite length_fmap).
          by rewrite length_fmap, Nat.sub_diag, fmap_cons.
        + rewrite insert_app_r_alt by (by rewrite length_fmap).
          rewrite length_fmap, Nat.sub_diag, fmap_cons. simpl.
          rewrite fmap_app, <- app_assoc. f_equal. simpl. f_equal.
          unfold firstReplicas. f_equal.
          by rewrite (take_S_r _ _ _ Hbid). }
    rewrite (placeAt_kept_exact k (length pre) partn q s bid Hbid) by
      (first [done | by eapply Forall_forall; [exact Hkept|eapply list_elem_of_lookup_2]]).
    rewrite bind_Ret_l, Hins.
    replace (S (length pre)) with (length (pre ++ [partn]))
      by (rewrite length_app; simpl; lia).
    rewrite IH by done. simpl. by rewrite <- app_assoc.
Qed.

Lemma placePass_skip_exact (L : nat) (rest pre : partitionList) (s : posState) :
  Forall (λ p, length (Replicas p) = L) rest →
  ps_parts s = pre ++ (match L with O => [] | S _ => rest end) →
  0 ≤ ps_skipped s → ps_skipped s + len rest < 2 ^ 63 →
  placePass pmm strategy (Z.of_nat L) (length pre) rest s
  = Ret {| ps_parts := pre ++ rest; ps_errs := ps_errs s; ps_st := ps_st s;
           ps_skipped := ps_skipped s + len rest |}.
Proof.
  intros Hrest. revert pre s. induction Hrest as [|partn rest Hp _ IH];
    intros pre s Hparts H0 Hsk.
  - simpl. unfold len. simpl. rewrite Z.add_0_r.
    destruct s as [parts e st sk]. simpl in *. subst parts. by destruct L.
  - cbn [placePass]. unfold placeAt at 1.
    replace (Z.of_nat L >? len (Replicas partn) - 1) with true
      by (symmetry; rewrite Z.gtb_ltb; apply Z.ltb_lt; unfold len; lia).
    rewrite bind_Ret_l.
    unfold len in Hsk. rewrite length_cons in Hsk.
    rewrite wrap64_small by lia.
    replace (S (length pre)) with (length (pre ++ [partn]))
      by (rewrite length_app; simpl; lia).
    rewrite IH; simpl.
    + unfold len. rewrite length_cons, <- app_assoc. simpl. do 2 f_equal. lia.
    + rewrite Hparts. destruct L as [|L].
      * simpl. rewrite !app_nil_r. do 2 f_equal.
        destruct partn as [tp n rs]. simpl in *. by destruct rs.
      * replace (Z.of_nat (S L) =? 0) with false by (symmetry; apply Z.eqb_neq; lia).
        by rewrite <- app_assoc.
    + lia.
    + unfold len. lia.
Qed.

Lemma placePasses_kept_exact (d k : nat) (fuel : nat) (pm : PartitionMap) (s : posState) :
  Forall (λ p, length (Replicas p) = (k + d)%nat
               ∧ Forall (kept (st_bm (ps_st s))) (Replicas p)) (Partitions pm) →
  Partitions pm ≠ [] →
  len (Partitions pm) < 2 ^ 63 → Z.of_nat (k + d) < 2 ^ 62 →
  (d < fuel)%nat →
  ps_parts s = match k with O => [] | S _ => firstReplicas k <$> Partitions pm end →
  ps_skipped s = 0 →
  placePasses fuel pmm strategy pm (Z.of_nat k) s
  = Ret {| ps_parts := Partitions pm; ps_errs := ps_errs s; ps_st := ps_st s;
           ps_skipped := len (Partitions pm) |}.
Proof.
  revert k fuel s. induction d as [|d IH]; intros k fuel s Hall Hne HN HL Hfuel Hparts Hsk.
  - destruct fuel as [|fuel]; [lia|]. cbn [placePasses]. rewrite Hsk.
    replace (0 <? len (Partitions pm)) with true
      by (symmetry; apply Z.ltb_lt; unfold len; destruct (Partitions pm); simpl; [done|lia]).
    rewrite Nat.add_0_r in Hall.
    pose proof (placePass_skip_exact k (Partitions pm) [] s) as Hpass.
    cbn [length app] in Hpass. rewrite Hpass; simpl.
    + rewrite ?bind_Ret_l, Hsk, Z.add_0_l.
      destruct fuel; cbn [placePasses ps_skipped]; by rewrite Z.ltb_irrefl.
    + eapply Forall_impl; [done|]. by intros p [? _].
    + rewrite Hparts. destruct k; [done|]. apply firstReplicas_all_list.
      eapply Forall_impl; [done|]. by intros p [? _].
    + lia.
    + lia.
  - destruct fuel as [|fuel]; [lia|]. cbn [placePasses]. rewrite Hsk.
    replace (0 <? len (Partitions pm)) with true
      by (symmetry; apply Z.ltb_lt; unfold len; destruct (Partitions pm); simpl; [done|lia]).
    pose proof (placePass_kept_exact k (Partitions pm) [] s) as Hpass.
    cbn [length app] in Hpass. rewrite Hpass; simpl.
    + rewrite ?bind_Ret_l. rewrite wrap64_small by lia.
      replace (Z.of_nat k + 1) with (Z.of_nat (S k)) by lia.
      rewrite IH; simpl; try done; try lia.
      eapply Forall_impl; [done|]. intros p [Hlen ?]. split; [lia|done].
    + unfold placedSoFar. simpl. by destruct k.
    + eapply Forall_impl; [done|]. intros p [Hlen ?]. split; [lia|done].
Qed.

End Count_nothing_to_replace.

(** X19: a count rebuild with nothing to replace. When every replica is
    a broker of the map that is not marked for replacement and all
    partitions have the same number of replicas, [Rebuild] returns the
    partitions of the receiver, each with its replicas in their order, in
    canonical order; it leaves the broker map as it was and reports only
    the partitions without replica. (With replica sets of different
    lengths the same call drops replicas: see C3.) *)
Theorem Rebuild_count_nothing_to_replace `{RT : GoRuntime}
    (pm : PartitionMap) (bm : BrokerMap) (pmm : PartitionMetaMap) (g : rng) (L : nat) :
  replicas_kept bm (Partitions pm) →
  Forall (λ p, length (Replicas p) = L) (Partitions pm) →
  len (Partitions pm) < 2 ^ 63 → Z.of_nat L < 2 ^ 62 →
  ∃ r m,
    Rebuild pm bm pmm "count" g = Ret r
    ∧ newMap r = Some m
    ∧ Version m = 1
    ∧ Partitions m ≡ₚ Partitions pm
    ∧ StronglySorted canonical_le (Partitions m)
    ∧ bm_after r = bm
    ∧ errs r = zeroReplicaErrors (Partitions (pm_after r)).
Proof.
  intros Hk HL HN HLb. unfold Rebuild. simpl.
  set (sorted := sort_Sort partitionList_Less (Partitions pm)).
  assert (Hsorted : sorted ≡ₚ Partitions pm) by apply sort_Sort_Permutation.
  clearbody sorted. unfold placeByPosition. cbn [st_bm st_rng Partitions].
  destruct (decide (sorted = [])) as [->|Hne].
  - simpl. eexists _, _. split; [done|]. simpl.
    split_and!; [done|done| |apply sort_Sort_canonical|done|done].
    simpl. by rewrite sort_Sort_Permutation.
  - rewrite (placePasses_kept_exact pmm "count" L 0 _
               {| Version := Version pm; Partitions := sorted |}); simpl.
    + eexists _, _. split; [done|]. simpl.
      split_and!; [done|done| |apply sort_Sort_canonical|done|done].
      simpl. by rewrite sort_Sort_Permutation.
    + rewrite Hsorted. unfold replicas_kept in Hk.
      apply Forall_forall. intros p Hp. split.
      * by eapply Forall_forall in HL.
      * by eapply Forall_forall in Hk.
    + done.
    + unfold len. by rewrite Hsorted.
    + done.
    + unfold pass_budget. simpl.
      destruct sorted as [|p0 ps0] eqn:Hs; [done|]. rewrite <- Hs.
      assert (L ∈ length ∘ Replicas <$> sorted) as Hin.
      { assert (p0 ∈ Partitions pm) as Hp0 by (rewrite <- Hsorted; by left).
        eapply Forall_forall in HL; [|done]. rewrite Hs, fmap_cons.
        unfold compose at 1. rewrite HL. by left. }
      apply max_list_elem_of_le in Hin. lia.
    + done.
    + done.
Qed.

Lemma Rebuild_count_nothing_to_replace_witness :
  ∃ r m,
    @Rebuild ref_runtime pm_t bm_mock pmm_t "count" 0 = Ret r
    ∧ newMap r = Some m
    ∧ Version m = 1
    ∧ Partitions m ≡ₚ Partitions pm_t
    ∧ StronglySorted canonical_le (Partitions m)
    ∧ bm_after r = bm_mock
    ∧ errs r = zeroReplicaErrors (Partitions (pm_after r)).
Proof.
  apply (@Rebuild_count_nothing_to_replace ref_runtime pm_t bm_mock pmm_t 0 3).
  - repeat (constructor; try (apply is_kept_kept; by vm_compute)).
  - repeat constructor.
  - reflexivity.
  - reflexivity.
Defined.

(** ** The order of partitions and the relocation plan, once more *)

(** X20: [partitionList.Less] is a strict weak order that looks at the
    topic and the partition index only: two partitions are tied, neither
    less than the other, exactly when they have the same topic and the
    same index, whatever their replicas. On a map without two partitions
    of the same topic and index the sorted order is therefore unique. *)
Theorem partitionList_Less_ties (p q : Partition) :
  strict_weak_order partitionList_Less
  ∧ ((partitionList_Less p q = false ∧ partitionList_Less q p = false)
     ↔ (Topic p = Topic q ∧ PartitionN p = PartitionN q))
  ∧ (partitionList_Less p q = true → partitionList_Less q p = false).
Proof.
  split; [apply partitionList_Less_swo|]. split.
  - rewrite !partitionList_Less_false. unfold canonical_le. split.
    + intros [[Hqp|[Hqp Hn]] [Hpq|[Hpq Hm]]].
      * apply string_lt_asym in Hqp. congruence.
      * rewrite Hpq, string_lt_irrefl in Hqp. done.
      * rewrite Hqp, string_lt_irrefl in Hpq. done.
      * split; [done|lia].
    + intros [Ht Hn]. split; right; split; (congruence || lia).
  - intros Hpq. apply partitionList_Less_false.
    apply partitionList_Less_true in Hpq as [?|[? ?]]; [by left|right].
    split; [done|lia].
Qed.

Lemma replace_all_idemp (src dst : Z) (rs : list Z) :
  replace_all src dst (replace_all src dst rs) = replace_all src dst rs.
Proof.
  unfold replace_all. rewrite <- list_fmap_compose. apply list_fmap_ext.
  intros _ r _. simpl.
  destruct (Z.eqb_spec r src) as [->|Hne].
  - by destruct (Z.eqb_spec dst src) as [->|?].
  - by destruct (Z.eqb_spec r src).
Qed.

Lemma relocate_with_replace_all_idemp (plan : relocationPlan) (partn : Partition) :
  relocate_with replace_all plan (relocate_with replace_all plan partn)
  = relocate_with replace_all plan partn.
Proof.
  unfold relocate_with.
  destruct (plan !! Topic partn ≫= (.!! PartitionN partn)) as [ids|] eqn:Hp; simpl.
  - rewrite Hp. by rewrite replace_all_idemp.
  - by rewrite Hp.
Qed.

(** X21: [applyRelocationPlan] (without the leader optimisation) keeps
    the version, the number of partitions and the topic, index and number
    of replicas of each; with an empty plan it changes nothing; and
    applying the same plan a second time changes nothing more. *)
Theorem applyRelocationPlan_idempotent
    (SimpleLeaderOptimization : PartitionMap → PartitionMap)
    (pm : PartitionMap) (plan : relocationPlan) :
  let pm' := applyRelocationPlan SimpleLeaderOptimization false pm plan in
  Version pm' = Version pm
  ∧ Forall2 (λ p p', Topic p' = Topic p ∧ PartitionN p' = PartitionN p
                     ∧ length (Replicas p') = length (Replicas p))
            (Partitions pm) (Partitions pm')
  ∧ applyRelocationPlan SimpleLeaderOptimization false pm ∅ = pm
  ∧ applyRelocationPlan SimpleLeaderOptimization false pm' plan = pm'.
Proof.
  unfold applyRelocationPlan. cbv zeta. cbn [Version Partitions]. split_and!.
  - done.
  - apply Forall2_fmap_r, Forall_Forall2_diag, Forall_forall. intros p _.
    unfold compose. rewrite applyTo_replace_all. unfold relocate_with.
    destruct (plan !! Topic p ≫= (.!! PartitionN p)); simpl; [|done].
    by rewrite replace_all_length.
  - destruct pm as [v ps]. simpl. f_equal.
    rewrite <- (list_fmap_id ps) at 2. apply list_fmap_ext. intros _ p _.
    unfold applyTo, isPlanned. by rewrite lookup_empty.
  - f_equal. rewrite <- list_fmap_compose. apply list_fmap_ext. intros _ p _. simpl.
    rewrite !applyTo_replace_all. apply relocate_with_replace_all_idemp.
Qed.

(** ** Rebuild never adds a replica *)

Section Rebuild_not_grown.
Context `{RT : GoRuntime}.
Variables (pmm : PartitionMetaMap) (strategy : string).

Lemma placeAt_shape (pass : Z) (n : nat) (partn : Partition) (s s' : posState) :
  placeAt pmm strategy pass n partn s = Ret s' →
  let parts := if pass =? 0
               then ps_parts s ++ [{| Topic := Topic partn; PartitionN := PartitionN partn;
                                      Replicas := [] |}]
               else ps_parts s in
  ps_parts s' = parts
  ∨ ∃ q id, parts !! n = Some q ∧ pass < len (Replicas partn)
      ∧ ps_parts s' = <[n := {| Topic := Topic q; PartitionN := PartitionN q;
                                Replicas := Replicas q ++ [id] |}]> parts.
Proof.
  intros H parts. unfold placeAt in H. fold parts in H.
  destruct (Z.gtb_spec pass (len (Replicas partn) - 1)) as [Hgt|Hle];
    [injection H as <-; by left|].
  destruct (pass <? 0); [done|].
  destruct (Replicas partn !! Z.to_nat pass) as [bid|]; [|done].
  inv_bind H. destruct (negb (Replace a)).
  - inv_bind H. injection H as <-. simpl. right.
    unfold appendReplica in Ha0. destruct (parts !! n) as [q|] eqn:Hq; [|done].
    injection Ha0 as <-. exists q, bid. split_and!; [done|lia|done].
  - destruct (parts !! n) as [q|] eqn:Hq; [|done].
    inv_bind H. destruct (a0.2) as [e|id].
    + injection H as <-. by left.
    + inv_bind H. injection H as <-. simpl. right.
      unfold appendReplica in Ha1. rewrite Hq in Ha1. injection Ha1 as <-.
      exists q, id. split_and!; [done|lia|done].
Qed.

Lemma shrunk_mono (j j' : nat) (p q : Partition) :
  (j ≤ j')%nat → shrunk j p q → shrunk j' p q.
Proof. intros Hj (? & ? & ?). split_and!; [done|lia|done]. Qed.

Lemma placePass_shrunk (k : nat) (rest pre A B : partitionList) (n : nat) (s s' : posState) :
  ps_parts s = A ++ B →
  Forall2 (shrunk (S k)) pre A →
  match k with O => B = [] | S _ => Forall2 (shrunk k) rest B end →
  n = length pre →
  placePass pmm strategy (Z.of_nat k) n rest s = Ret s' →
  Forall2 (shrunk (S k)) (pre ++ rest) (ps_parts s').
Proof.
  revert pre A B n s. induction rest as [|partn rest IH];
    intros pre A B n s Hparts HA HB Hn H; simpl in H.
  - injection H as <-. rewrite app_nil_r, Hparts.
    assert (B = []) as -> by (destruct k; [done|by apply Forall2_nil_inv_l in HB]).
    by rewrite app_nil_r.
  - inv_bind H. apply placeAt_shape in Ha. cbv zeta in Ha.
    pose proof (Forall2_length _ _ _ HA) as HlenA.
    assert (∃ b B', (if Z.of_nat k =? 0
                     then ps_parts s ++ [{| Topic := Topic partn;
                                            PartitionN := PartitionN partn;
                                            Replicas := [] |}]
                     else ps_parts s) = A ++ b :: B'
                    ∧ partition_key b = partition_key partn
                    ∧ (length (Replicas b) ≤ k)%nat
                    ∧ (length (Replicas b) ≤ length (Replicas partn))%nat
                    ∧ match k with O => B' = [] | S _ => Forall2 (shrunk k) rest B' end)
      as (b & B' & Hcur & Hkey & Hbk & Hbl & HB').
    { destruct k as [|k].
      - subst B. simpl. rewrite Hparts, app_nil_r. eexists _, []. split; [done|].
        split_and!; [done|simpl; lia|simpl; lia|done].
      - replace (Z.of_nat (S k) =? 0) with false by (symmetry; apply Z.eqb_neq; lia).
        apply Forall2_cons_inv_l in HB as (b & B' & (? & ? & ?) & HB' & ->).
        exists b, B'. by rewrite Hparts. }
    rewrite Hcur in Ha.
    replace (pre ++ partn :: rest) with ((pre ++ [partn]) ++ rest)
      by (by rewrite <- app_assoc).
    destruct Ha as [Hsame|(q & id & Hq & Hlt & Hins)].
    + eapply (IH (pre ++ [partn]) (A ++ [b]) B'); [| | | |exact H].
      * by rewrite Hsame, <- app_assoc.
      * apply Forall2_app; [done|]. constructor; [|done]. split_and!; [done|lia|done].
      * done.
      * rewrite length_app. simpl. lia.
    + rewrite Hn, HlenA in Hq, Hins.
      rewrite lookup_app_r in Hq by lia. rewrite Nat.sub_diag in Hq. injection Hq as <-.
      rewrite insert_app_r_alt in Hins by lia. rewrite Nat.sub_diag in Hins. simpl in Hins.
      eapply (IH (pre ++ [partn])
                 (A ++ [{| Topic := Topic b; PartitionN := PartitionN b;
                           Replicas := Replicas b ++ [id] |}]) B'); [| | | |exact H].
      * by rewrite Hins, <- app_assoc.
      * apply Forall2_app; [done|]. constructor; [|done].
        unfold len in Hlt. unfold shrunk, partition_key in *. simpl.
        rewrite length_app. simpl. split_and!; [done|lia|lia].
      * done.
      * rewrite length_app. simpl. lia.
Qed.

Lemma placePasses_shrunk (fuel : nat) (pm : PartitionMap) (k : nat) (s s' : posState) :
  Z.of_nat k + Z.of_nat fuel < 2 ^ 63 →
  match k with
  | O => ps_parts s = [] ∧ ps_skipped s = 0
  | S _ => Forall2 (shrunk k) (Partitions pm) (ps_parts s)
  end →
  placePasses fuel pmm strategy pm (Z.of_nat k) s = Ret s' →
  Forall2 not_grown (Partitions pm) (ps_parts s').
Proof.
  revert k s. induction fuel as [|fuel IH]; intros k s Hfuel Hinv H; simpl in H.
  all: destruct (Z.ltb_spec (ps_skipped s) (len (Partitions pm))) as [Hlt|Hge]; [|].
  all: try done.
  all: try (injection H as <-; destruct k as [|k];
            [destruct Hinv as [-> Hsk]; rewrite Hsk in Hge;
             destruct (Partitions pm); [constructor|unfold len in Hge; simpl in Hge; lia]
            |eapply Forall2_impl; [done|]; intros p q ((Ht & Hn)%pair_eq & _ & ?); by split_and!]).
  inv_bind H. rewrite wrap64_small in H by lia.
  replace (Z.of_nat k + 1) with (Z.of_nat (S k)) in H by lia.
  eapply (IH (S k)); [lia| |exact H].
  eapply (placePass_shrunk k (Partitions pm) [] [] (ps_parts s) 0); [done|constructor| |done|done].
  destruct k; [by destruct Hinv|done].
Qed.

Lemma placeReplica_length (partn : Partition) (bid : Z) (s s' : partState) :
  placeReplica pmm strategy partn bid s = Ret s' →
  (length (pt_replicas s') ≤ S (length (pt_replicas s)))%nat.
Proof.
  intros H. unfold placeReplica in H. inv_bind H. destruct (negb (Replace a)).
  - injection H as <-. simpl. rewrite length_app. simpl. lia.
  - inv_bind H. destruct (a0.2); injection H as <-; simpl; [lia|].
    rewrite length_app. simpl. lia.
Qed.

Lemma placeReplicas_length (partn : Partition) (bids : list Z) (s s' : partState) :
  placeReplicas pmm strategy partn bids s = Ret s' →
  (length (pt_replicas s') ≤ length bids + length (pt_replicas s))%nat.
Proof.
  revert s. induction bids as [|bid bids IH]; intros s H; simpl in H.
  - injection H as <-. lia.
  - inv_bind H. apply placeReplica_length in Ha. apply IH in H. simpl. lia.
Qed.

Lemma placePartitions_not_grown (rest acc : partitionList) (errs0 : list string)
    (st : bstate) (r : partitionList * list string * bstate) :
  placePartitions pmm strategy rest acc errs0 st = Ret r →
  ∃ new, r.1.1 = acc ++ new ∧ Forall2 not_grown rest new.
Proof.
  revert acc errs0 st. induction rest as [|partn rest IH]; intros acc errs0 st H; simpl in H.
  - injection H as <-. exists []. simpl. by rewrite app_nil_r.
  - inv_bind H. apply placeReplicas_length in Ha. simpl in Ha.
    apply IH in H as (new & -> & Hnew). eexists (_ :: new).
    split; [by rewrite <- app_assoc|]. constructor; [|done].
    split_and!; simpl; [done|done|lia].
Qed.

End Rebuild_not_grown.

Lemma not_grown_shuffled (src new out : partitionList) :
  Forall2 not_grown src new →
  Forall2 (λ p q, Topic q = Topic p ∧ PartitionN q = PartitionN p
                  ∧ Replicas q ≡ₚ Replicas p) new out →
  Forall2 not_grown src out.
Proof.
  intros Hnew. revert out.
  induction Hnew as [|p q src new (Ht & Hn & Hl) _ IH]; intros out Hsh.
  - apply Forall2_nil_inv_l in Hsh as ->. constructor.
  - apply Forall2_cons_inv_l in Hsh as (q' & out' & (Ht' & Hn' & Hr') & Hsh & ->).
    constructor; [|by apply IH].
    split_and!; [congruence|congruence|by rewrite Hr'].
Qed.

(** X22: [Rebuild] never adds a replica. For both strategies every
    partition of the returned map is a partition of the receiver (same
    topic and index, each taken once) with at most as many replicas as
    it had. For the count strategy this is for replica lists shorter than
    2^62, so that the pass counter does not wrap. *)
Theorem Rebuild_never_adds_replicas `{RT : GoRuntime}
    (pm : PartitionMap) (bm : BrokerMap) (pmm : PartitionMetaMap)
    (strategy : string) (g : rng) (r : rebuilt) (m : PartitionMap) :
  (strategy = "count"%string →
   Forall (λ partn, len (Replicas partn) < 2 ^ 62) (Partitions pm)) →
  Rebuild pm bm pmm strategy g = Ret r →
  newMap r = Some m →
  ∃ ps, ps ≡ₚ Partitions pm ∧ Forall2 not_grown ps (Partitions m).
Proof.
  intros Hbound H Hm. unfold Rebuild in H.
  assert (Hfinal : ∀ (src out : partitionList),
            src ≡ₚ Partitions pm → Forall2 not_grown src out →
            ∃ ps, ps ≡ₚ Partitions pm
                  ∧ Forall2 not_grown ps (sort_Sort partitionList_Less out)).
  { intros src out Hsrc Hf. apply Forall2_flip in Hf.
    destruct (Permutation_Forall2
                (Permutation_sym (sort_Sort_Permutation _ partitionList_Less out)) Hf)
      as (ps & Hps & Hf').
    exists ps. split; [by rewrite <- Hps|by apply Forall2_flip]. }
  repeat case_bool_decide.
  - inv_bind H. injection H as <-. simpl in *. injection Hm as <-. simpl.
    unfold placeByPosition in Ha. inv_bind Ha. injection Ha as <-. simpl.
    apply (Hfinal (sort_Sort partitionList_Less (Partitions pm)));
      [apply sort_Sort_Permutation|].
    eapply (placePasses_shrunk pmm strategy _ _ 0) in Ha0; [done| |done].
    unfold pass_budget. simpl Partitions.
    assert (Z.of_nat (max_list (length ∘ Replicas
              <$> sort_Sort partitionList_Less (Partitions pm))) < 2 ^ 62); [|lia].
    apply max_length_bound; [lia|]. rewrite sort_Sort_Permutation. auto.
  - inv_bind H. injection H as <-. simpl in *. injection Hm as <-. simpl.
    unfold placeByPartition in Ha. inv_bind Ha. injection Ha as <-. simpl.
    apply placePartitions_not_grown in Ha0 as (new & -> & Hnew). simpl.
    apply (Hfinal (sort_Sort (partitionsBySize_Less pmm) (Partitions pm)));
      [apply sort_Sort_Permutation|].
    eapply not_grown_shuffled; [done|]. apply shuffleFrom_permutes.
  - injection H as <-. done.
Qed.

Lemma Rebuild_never_adds_replicas_witness :
  ∃ r m ps, @Rebuild ref_runtime pm_uneven bm_mock ∅ "count" 0 = Ret r
    ∧ newMap r = Some m
    ∧ ps ≡ₚ Partitions pm_uneven ∧ Forall2 not_grown ps (Partitions m).
Proof.
  destruct (observe_Some (λ r, bool_decide (is_Some (newMap r)))
              (@Rebuild ref_runtime pm_uneven bm_mock ∅ "count" 0) true)
    as (r & Hr & Hm); [vm_compute; reflexivity|].
  apply bool_decide_eq_true in Hm as [m Hm].
  destruct (@Rebuild_never_adds_replicas ref_runtime pm_uneven bm_mock ∅ "count" 0 r m)
    as (ps & Hps & Hf); [intros _; repeat constructor|exact Hr|exact Hm|].
  exists r, m, ps. split; [exact Hr|]. split; [exact Hm|]. split; [exact Hps|exact Hf].
Defined.
